(** * pygame: sprite/group bookkeeping, surfarray byte layout, UserRect

    A shallow embedding of three Python 2 modules of the repository:

    - [lib/sprite.py]      : [Sprite], [Group] and [spritecollide];
    - [pygame/surfarray.py]: [array2d] and [blit_array];
    - [lib/UserRect.py]    : [UserRect.__init__] and [UserRect.__nonzero__].

    Python objects live in an explicit store, exceptions are results, and
    every function below follows the statements of the source function of
    the same name, including the places where the source reads a local
    variable that has not been bound yet. *)

From Stdlib Require Import ZArith List String Lia Bool.
From stdpp Require Import gmap strings list fin_maps.

Local Open Scope Z_scope.

(* ===================================================================== *)
(** * Part I: definitions                                                 *)
(* ===================================================================== *)

(** ** Python exceptions and the state-and-exception monad *)

Module Py.

(** The exception classes that the modelled code can raise.
    [UnboundLocalError] is Python's subclass of [NameError] raised when a
    local variable is read before it is assigned. *)
Inductive exn : Type :=
| TypeError
| KeyError
| NameError
| UnboundLocalError
| AttributeError
| ValueError
| NotImplementedError
| ImportError
| AssertionError.

#[global] Instance exn_eq_dec : EqDecision exn.
Proof. solve_decision. Defined.

(** Outcome of a call: a returned value or a raised exception. *)
Inductive res (A : Type) : Type :=
| Ok (a : A)
| Raise (e : exn).
Arguments Ok {A} a.
Arguments Raise {A} e.

(** A computation over a store [S].  The store is returned in both
    outcomes: what a call has mutated before it raises stays mutated. *)
Definition M (S A : Type) : Type := S -> res A * S.

Definition ret {S A : Type} (a : A) : M S A := fun s => (Ok a, s).

Definition raise {S A : Type} (e : exn) : M S A := fun s => (Raise e, s).

Definition bind {S A B : Type} (m : M S A) (k : A -> M S B) : M S B :=
  fun s =>
    match m s with
    | (Ok a, s') => k a s'
    | (Raise e, s') => (Raise e, s')
    end.

(** [for x in l: body(x)] *)
Fixpoint for_each {S A : Type} (l : list A) (body : A -> M S unit) : M S unit :=
  match l with
  | [] => ret tt
  | x :: l' => bind (body x) (fun _ => for_each l' body)
  end.

(** A local variable of a Python function: [None] while it is unbound.
    Reading an unbound local raises [UnboundLocalError]. *)
Definition read_local {S A : Type} (v : option A) : M S A :=
  match v with
  | Some a => ret a
  | None => raise UnboundLocalError
  end.

End Py.

Export Py.

Declare Scope py_scope.
Delimit Scope py_scope with py.
Notation "x <~ m ;; k" := (bind m (fun x => k))
  (at level 100, m at next level, k at level 200, right associativity) : py_scope.
Notation "m ;;; k" := (bind m (fun _ => k))
  (at level 100, k at level 200, right associativity) : py_scope.
Local Open Scope py_scope.

(** ** lib/sprite.py *)

Module Sprite.

(** Instances of the two classes [Sprite] and [Group], named by an
    identity.  Dictionary keys are compared by identity: neither class
    defines [__hash__] or [__cmp__].  The class [GroupSingle] and the
    drawing subclasses of [Group] are not modelled. *)
Inductive obj : Type :=
| Spr (i : nat)    (* an instance of class Sprite *)
| Grp (i : nat).   (* an instance of class Group  *)

#[global] Instance obj_eq_dec : EqDecision obj.
Proof. solve_decision. Defined.

#[global] Instance obj_countable : Countable obj.
Proof.
  refine (inj_countable'
            (fun o => match o with Spr i => inl i | Grp i => inr i end)
            (fun s => match s with inl i => Spr i | inr i => Grp i end) _).
  intros []; reflexivity.
Defined.

(** What a caller passes to [add], [remove] and [has]: one object, or a
    sequence (list or tuple) of objects. *)
Inductive value : Type :=
| VObj (o : obj)
| VSeq (l : list obj).

(** The store: every object owns one dictionary, [Sprite.__g] for a
    sprite and [Group.spritedict] for a group.  All stored values are the
    integer 0. *)
Definition heap : Type := obj -> gmap obj Z.

Definition upd (h : heap) (o : obj) (d : gmap obj Z) : heap :=
  fun o' => if decide (o' = o) then d else h o'.

(** Both [__init__] methods start from an empty dictionary. *)
Definition empty_heap : heap := fun _ => ∅.

(** *** Dictionary operations on the dictionary owned by [o] *)

(** [d.keys()] : a fresh list of the keys. *)
Definition keys (d : gmap obj Z) : list obj := (map_to_list d).*1.

(** [d.has_key(k)] *)
Definition dict_has_key (o k : obj) : M heap bool :=
  fun h => (Ok (bool_decide (is_Some (h o !! k))), h).

(** [d[k] = v] *)
Definition dict_setitem (o k : obj) (v : Z) : M heap unit :=
  fun h => (Ok tt, upd h o (<[k := v]> (h o))).

(** [del d[k]] : raises KeyError when [k] is not a key. *)
Definition dict_delitem (o k : obj) : M heap unit :=
  fun h =>
    match h o !! k with
    | Some _ => (Ok tt, upd h o (delete k (h o)))
    | None => (Raise KeyError, h)
    end.

(** [d.keys()] *)
Definition dict_keys (o : obj) : M heap (list obj) :=
  fun h => (Ok (keys (h o)), h).

(** [d.clear()] *)
Definition dict_clear (o : obj) : M heap unit :=
  fun h => (Ok tt, upd h o ∅).

(** [len(d)] *)
Definition dict_len (o : obj) : M heap nat :=
  fun h => (Ok (size (h o)), h).

(** *** Attribute tests and iteration *)

(** [hasattr(v, '_spritegroup')]: the class attribute is defined by
    [Group] only (line 188); a Sprite and a sequence do not have it.
    The result carries the object when the test succeeds. *)
Definition hasattr__spritegroup (v : value) : option obj :=
  match v with
  | VObj (Grp i) => Some (Grp i)
  | VObj (Spr _) => None
  | VSeq _ => None
  end.

(** [for x in v]: a sequence yields its items; an instance of Sprite or
    Group defines neither [__iter__] nor [__getitem__], so iterating over
    it raises TypeError. *)
Definition iterate (v : value) : M heap (list obj) :=
  match v with
  | VSeq l => ret l
  | VObj _ => raise TypeError
  end.

(** *** The internal methods (lines 149-153 and 250-253) *)

Definition Sprite_add_internal (self : nat) (group : obj) : M heap unit :=
  dict_setitem (Spr self) group 0.

Definition Sprite_remove_internal (self : nat) (group : obj) : M heap unit :=
  dict_delitem (Spr self) group.

Definition Group_add_internal (self : nat) (sprite : obj) : M heap unit :=
  dict_setitem (Grp self) sprite 0.

Definition Group_remove_internal (self : nat) (sprite : obj) : M heap unit :=
  dict_delitem (Grp self) sprite.

(** Method calls [x.add_internal(y)] and [x.remove_internal(y)] are
    dispatched on the class of [x]. *)
Definition add_internal (x y : obj) : M heap unit :=
  match x with
  | Spr i => Sprite_add_internal i y
  | Grp i => Group_add_internal i y
  end.

Definition remove_internal (x y : obj) : M heap unit :=
  match x with
  | Spr i => Sprite_remove_internal i y
  | Grp i => Group_remove_internal i y
  end.

(** *** class Sprite *)

(** [Sprite.add] (lines 116-131). *)
Definition Sprite_add (self : nat) (group : value) : M heap unit :=
  let has := dict_has_key (Spr self) in
  match hasattr__spritegroup group with
  | Some group =>
      b <~ has group ;;
      if negb b then
        add_internal group (Spr self) ;;;
        dict_setitem (Spr self) group 0
      else ret tt
  | None =>
      groups <~ iterate group ;;
      for_each groups (fun group =>
        b <~ has group ;;
        if negb b then
          add_internal group (Spr self) ;;;
          dict_setitem (Spr self) group 0
        else ret tt)
  end.

(** [Sprite.remove] (lines 133-147).  The name [g] is a local variable of
    the function, bound only by the [for] statement of the [else] branch;
    line 142 reads it in the other branch. *)
Definition Sprite_remove (self : nat) (group : value) : M heap unit :=
  let has := dict_has_key (Spr self) in
  let g : option obj := None in
  match hasattr__spritegroup group with
  | Some group =>
      b <~ has group ;;
      if b then
        remove_internal group (Spr self) ;;;
        g <~ read_local g ;;
        dict_delitem (Spr self) g
      else ret tt
  | None =>
      gs <~ iterate group ;;
      for_each gs (fun g =>
        b <~ has g ;;
        if b then
          remove_internal g (Spr self) ;;;
          dict_delitem (Spr self) g
        else ret tt)
  end.

(** [Sprite.kill] (lines 155-165). *)
Definition Sprite_kill (self : nat) : M heap unit :=
  cs <~ dict_keys (Spr self) ;;
  for_each cs (fun c => remove_internal c (Spr self)) ;;;
  dict_clear (Spr self).

(** [Sprite.groups] (line 173) and [Sprite.alive] (line 179). *)
Definition Sprite_groups (self : nat) : M heap (list obj) :=
  dict_keys (Spr self).

Definition Sprite_alive (self : nat) : M heap nat :=
  dict_len (Spr self).

(** [Sprite.__init__] (lines 107-114). *)
Definition Sprite___init__ (self : nat) (group : value) : M heap unit :=
  dict_clear (Spr self) ;;;
  Sprite_add self group.

(** *** class Group *)

(** [Group.loop] (line 215) and [Group.__len__] (line 294). *)
Definition Group_loop (self : nat) : M heap (list obj) :=
  dict_keys (Grp self).

Definition Group___len__ (self : nat) : M heap nat :=
  dict_len (Grp self).

(** [Group.add] (lines 216-231). *)
Definition Group_add (self : nat) (sprite : value) : M heap unit :=
  let has := dict_has_key (Grp self) in
  match hasattr__spritegroup sprite with
  | Some sprite =>
      b <~ has sprite ;;
      if negb b then
        Group_add_internal self sprite ;;;
        add_internal sprite (Grp self)
      else ret tt
  | None =>
      sprites <~ iterate sprite ;;
      for_each sprites (fun sprite =>
        b <~ has sprite ;;
        if negb b then
          dict_setitem (Grp self) sprite 0 ;;;
          add_internal sprite (Grp self)
        else ret tt)
  end.

(** [Group.remove] (lines 233-248).  The name [sprites] is a local
    variable, assigned at line 244 only; line 239 reads it first. *)
Definition Group_remove (self : nat) (sprite : value) : M heap unit :=
  let has := dict_has_key (Grp self) in
  let sprites : option value := None in
  sprites0 <~ read_local sprites ;;
  match hasattr__spritegroup sprites0 with
  | Some _ =>
      match sprite with
      | VObj sprite =>
          b <~ has sprite ;;
          if b then
            Group_remove_internal self sprite ;;;
            remove_internal sprite (Grp self)
          else ret tt
      | VSeq _ => raise TypeError   (* a list is unhashable *)
      end
  | None =>
      sprites <~ iterate sprite ;;
      for_each sprites (fun sprite =>
        b <~ has sprite ;;
        if b then
          Group_remove_internal self sprite ;;;
          remove_internal sprite (Grp self)
        else ret tt)
  end.

(** [Group.has] (lines 255-268).  Same unbound local at line 262.  At
    line 263, [sprite in has(sprite)] applies [in] to a boolean, which is
    a TypeError. *)
Definition Group_has (self : nat) (sprite : value) : M heap Z :=
  let has := dict_has_key (Grp self) in
  let sprites : option value := None in
  sprites0 <~ read_local sprites ;;
  match hasattr__spritegroup sprites0 with
  | Some _ =>
      match sprite with
      | VObj sprite => _ <~ has sprite ;; raise TypeError
      | VSeq _ => raise TypeError
      end
  | None =>
      sprites <~ iterate sprite ;;
      (fix loop (l : list obj) : M heap Z :=
         match l with
         | [] => ret 1
         | sprite :: l' =>
             b <~ has sprite ;;
             if negb b then ret 0 else loop l'
         end) sprites
  end.

(** [Group.empty] (lines 270-278). *)
Definition Group_empty (self : nat) : M heap unit :=
  ss <~ dict_keys (Grp self) ;;
  for_each ss (fun s =>
    Group_remove_internal self s ;;;
    remove_internal s (Grp self)) ;;;
  dict_clear (Grp self).

(** [Group.__init__] (lines 190-198).  [if sprite:] is false for an
    empty sequence; a Sprite defines neither [__nonzero__] nor [__len__]
    and is true, a Group is true when [len(spritedict)] is not 0. *)
Definition truth_value (v : value) : M heap bool :=
  match v with
  | VSeq l => ret (negb (bool_decide (l = [])))
  | VObj (Spr _) => ret true
  | VObj (Grp i) => n <~ dict_len (Grp i) ;; ret (negb (Nat.eqb n 0))
  end.

Definition Group___init__ (self : nat) (sprite : value) : M heap unit :=
  dict_clear (Grp self) ;;;
  b <~ truth_value sprite ;;
  if b then Group_add self sprite else ret tt.

(** *** spritecollide (lines 468-485) *)

Section Collide.

(** [pygame.rect.Rect] is not part of the sources at hand: the type of
    rectangles and its [colliderect] method are parameters.  [rect_of]
    is the [rect] attribute that the user gives an object; the functions
    of this module never assign it.  [None] stands for "no such
    attribute". *)
Context {Rect : Type}.
Variable rect_of : obj -> option Rect.
Variable colliderect : Rect -> Rect -> bool.

(** [x.rect] *)
Definition getattr_rect (x : obj) : M heap Rect :=
  match rect_of x with
  | Some r => ret r
  | None => raise AttributeError
  end.

(** [s.kill()] : class Group has no method [kill]. *)
Definition kill (s : obj) : M heap unit :=
  match s with
  | Spr i => Sprite_kill i
  | Grp _ => raise AttributeError
  end.

(** [group.loop()] : class Sprite has no method [loop]. *)
Definition loop (group : obj) : M heap (list obj) :=
  match group with
  | Grp i => Group_loop i
  | Spr _ => raise AttributeError
  end.

(** The body of the [for] statement, with the list [crashed] threaded
    through. *)
Fixpoint collide_loop (r : Rect) (dokill : bool) (ss : list obj)
         (crashed : list obj) : M heap (list obj) :=
  match ss with
  | [] => ret crashed
  | s :: ss' =>
      rs <~ getattr_rect s ;;
      if colliderect r rs then
        (if dokill then kill s else ret tt) ;;;
        collide_loop r dokill ss' (crashed ++ [s])
      else collide_loop r dokill ss' crashed
  end.

Definition spritecollide (sprite group : obj) (dokill : bool)
  : M heap (list obj) :=
  r <~ getattr_rect sprite ;;
  ss <~ loop group ;;
  collide_loop r dokill ss [].

(** [s] has a rect, and it intersects [r]. *)
Definition collides (r : Rect) (s : obj) : bool :=
  match rect_of s with
  | Some rs => colliderect r rs
  | None => false
  end.

(** What the docstring asks of the members of the group: they are
    sprites ("will be removed from all groups" calls [kill]) and "all
    sprites must have a rect". *)
Definition sprite_with_rect (s : obj) : Prop :=
  (exists i, s = Spr i) /\ is_Some (rect_of s).

#[global] Instance sprite_with_rect_dec s : Decision (sprite_with_rect s).
Proof.
  unfold sprite_with_rect.
  destruct s as [i|i].
  - destruct (rect_of (Spr i)) as [r|].
    + left. split; eauto.
    + right. intros [_ [? ?]]; discriminate.
  - right. intros [[? ?] _]; discriminate.
Defined.

End Collide.

(** *** Invariants of the store *)

(** [s] is a key of [g.spritedict] exactly when [g] is a key of [s.__g]. *)
Definition membership_invariant (h : heap) : Prop :=
  forall s g : nat,
    is_Some (h (Grp g) !! Spr s) <-> is_Some (h (Spr s) !! Grp g).

(** The same for any two objects: the dictionaries form a symmetric
    relation. *)
Definition mutual (h : heap) : Prop :=
  forall x y : obj, is_Some (h x !! y) <-> is_Some (h y !! x).

(** [s] is a member of [g], seen from both sides. *)
Definition member (h : heap) (s g : nat) : Prop :=
  is_Some (h (Grp g) !! Spr s) /\ is_Some (h (Spr s) !! Grp g).

(** The store after a call, whatever the outcome. *)
Definition after {A : Type} (m : M heap A) (h : heap) : heap := (m h).2.

(** The calls that add: [s.add(v)] and [g.add(v)]. *)
Inductive add_call : Type :=
| CallSpriteAdd (s : nat) (v : value)
| CallGroupAdd (g : nat) (v : value).

Definition run_add (c : add_call) : M heap unit :=
  match c with
  | CallSpriteAdd s v => Sprite_add s v
  | CallGroupAdd g v => Group_add g v
  end.

(** A program that performs the calls one after the other, going on
    after a call that raised (each call in its own [try]). *)
Fixpoint run_adds (cs : list add_call) (h : heap) : heap :=
  match cs with
  | [] => h
  | c :: cs' => run_adds cs' (after (run_add c) h)
  end.

(** *** Vocabulary of the statements *)

(** A property of the store kept by a call in both outcomes. *)
Definition preserves {A : Type} (P : heap -> Prop) (m : M heap A) : Prop :=
  forall h, P h -> P (after m h).

(** What [kill] has done to the sprites of [K] between [h] and [h']. *)
Definition killed (h h' : heap) (K : list obj) : Prop :=
  (forall s, s ∈ K -> h' s = ∅) /\
  (forall c s, s ∈ K -> h' c !! s = None) /\
  (forall x y, x ∉ K -> y ∉ K -> h' x !! y = h x !! y).

(** The loop of [add]: [step b] links [a] and [b]. *)
Definition add_loop (a : obj) (step : obj -> M heap unit) (l : list obj)
  : M heap unit :=
  for_each l (fun b =>
    c <~ dict_has_key a b ;;
    if negb c then step b else ret tt).

(** What both [add] methods do to link two objects: it returns, the key
    is there afterwards, and no key is lost. *)
Definition links (a : obj) (step : obj -> M heap unit) : Prop :=
  forall b h, exists h1,
    step b h = (Ok tt, h1) /\
    is_Some (h1 a !! b) /\
    (forall o k, is_Some (h o !! k) -> is_Some (h1 o !! k)).

(** *** A small scene

    [g = Group(); s = Sprite(g)], then two more sprites put in a second
    group with [Group([s1, s2])]; rectangles are (x, y, w, h). *)

Definition scene0 : heap :=
  after (Sprite___init__ 0 (VObj (Grp 0)))
        (after (Group___init__ 0 (VSeq [])) empty_heap).

Definition scene1 : heap :=
  after (Group___init__ 1 (VSeq [Spr 1; Spr 2])) scene0.

(** The scene after [s1.add(g); s1.remove(g)] with the first group
    [g]: the second call raises at line 142, and [s1] is left listing
    [g], which no longer holds it. *)
Definition scene_torn : heap :=
  after (Sprite_remove 1 (VObj (Grp 0)))
        (after (Sprite_add 1 (VObj (Grp 0))) scene1).

(** The scene after [s3.add(g1)], for a further sprite [s3] that has
    no [rect]. *)
Definition scene_crowd : heap :=
  after (Sprite_add 3 (VObj (Grp 1))) scene1.

Definition scene_rect (o : obj) : option (Z * Z * Z * Z) :=
  match o with
  | Spr 0 => Some (0, 0, 10, 10)
  | Spr 1 => Some (5, 5, 10, 10)
  | Spr 2 => Some (100, 100, 1, 1)
  | _ => None
  end.

(** An overlap test on (x, y, w, h) rectangles, standing in for
    [Rect.colliderect] in the scene. *)
Definition overlap (a b : Z * Z * Z * Z) : bool :=
  let '(ax, ay, aw, ah) := a in
  let '(bx, by_, bw, bh) := b in
  (ax <? bx + bw) && (bx <? ax + aw) && (ay <? by_ + bh) && (by_ <? ay + ah).

End Sprite.


(** ** pygame/surfarray.py *)

Module Surfarray.

(** Python 2 [str] values holding raw bytes. *)
Abbreviation bytes := (list Byte.byte).

Definition NUL : Byte.byte := Byte.x00.

(** *** The pieces of the string and [re] libraries that the module uses *)

(** ['.' * n] has [n] characters, none when [n] is negative. *)
Definition dots (n : Z) : nat := Z.to_nat n.

(** [re.compile('.' * n, flags=re.DOTALL).findall(s)]: the successive
    non-overlapping matches, scanning from the left.  With DOTALL a dot
    matches any character, so a match is the next [n] characters, as long
    as [n] characters are left. *)
Fixpoint findall_from (fuel n : nat) (s : bytes) : list bytes :=
  match fuel with
  | O => []
  | S fuel' =>
      if (length s <? n)%nat then []
      else take n s :: findall_from fuel' n (drop n s)
  end.

(** The empty pattern matches the empty string at every position,
    including the end of the string. *)
Definition findall (n : nat) (s : bytes) : list bytes :=
  match n with
  | O => replicate (S (length s)) []
  | S _ => findall_from (S (length s)) n s
  end.

(** A pattern with one group, [pre] dots, then ([keep] dots), then
    [post] dots: [findall] returns the text of the group of each match. *)
Definition findall_group (pre keep post : nat) (s : bytes) : list bytes :=
  (fun m => take keep (drop pre m)) <$> findall (pre + keep + post) s.

(** [sep.join(l)] *)
Fixpoint join (sep : bytes) (l : list bytes) : bytes :=
  match l with
  | [] => []
  | [x] => x
  | x :: l' => x ++ sep ++ join sep l'
  end.

(** *** Surfaces and arrays *)

(** The fields of [SDL_Surface] that the module reads; [pixels] is what
    [surf.pixels.to_string()] returns while the surface is locked. *)
Record SDL_Surface : Type := {
  w : Z;
  h : Z;
  pitch : Z;
  BytesPerPixel : Z;     (* surf.format.BytesPerPixel *)
  pixels : bytes
}.

(** The global [_array]: the array module in use, if any.
    [set_array_module] accepts any module; of a module other than the
    three, the model keeps its [__name__] and the names of its
    attributes. *)
Inductive array_module : Type :=
| numpy
| numarray
| Numeric
| other_module (name : string) (attrs : list string).

(** Element types of the array library. *)
Inductive typecode : Type :=
| UInt8
| UInt16
| UInt32
| other_type (size : Z).

Definition itemsize (t : typecode) : Z :=
  match t with
  | UInt8 => 1
  | UInt16 => 2
  | UInt32 => 4
  | other_type n => n
  end.

(** An array object of the array library, by what this module gives it
    and asks of it: the string its data was made from, its element type,
    its shape and the strides assigned to it. *)
Record ndarray : Type := {
  ar_data : bytes;
  ar_type : typecode;
  ar_shape : list Z;
  ar_strides : list Z
}.

(** Whether [_array.UInt8] and the like can be read: numpy, numarray and
    Numeric are taken to have the three type names; another module has
    the attributes it has. *)
Definition has_type (m : array_module) (name : string) : bool :=
  match m with
  | other_module _ attrs => bool_decide (name ∈ attrs)
  | _ => true
  end.

(** [_check_array] (lines 95-99). *)
Definition _check_array (_array : option array_module) : res unit :=
  match _array with
  | Some _ => Ok tt
  | None => Raise ImportError
  end.

Section Conversion.

(** The module global [_array], and whether
    [SDL_BYTEORDER == SDL_LIL_ENDIAN]; both constants come from
    [SDL.constants], which is not among the sources. *)
Variable _array : option array_module.
Variable lil_endian : bool.

(** Lines 129-134, "Remove extra pitch from each row". *)
Definition remove_pitch (surf : SDL_Surface) (bpp : Z) (data : bytes) : bytes :=
  let pitchdiff := pitch surf - w surf * bpp in
  if pitchdiff >? 0 then
    concat (findall_group 0 (dots (w surf) * dots bpp) (dots pitchdiff) data)
  else data.

(** Lines 141-147, "Pad each triplet of bytes with another zero". *)
Definition pad_triplets (data : bytes) : bytes :=
  let data := join [NUL] (findall 3 data) in
  if lil_endian then data ++ [NUL] else [NUL] ++ data.

(** [array2d] (lines 101-171). *)
Definition array2d (surf : SDL_Surface) : res ndarray :=
  match _check_array _array with
  | Raise e => Raise e
  | Ok _ =>
  let bpp := BytesPerPixel surf in
  if (bpp <=? 0) || (bpp >? 4) then Raise ValueError else
  let data := pixels surf in
  let data := remove_pitch surf bpp data in
  (* lines 136-150: the type name that is read from the module *)
  let type_name :=
    if bpp =? 1 then "UInt8"%string
    else if bpp =? 2 then "UInt16"%string
    else "UInt32"%string in
  if negb (match _array with
           | Some m => has_type m type_name
           | None => true
           end)
  then Raise AttributeError else
  let '(t, data, bpp) :=
    if bpp =? 1 then (Some UInt8, data, bpp)
    else if bpp =? 2 then (Some UInt16, data, bpp)
    else if bpp =? 3 then (Some UInt32, pad_triplets data, 4)
    else if bpp =? 4 then (Some UInt32, data, bpp)
    else (None, data, bpp) in
  let shape := [w surf; h surf] in
  let fake_strides := [bpp; bpp * w surf] in
  if negb (Z.of_nat (length data) =? bpp * w surf * h surf)
  then Raise AssertionError else
  match _array, t with
  | Some (numpy | numarray | Numeric), Some t =>
      Ok {| ar_data := data; ar_type := t;
            ar_shape := shape; ar_strides := fake_strides |}
  | _, _ => Raise UnboundLocalError   (* [ar] was never bound *)
  end
  end.

(** [array.tostring()] is a method of the array library. *)
Variable tostring : ndarray -> bytes.

(** [memmove(dst, src, n)] over the pixel buffer: the first [n] bytes of
    the buffer are replaced.  When [n] exceeds the length of the buffer
    the copy runs past its end; the result then shows the bytes written
    there as well. *)
Definition memmove (dst src : bytes) (n : nat) : bytes :=
  take n src ++ drop n dst.

(** Lines 371-388: bring every pixel of [itemsize] bytes to [bpp]
    bytes. *)
Definition resize_pixels (itemsize bpp : Z) (data : bytes) : bytes :=
  if itemsize >? bpp then
    (* Trim bytes from each pixel, keep least significant byte(s) *)
    if lil_endian
    then concat (findall_group 0 (dots bpp) (dots (itemsize - bpp)) data)
    else concat (findall_group (dots (itemsize - bpp)) (dots bpp) 0 data)
  else if itemsize <? bpp then
    (* Add pad bytes to each pixel, at most significant end *)
    let pad := replicate (dots (bpp - itemsize)) NUL in
    let pixels := findall (dots itemsize) data in
    let data := join pad pixels in
    if lil_endian then data ++ pad else pad ++ data
  else data.

(** Lines 390-396, "Add zeros pad for pitch correction". *)
Definition add_pitch (surf : SDL_Surface) (bpp : Z) (data : bytes) : bytes :=
  let pitchdiff := pitch surf - w surf * bpp in
  if pitchdiff >? 0 then
    let pad := replicate (dots pitchdiff) NUL in
    let rows := findall (dots (w surf) * dots bpp) data in
    join pad rows ++ pad
  else data.

(** [blit_array] (lines 298-401).  The result is the outcome together
    with the pixel buffer of the surface after the call. *)
Definition blit_array (surf : SDL_Surface) (array : ndarray)
  : res unit * bytes :=
  match _check_array _array with
  | Raise e => (Raise e, pixels surf)
  | Ok _ =>
  let bpp := BytesPerPixel surf in
  let shape := ar_shape array in
  if negb ((length shape =? 2)%nat ||
           ((length shape =? 3)%nat && (nth 2 shape 0 =? 3)))
  then (Raise ValueError, pixels surf)
  else if (length shape =? 3)%nat
  then (Raise NotImplementedError, pixels surf)
  else if (bpp <=? 0) || (bpp >? 4)
  then (Raise ValueError, pixels surf)
  else if negb (w surf =? nth 0 shape 0) || negb (h surf =? nth 1 shape 0)
  then (Raise ValueError, pixels surf)
  else
  let strides := ar_strides array in      (* only printed *)
  let data := tostring array in
  let itemsize := itemsize (ar_type array) in
  let data := resize_pixels itemsize bpp data in
  let data := add_pitch surf bpp data in
  (Ok tt, memmove (pixels surf) data (length data))
  end.

End Conversion.

(** *** Layout of a surface, in the words of the documentation *)

(** A surface as SDL lays it out: [h] rows of [pitch] bytes, each row
    beginning with its [w] pixels of [BytesPerPixel] bytes. *)
Definition wf_surface (surf : SDL_Surface) : Prop :=
  0 <= w surf /\ 0 <= h surf /\
  w surf * BytesPerPixel surf <= pitch surf /\
  Z.of_nat (length (pixels surf)) = pitch surf * h surf.

(** Row [y] without its padding. *)
Definition row (surf : SDL_Surface) (y : nat) : bytes :=
  take (Z.to_nat (w surf * BytesPerPixel surf))
       (drop (y * Z.to_nat (pitch surf)) (pixels surf)).

(** The pixel bytes of the surface: its rows without padding. *)
Definition pixel_bytes (surf : SDL_Surface) : bytes :=
  concat (row surf <$> seq 0 (Z.to_nat (h surf))).

(** The surface with another pixel buffer. *)
Definition with_pixels (surf : SDL_Surface) (buf : bytes) : SDL_Surface :=
  {| w := w surf; h := h surf; pitch := pitch surf;
     BytesPerPixel := BytesPerPixel surf; pixels := buf |}.

(** The pixel buffer of the surface with the padding of every row set to
    zero bytes. *)
Definition repadded (surf : SDL_Surface) : bytes :=
  concat ((fun y => row surf y ++
                    replicate (Z.to_nat (pitch surf - w surf * BytesPerPixel surf))
                              NUL)
            <$> seq 0 (Z.to_nat (h surf))).

(** Pixel [i] of a packed string of [n]-byte pixels. *)
Definition pixel (n : nat) (data : bytes) (i : nat) : bytes :=
  take n (drop (i * n) data).

(** A 3-byte pixel widened to 4 bytes by a zero most significant byte. *)
Definition widen (lil_endian : bool) (px : bytes) : bytes :=
  if lil_endian then px ++ [NUL] else NUL :: px.

(** The bytes of the 2D array of a surface: the pixel bytes, with each
    pixel of a 3-byte format widened. *)
Definition array_bytes (lil_endian : bool) (surf : SDL_Surface) : bytes :=
  if BytesPerPixel surf =? 3 then
    concat ((fun i => widen lil_endian (pixel 3 (pixel_bytes surf) i))
              <$> seq 0 (Z.to_nat (w surf * h surf)))
  else pixel_bytes surf.

(** Bytes per element of the 2D array. *)
Definition array_bpp (surf : SDL_Surface) : Z :=
  if BytesPerPixel surf =? 3 then 4 else BytesPerPixel surf.

(** *** Two behaviours of [array.tostring()]

    [tostring] belongs to the array library.  numpy documents it as
    returning the elements in C order: listed in index order, last index
    fastest, each element read at the offset that the strides give
    ([tostring_strided]).  A library that pays no attention to strides
    assigned behind its back returns the string the array was made from
    ([tostring_stored]). *)

Definition tostring_stored (a : ndarray) : bytes := ar_data a.

Fixpoint elements_in_index_order (a : ndarray) (shape strides : list Z)
         (offset : Z) : bytes :=
  match shape, strides with
  | n :: shape', s :: strides' =>
      concat ((fun i => elements_in_index_order a shape' strides'
                          (offset + Z.of_nat i * s))
                <$> seq 0 (Z.to_nat n))
  | _, _ =>
      take (Z.to_nat (itemsize (ar_type a))) (drop (Z.to_nat offset) (ar_data a))
  end.

Definition tostring_strided (a : ndarray) : bytes :=
  elements_in_index_order a (ar_shape a) (ar_strides a) 0.

(** *** Sample surfaces *)

(** A 24-bit surface 2 pixels wide and 0 pixels high. *)
Definition empty_rgb_surface : SDL_Surface :=
  {| w := 2; h := 0; pitch := 8; BytesPerPixel := 3; pixels := [] |}.

(** A 24-bit surface of 1x2 pixels, rows padded to 4 bytes. *)
Definition rgb_surface : SDL_Surface :=
  {| w := 1; h := 2; pitch := 4; BytesPerPixel := 3;
     pixels := [Byte.x01; Byte.x02; Byte.x03; Byte.xff;
                Byte.x04; Byte.x05; Byte.x06; Byte.xff] |}.

(** An 8-bit surface of 2x2 pixels without padding. *)
Definition gray_surface : SDL_Surface :=
  {| w := 2; h := 2; pitch := 2; BytesPerPixel := 1;
     pixels := [Byte.x01; Byte.x02; Byte.x03; Byte.x04] |}.

(** An 8-bit surface 1 pixel wide and 0 pixels high; SDL pads a row to
    4 bytes. *)
Definition empty_gray_surface : SDL_Surface :=
  {| w := 1; h := 0; pitch := 4; BytesPerPixel := 1; pixels := [] |}.

(** An 8-bit surface of one pixel whose row padding is not zero. *)
Definition padded_gray_surface : SDL_Surface :=
  {| w := 1; h := 1; pitch := 4; BytesPerPixel := 1;
     pixels := [Byte.x01; Byte.xff; Byte.xff; Byte.xff] |}.

(** An 8-bit surface of 3x1 pixels, the row padded to 4 bytes. *)
Definition padded_row_surface : SDL_Surface :=
  {| w := 3; h := 1; pitch := 4; BytesPerPixel := 1;
     pixels := [Byte.x01; Byte.x02; Byte.x03; Byte.xff] |}.

(** A 16-bit surface of 2x2 pixels, rows padded to 8 bytes. *)
Definition padded_hicolor_surface : SDL_Surface :=
  {| w := 2; h := 2; pitch := 8; BytesPerPixel := 2;
     pixels := [Byte.x01; Byte.x02; Byte.x03; Byte.x04;
                Byte.xff; Byte.xff; Byte.xff; Byte.xff;
                Byte.x05; Byte.x06; Byte.x07; Byte.x08;
                Byte.xff; Byte.xff; Byte.xff; Byte.xff] |}.

(** A surface whose format reports 0 bytes per pixel. *)
Definition depthless_surface : SDL_Surface :=
  {| w := 2; h := 2; pitch := 0; BytesPerPixel := 0; pixels := [] |}.

Definition array_of_shape (shape : list Z) : ndarray :=
  {| ar_data := []; ar_type := UInt8; ar_shape := shape; ar_strides := [] |}.

End Surfarray.

(** ** lib/UserRect.py *)

Module UserRect.

Local Open Scope string_scope.

(** [pygame.rect.Rect] is not among the sources.  A Rect object is
    modelled by what [UserRect] asks of it: the names that [dir(rect)]
    lists, and the value its own truth test returns. *)
Record Rect : Type := {
  rect_dir : list string;
  rect_truth : bool
}.

(** Python values that end up in the instance dictionary: the Rect
    itself, or [getattr(v, name)], the attribute [name] bound to [v]. *)
Inductive pyval : Type :=
| VRect (r : Rect)
| VAttr (owner : pyval) (name : string).

(** An instance of the classic class [UserRect]: its [__dict__]. *)
Record instance : Type := { inst_dict : gmap string pyval }.

(** The names bound at the top level of UserRect.py: the import of line
    23, the class of line 25 and what every module has. *)
Definition module_globals : list string :=
  ["__builtins__"; "__doc__"; "__file__"; "__name__"; "Rect"; "UserRect"].

(** The names of Python 2's [__builtin__] module: functions and types,
    constants, exceptions. *)
Definition builtins : list string :=
  ["abs"; "all"; "any"; "apply"; "basestring"; "bin"; "bool"; "buffer";
   "bytearray"; "bytes"; "callable"; "chr"; "classmethod"; "cmp"; "coerce";
   "compile"; "complex"; "copyright"; "credits"; "delattr"; "dict"; "dir";
   "divmod"; "enumerate"; "eval"; "execfile"; "exit"; "file"; "filter";
   "float"; "format"; "frozenset"; "getattr"; "globals"; "hasattr"; "hash";
   "help"; "hex"; "id"; "input"; "int"; "intern"; "isinstance";
   "issubclass"; "iter"; "len"; "license"; "list"; "locals"; "long"; "map";
   "max"; "memoryview"; "min"; "next"; "object"; "oct"; "open"; "ord";
   "pow"; "print"; "property"; "quit"; "range"; "raw_input"; "reduce";
   "reload"; "repr"; "reversed"; "round"; "set"; "setattr"; "slice";
   "sorted"; "staticmethod"; "str"; "sum"; "super"; "tuple"; "type";
   "unichr"; "unicode"; "vars"; "xrange"; "zip"; "__import__";
   "True"; "False"; "None"; "NotImplemented"; "Ellipsis"; "__debug__";
   "ArithmeticError"; "AssertionError"; "AttributeError"; "BaseException";
   "DeprecationWarning"; "EOFError"; "EnvironmentError"; "Exception";
   "FloatingPointError"; "FutureWarning"; "GeneratorExit"; "IOError";
   "ImportError"; "IndentationError"; "IndexError"; "KeyError";
   "KeyboardInterrupt"; "LookupError"; "MemoryError"; "NameError";
   "NotImplementedError"; "OSError"; "OverflowError";
   "PendingDeprecationWarning"; "ReferenceError"; "RuntimeError";
   "RuntimeWarning"; "StandardError"; "StopIteration"; "SyntaxError";
   "SyntaxWarning"; "SystemError"; "SystemExit"; "TabError"; "TypeError";
   "UnboundLocalError"; "UnicodeDecodeError"; "UnicodeEncodeError";
   "UnicodeError"; "UnicodeTranslateError"; "UnicodeWarning";
   "UserWarning"; "ValueError"; "Warning"; "ZeroDivisionError"].

(** Reading a name that is not local in a function body: the module
    globals, then the builtins, else NameError. *)
Definition load_global (name : string) : res string :=
  if bool_decide (name ∈ module_globals) then Ok name
  else if bool_decide (name ∈ builtins) then Ok name
  else Raise NameError.

(** Calling a value with no further argument.  Only the bound
    [__nonzero__] of a Rect is given a meaning: it returns the truth
    value of the Rect. *)
Definition call (f : pyval) : res bool :=
  match f with
  | VAttr (VRect r) "__nonzero__" => Ok (rect_truth r)
  | _ => Raise TypeError
  end.

(** The truth value of a value passed to a builtin; only [bool(rect)] is
    given a meaning. *)
Definition call_global (f : string) (arg : option pyval) : res bool :=
  match f, arg with
  | "bool", Some (VRect r) => Ok (rect_truth r)
  | _, _ => Raise TypeError
  end.

(** [UserRect.__init__] (lines 27-32), given the outcome of
    the call of [Rect] at line 28.  The loop copies every attribute that [dir] lists
    into the instance dictionary, reading [self.rect] anew each time. *)
Definition UserRect___init__ (new_rect : res Rect) : res instance :=
  match new_rect with
  | Raise TypeError => Raise TypeError
  | Raise e => Raise e
  | Ok rect =>
      let d0 : gmap string pyval := <["rect" := VRect rect]> ∅ in
      Ok {| inst_dict :=
              foldl (fun (d : gmap string pyval) a =>
                       match d !! "rect" with
                       | Some self_rect => <[a := VAttr self_rect a]> d
                       | None => d
                       end)
                    d0 (rect_dir rect) |}
  end.

(** [UserRect.__nonzero__] (line 47): [return nonzero(self.rect)]. *)
Definition UserRect___nonzero__ (self : instance) : res bool :=
  match load_global "nonzero" with
  | Raise e => Raise e
  | Ok nonzero => call_global nonzero (inst_dict self !! "rect")
  end.

(** Truth-testing an instance of a classic class: [__nonzero__] is looked
    up as an attribute of the instance, first in the instance dictionary
    and then in the class, and called. *)
Definition truth (self : instance) : res bool :=
  match inst_dict self !! "__nonzero__" with
  | Some f => call f
  | None => UserRect___nonzero__ self
  end.

(** Two Rect implementations: one whose [dir] lists a [__nonzero__]
    method, one whose [dir] lists data attributes only. *)
Definition rect_with_nonzero : Rect :=
  {| rect_dir := ["__nonzero__"; "colliderect"; "h"; "w"; "x"; "y"];
     rect_truth := true |}.

Definition rect_without_nonzero : Rect :=
  {| rect_dir := ["colliderect"; "h"; "w"; "x"; "y"];
     rect_truth := true |}.

End UserRect.

(** ** lib/sprite.py, continued: Group.copy and groupcollide *)

Module SpriteMore.
Import Sprite.

(** The objects that [add] and [remove] go through for an argument: the
    group itself for a single group, the items for a sequence.  A single
    Sprite has no [_spritegroup] attribute and cannot be iterated. *)
Definition targets (v : value) : option (list obj) :=
  match v with
  | VObj (Grp i) => Some [Grp i]
  | VObj (Spr _) => None
  | VSeq l => Some l
  end.

(** [x] and [y] are the two ends of a link between [a] and an item of
    [l]. *)
Definition between (a : obj) (l : list obj) (x y : obj) : Prop :=
  (x = a /\ y ∈ l) \/ (x ∈ l /\ y = a).

#[global] Instance between_dec a l x y : Decision (between a l x y).
Proof. unfold between. apply _. Defined.

(** The object that receives an [add] call, and the argument. *)
Definition receiver (c : add_call) : obj :=
  match c with
  | CallSpriteAdd s _ => Spr s
  | CallGroupAdd g _ => Grp g
  end.

Definition argument (c : add_call) : value :=
  match c with
  | CallSpriteAdd _ v => v
  | CallGroupAdd _ v => v
  end.

(** No dictionary has [o] as a key: the object was just created. *)
Definition unknown (h : heap) (o : obj) : Prop :=
  forall x, h x !! o = None.

(** Two stores with the same dictionaries. *)
Definition same_dicts (h h' : heap) : Prop :=
  forall x, h' x = h x.

(** What the two statements that link [a] and [b] do, in either order:
    they return, and the two entries are there with the value 0. *)
Definition links_exactly (a : obj) (step : obj -> M heap unit) : Prop :=
  forall b h, exists h1,
    step b h = (Ok tt, h1) /\
    forall x y, h1 x !! y =
      if decide ((x = a /\ y = b) \/ (x = b /\ y = a)) then Some 0
      else h x !! y.

(** [Group.copy] (lines 200-206): [self.__class__(self.spritedict.keys())].
    The instance that the class call creates is named by [new], an
    identity that is not in use. *)
Definition Group_copy (self new : nat) : M heap unit :=
  ks <~ dict_keys (Grp self) ;;
  Group___init__ new (VSeq ks).

Section Collide.

Context {Rect : Type}.
Variable rect_of : obj -> option Rect.
Variable colliderect : Rect -> Rect -> bool.

(** The body of the [for] statement of [groupcollide], with the
    dictionary [crashed] threaded through.  [if c:] is true for a list
    that is not empty. *)
Fixpoint groupcollide_loop (groupb : obj) (dokilla dokillb : bool)
         (ss : list obj) (crashed : gmap obj (list obj))
  : M heap (gmap obj (list obj)) :=
  match ss with
  | [] => ret crashed
  | s :: ss' =>
      c <~ spritecollide rect_of colliderect s groupb dokillb ;;
      if negb (bool_decide (c = [])) then
        let crashed := <[s := c]> crashed in
        (if dokilla then kill s else ret tt) ;;;
        groupcollide_loop groupb dokilla dokillb ss' crashed
      else groupcollide_loop groupb dokilla dokillb ss' crashed
  end.

(** [groupcollide] (lines 488-507). *)
Definition groupcollide (groupa groupb : obj) (dokilla dokillb : bool)
  : M heap (gmap obj (list obj)) :=
  ss <~ loop groupa ;;
  groupcollide_loop groupb dokilla dokillb ss ∅.

(** The members of [g] that collide with [s]. *)
Definition collisions (h : heap) (g : nat) (s : obj) : list obj :=
  match rect_of s with
  | Some r => filter (fun x => collides rect_of colliderect r x) (keys (h (Grp g)))
  | None => []
  end.

End Collide.

End SpriteMore.

(** ** pygame/surfarray.py, continued: the choice of the array module,
       and what [blit_array] writes *)

Module SurfarrayMore.
Import Surfarray.

(** The module object that [__import__(name, ...)] returns, by its
    [__name__].  The loop of [set_array_module] imports the three names
    only; of a module of another name nothing but the name is known. *)
Definition module_named (name : string) : array_module :=
  if String.eqb name "numpy" then numpy
  else if String.eqb name "numarray" then numarray
  else if String.eqb name "Numeric" then Numeric
  else other_module name [].

Section ArrayModule.

(** Which modules the Python installation can import.  The store of the
    functions below is the module global [_array]. *)
Variable importable : string -> bool.

(** [__import__(name, locals(), globals(), [])] *)
Definition __import__ (name : string) : M (option array_module) array_module :=
  if importable name then ret (module_named name) else raise ImportError.

(** [try: body] / [except ImportError: pass] *)
Definition except_ImportError_pass (body : M (option array_module) unit)
  : M (option array_module) unit :=
  fun _array =>
    match body _array with
    | (Raise ImportError, _array') => (Ok tt, _array')
    | r => r
    end.

(** Line 83, [_array = module]. *)
Definition assign__array (module : array_module)
  : M (option array_module) unit :=
  fun _ => (Ok tt, Some module).

(** The [for] statement of lines 77-81 over a tuple of names.  The call
    of line 79 passes a module object, which is true, so it runs line
    83. *)
Definition try_modules (names : list string) : M (option array_module) unit :=
  for_each names (fun name =>
    except_ImportError_pass (
      module <~ __import__ name ;;
      assign__array module)).

(** [set_array_module] (lines 62-83); [None] is the default argument. *)
Definition set_array_module (module : option array_module)
  : M (option array_module) unit :=
  match module with
  | None => try_modules ["numpy"; "numarray"; "Numeric"]%string
  | Some module => assign__array module
  end.

(** [get_array_module] (lines 85-93). *)
Definition get_array_module : M (option array_module) (option array_module) :=
  fun _array => (Ok _array, _array).

End ArrayModule.

(** The module of the last importable name of a tuple, if any. *)
Definition last_importable (importable : string -> bool) (names : list string)
  : option array_module :=
  module_named <$> last (filter (fun name => importable name = true) names).

(** One array element brought to the size of a pixel, in the words of
    the comments of lines 373 and 381: the [bpp] least significant bytes
    are kept, or zero bytes are added at the most significant end. *)
Definition fit (lil_endian : bool) (itemsize bpp : nat) (px : bytes) : bytes :=
  if (bpp <? itemsize)%nat then
    if lil_endian then take bpp px else drop (itemsize - bpp) px
  else
    if lil_endian then px ++ replicate (bpp - itemsize) NUL
    else replicate (bpp - itemsize) NUL ++ px.

(** The pixel buffer that holds the packed pixels [data] in rows of
    [pitch] bytes, the padding of every row being zero bytes. *)
Definition laid_out (surf : SDL_Surface) (data : bytes) : bytes :=
  concat ((fun y => pixel (Z.to_nat (w surf * BytesPerPixel surf)) data y ++
                    replicate (Z.to_nat (pitch surf - w surf * BytesPerPixel surf))
                              NUL)
            <$> seq 0 (Z.to_nat (h surf))).

(** The pixels of the surface listed column by column: all the pixels
    of column 0 from top to bottom, then column 1, and so on. *)
Definition pixels_by_column (surf : SDL_Surface) : bytes :=
  let bpp := Z.to_nat (BytesPerPixel surf) in
  let W := Z.to_nat (w surf) in
  let H := Z.to_nat (h surf) in
  concat ((fun x =>
             concat ((fun y => pixel bpp (pixel_bytes surf) (y * W + x))
                       <$> seq 0 H))
            <$> seq 0 W).

(** An array of 4-byte elements for a surface of 2x1 pixels. *)
Definition wide_array : ndarray :=
  {| ar_data := [Byte.x01; Byte.x02; Byte.x03; Byte.x04;
                 Byte.x05; Byte.x06; Byte.x07; Byte.x08];
     ar_type := UInt32; ar_shape := [2; 1]; ar_strides := [4; 8] |}.

(** A 16-bit surface of 2x1 pixels, the row padded to 8 bytes. *)
Definition hicolor_surface : SDL_Surface :=
  {| w := 2; h := 1; pitch := 8; BytesPerPixel := 2;
     pixels := replicate 8 Byte.xff |}.

End SurfarrayMore.

(** ** lib/sprite.py, continued: class GroupSingle

    Sprites together with containers of class [GroupSingle].  A
    GroupSingle has no dictionary: its attribute [sprite] is the integer
    0 or the one object it holds. *)

Module Single.

Inductive obj : Type :=
| Spr (i : nat)    (* an instance of class Sprite *)
| Sgl (i : nat).   (* an instance of class GroupSingle *)

#[global] Instance obj_eq_dec : EqDecision obj.
Proof. solve_decision. Defined.

#[global] Instance obj_countable : Countable obj.
Proof.
  refine (inj_countable'
            (fun o => match o with Spr i => inl i | Sgl i => inr i end)
            (fun s => match s with inl i => Spr i | inr i => Sgl i end) _).
  intros []; reflexivity.
Defined.

(** What a caller passes to [add] and [remove]. *)
Inductive value : Type :=
| VObj (o : obj)
| VSeq (l : list obj).

(** The store: [Sprite.__g] of every sprite, and the attribute [sprite]
    of every GroupSingle, [None] standing for the integer 0. *)
Record store : Type := {
  g : nat -> gmap obj Z;
  sprite : nat -> option obj
}.

Definition set_g (st : store) (i : nat) (d : gmap obj Z) : store :=
  {| g := fun i' => if decide (i' = i) then d else g st i';
     sprite := sprite st |}.

Definition set_sprite (st : store) (j : nat) (v : option obj) : store :=
  {| g := g st;
     sprite := fun j' => if decide (j' = j) then v else sprite st j' |}.

(** *** Operations on [self.__g] and on [self.sprite] *)

Definition keys (d : gmap obj Z) : list obj := (map_to_list d).*1.

Definition dict_has_key (i : nat) (k : obj) : M store bool :=
  fun st => (Ok (bool_decide (is_Some (g st i !! k))), st).

Definition dict_setitem (i : nat) (k : obj) (v : Z) : M store unit :=
  fun st => (Ok tt, set_g st i (<[k := v]> (g st i))).

Definition dict_delitem (i : nat) (k : obj) : M store unit :=
  fun st =>
    match g st i !! k with
    | Some _ => (Ok tt, set_g st i (delete k (g st i)))
    | None => (Raise KeyError, st)
    end.

Definition dict_keys (i : nat) : M store (list obj) :=
  fun st => (Ok (keys (g st i)), st).

Definition dict_clear (i : nat) : M store unit :=
  fun st => (Ok tt, set_g st i ∅).

Definition dict_len (i : nat) : M store nat :=
  fun st => (Ok (size (g st i)), st).

Definition getattr_sprite (j : nat) : M store (option obj) :=
  fun st => (Ok (sprite st j), st).

Definition setattr_sprite (j : nat) (v : option obj) : M store unit :=
  fun st => (Ok tt, set_sprite st j v).

(** [hasattr(v, '_spritegroup')]: the class attribute of line 307. *)
Definition hasattr__spritegroup (v : value) : option obj :=
  match v with
  | VObj (Sgl j) => Some (Sgl j)
  | VObj (Spr _) => None
  | VSeq _ => None
  end.

(** [for x in v] *)
Definition iterate (v : value) : M store (list obj) :=
  match v with
  | VSeq l => ret l
  | VObj _ => raise TypeError
  end.

(** *** The internal methods *)

Definition Sprite_add_internal (self : nat) (group : obj) : M store unit :=
  dict_setitem self group 0.

Definition Sprite_remove_internal (self : nat) (group : obj) : M store unit :=
  dict_delitem self group.

(** [GroupSingle.remove_internal] (lines 351-352). *)
Definition GroupSingle_remove_internal (self : nat) (sprite : obj)
  : M store unit :=
  setattr_sprite self None.

Definition remove_internal (x y : obj) : M store unit :=
  match x with
  | Spr i => Sprite_remove_internal i y
  | Sgl j => GroupSingle_remove_internal j y
  end.

(** [self.sprite.remove_internal(self)]: the integer 0 has no such
    method. *)
Definition call_remove_internal (x : option obj) (y : obj) : M store unit :=
  match x with
  | Some o => remove_internal o y
  | None => raise AttributeError
  end.

(** [GroupSingle.add_internal] (lines 346-349). *)
Definition GroupSingle_add_internal (self : nat) (sprite : obj)
  : M store unit :=
  cur <~ getattr_sprite self ;;
  (if bool_decide (cur <> None)
   then call_remove_internal cur (Sgl self) else ret tt) ;;;
  setattr_sprite self (Some sprite).

Definition add_internal (x y : obj) : M store unit :=
  match x with
  | Spr i => Sprite_add_internal i y
  | Sgl j => GroupSingle_add_internal j y
  end.

(** *** class GroupSingle *)

(** [__nonzero__] and [__len__] (lines 362-366): [self.sprite is not 0]. *)
Definition GroupSingle___nonzero__ (self : nat) : M store bool :=
  cur <~ getattr_sprite self ;; ret (bool_decide (cur <> None)).

Definition GroupSingle___len__ (self : nat) : M store bool :=
  cur <~ getattr_sprite self ;; ret (bool_decide (cur <> None)).

(** The truth value of what [self.sprite] holds: 0 is false, a Sprite
    defines neither [__nonzero__] nor [__len__] and is true, a
    GroupSingle answers with its [__nonzero__]. *)
Definition truth_value (v : option obj) : M store bool :=
  match v with
  | None => ret false
  | Some (Spr _) => ret true
  | Some (Sgl j) => GroupSingle___nonzero__ j
  end.

(** Lines 322-323 and 329-330: [if self.sprite:
    self.sprite.remove_internal(self)]. *)
Definition forget_sprite (self : nat) : M store unit :=
  cur <~ getattr_sprite self ;;
  b <~ truth_value cur ;;
  if b then call_remove_internal cur (Sgl self) else ret tt.

(** [GroupSingle.add] (lines 320-332).  In the branch of line 326 an
    empty sequence is false; a Sprite is true, and [sprites[-1]] on it
    raises AttributeError, a classic instance without [__getitem__]. *)
Definition GroupSingle_add (self : nat) (sprite : value) : M store unit :=
  match hasattr__spritegroup sprite with
  | Some sprite =>
      forget_sprite self ;;;
      setattr_sprite self (Some sprite) ;;;
      add_internal sprite (Sgl self)
  | None =>
      let sprites := sprite in
      match sprites with
      | VSeq [] => ret tt
      | VSeq (x :: l) =>
          forget_sprite self ;;;
          setattr_sprite self (Some (default x (last l))) ;;;
          cur <~ getattr_sprite self ;;
          match cur with
          | Some s => add_internal s (Sgl self)
          | None => raise AttributeError
          end
      | VObj _ =>
          forget_sprite self ;;;
          raise AttributeError
      end
  end.

(** The [for] statement of lines 340-344, which ends at the first
    match. *)
Fixpoint remove_loop (self : nat) (sprites : list obj) : M store unit :=
  match sprites with
  | [] => ret tt
  | sprite :: sprites' =>
      cur <~ getattr_sprite self ;;
      if bool_decide (cur = Some sprite) then
        setattr_sprite self None ;;;
        remove_internal sprite (Sgl self)
      else remove_loop self sprites'
  end.

(** [GroupSingle.remove] (lines 333-344). *)
Definition GroupSingle_remove (self : nat) (sprite : value) : M store unit :=
  match hasattr__spritegroup sprite with
  | Some sprite =>
      cur <~ getattr_sprite self ;;
      if bool_decide (cur = Some sprite) then
        setattr_sprite self None ;;;
        remove_internal sprite (Sgl self)
      else ret tt
  | None =>
      sprites <~ iterate sprite ;;
      remove_loop self sprites
  end.

(** [GroupSingle.has] (line 355), [loop] (line 318) and [empty] (lines
    357-360). *)
Definition GroupSingle_has (self : nat) (sprite : obj) : M store bool :=
  cur <~ getattr_sprite self ;; ret (bool_decide (cur = Some sprite)).

Definition GroupSingle_loop (self : nat) : M store (list (option obj)) :=
  cur <~ getattr_sprite self ;; ret [cur].

Definition GroupSingle_empty (self : nat) : M store unit :=
  cur <~ getattr_sprite self ;;
  if bool_decide (cur <> None) then
    call_remove_internal cur (Sgl self) ;;;
    setattr_sprite self None
  else ret tt.

(** [GroupSingle.__init__] (lines 308-310); the default argument is the
    empty tuple. *)
Definition GroupSingle___init__ (self : nat) (sprite : value) : M store unit :=
  setattr_sprite self None ;;;
  GroupSingle_add self sprite.

(** [GroupSingle.copy] (lines 312-315); [new] names the instance that
    the call of the class creates. *)
Definition GroupSingle_copy (self new : nat) : M store unit :=
  cur <~ getattr_sprite self ;;
  match cur with
  | Some s => GroupSingle___init__ new (VObj s)
  | None => GroupSingle___init__ new (VSeq [])
  end.

(** *** class Sprite, with containers of class GroupSingle *)

(** [Sprite.add] (lines 116-131). *)
Definition Sprite_add (self : nat) (group : value) : M store unit :=
  let has := dict_has_key self in
  match hasattr__spritegroup group with
  | Some group =>
      b <~ has group ;;
      if negb b then
        add_internal group (Spr self) ;;;
        dict_setitem self group 0
      else ret tt
  | None =>
      groups <~ iterate group ;;
      for_each groups (fun group =>
        b <~ has group ;;
        if negb b then
          add_internal group (Spr self) ;;;
          dict_setitem self group 0
        else ret tt)
  end.

(** [Sprite.kill] (lines 155-165). *)
Definition Sprite_kill (self : nat) : M store unit :=
  cs <~ dict_keys self ;;
  for_each cs (fun c => remove_internal c (Spr self)) ;;;
  dict_clear self.

(** [Sprite.alive] (line 179). *)
Definition Sprite_alive (self : nat) : M store nat :=
  dict_len self.

(** *** spritecollide (lines 468-485) with a GroupSingle *)

Section Collide.

(** As for [Group]: the type of rectangles, [colliderect] and the
    [rect] attribute of an object are parameters. *)
Context {Rect : Type}.
Variable rect_of : obj -> option Rect.
Variable colliderect : Rect -> Rect -> bool.

(** [x.rect], where [x] is an object or the integer 0. *)
Definition getattr_rect (x : option obj) : M store Rect :=
  match x with
  | Some o =>
      match rect_of o with
      | Some r => ret r
      | None => raise AttributeError
      end
  | None => raise AttributeError
  end.

(** [s.kill()]: neither a GroupSingle nor the integer 0 has that
    method. *)
Definition kill (s : option obj) : M store unit :=
  match s with
  | Some (Spr i) => Sprite_kill i
  | _ => raise AttributeError
  end.

(** [group.loop()] *)
Definition loop (group : obj) : M store (list (option obj)) :=
  match group with
  | Sgl j => GroupSingle_loop j
  | Spr _ => raise AttributeError
  end.

(** The body of the [for] statement; [crashed] collects what [loop()]
    gave. *)
Fixpoint collide_loop (r : Rect) (dokill : bool) (ss : list (option obj))
         (crashed : list (option obj)) : M store (list (option obj)) :=
  match ss with
  | [] => ret crashed
  | s :: ss' =>
      rs <~ getattr_rect s ;;
      if colliderect r rs then
        (if dokill then kill s else ret tt) ;;;
        collide_loop r dokill ss' (crashed ++ [s])
      else collide_loop r dokill ss' crashed
  end.

Definition spritecollide (sprite group : obj) (dokill : bool)
  : M store (list (option obj)) :=
  r <~ getattr_rect (Some sprite) ;;
  ss <~ loop group ;;
  collide_loop r dokill ss [].

End Collide.

(** *** The store as the two classes keep it *)

(** A GroupSingle holds a sprite exactly when that sprite lists it;
    GroupSingles hold sprites, and sprites list GroupSingles. *)
Definition paired (st : store) : Prop :=
  (forall j o, sprite st j = Some o ->
     exists s, o = Spr s /\ is_Some (g st s !! Sgl j)) /\
  (forall s k, is_Some (g st s !! k) ->
     exists j, k = Sgl j /\ sprite st j = Some (Spr s)).

(** Between [st] and [st'], the sprite [s] took the place in the
    GroupSingle [j]: [j] holds [s], no other sprite lists [j], and
    nothing else has changed. *)
Definition seated (s j : nat) (st st' : store) : Prop :=
  sprite st' j = Some (Spr s) /\
  (forall j', j' <> j -> sprite st' j' = sprite st j') /\
  (forall s', is_Some (g st' s' !! Sgl j) <-> s' = s) /\
  (forall s' k, k <> Sgl j -> g st' s' !! k = g st s' !! k).

(** Between [st] and [st'], the GroupSingle [j] lost its sprite: [j]
    holds nothing, no sprite lists [j], and nothing else has changed. *)
Definition vacated (j : nat) (st st' : store) : Prop :=
  sprite st' j = None /\
  (forall j', j' <> j -> sprite st' j' = sprite st j') /\
  (forall s', g st' s' !! Sgl j = None) /\
  (forall s' k, k <> Sgl j -> g st' s' !! k = g st s' !! k).

(** The objects that [Sprite.add] goes through for an argument. *)
Definition targets (v : value) : option (list obj) :=
  match v with
  | VObj (Sgl j) => Some [Sgl j]
  | VObj (Spr _) => None
  | VSeq l => Some l
  end.

Definition is_single (o : obj) : Prop := exists j, o = Sgl j.

Definition is_sprite (o : obj) : Prop := exists s, o = Spr s.

(** The store after a call, whatever the outcome. *)
Definition after {A : Type} (m : M store A) (st : store) : store := (m st).2.

Definition empty_store : store :=
  {| g := fun _ => ∅; sprite := fun _ => None |}.

(** [a = GroupSingle(); s0 = Sprite(a)]: the GroupSingle 0 holds the
    sprite 0. *)
Definition stage0 : store :=
  after (Sprite_add 0 (VObj (Sgl 0)))
        (after (GroupSingle___init__ 0 (VSeq [])) empty_store).

(** [b = GroupSingle(); s1 = Sprite(b)] on top of that. *)
Definition stage1 : store :=
  after (Sprite_add 1 (VObj (Sgl 1)))
        (after (GroupSingle___init__ 1 (VSeq [])) stage0).

(** [c = GroupSingle()] on top of that: the GroupSingle 2 is empty. *)
Definition stage2 : store :=
  after (GroupSingle___init__ 2 (VSeq [])) stage1.

(** Rectangles (x, y, w, h) for the sprites of the stage, and an
    overlap test standing in for [Rect.colliderect]. *)
Definition stage_rect (o : obj) : option (Z * Z * Z * Z) :=
  match o with
  | Spr 0 => Some (0, 0, 10, 10)
  | Spr 1 => Some (5, 5, 10, 10)
  | _ => None
  end.

Definition overlap (a b : Z * Z * Z * Z) : bool :=
  let '(ax, ay, aw, ah) := a in
  let '(bx, by_, bw, bh) := b in
  (ax <? bx + bw) && (bx <? ax + aw) && (ay <? by_ + bh) && (by_ <? ay + ah).

End Single.

(** ** lib/sprite.py, continued: the drawing groups

    Sprites together with groups of the classes [RenderClear] and
    [RenderUpdates], which keep in [spritedict] the area where each
    sprite was last drawn instead of the integer 0. *)

Module Render.

Inductive obj : Type :=
| Spr (i : nat)    (* an instance of class Sprite *)
| Rnd (i : nat).   (* an instance of RenderClear or RenderUpdates *)

#[global] Instance obj_eq_dec : EqDecision obj.
Proof. solve_decision. Defined.

#[global] Instance obj_countable : Countable obj.
Proof.
  refine (inj_countable'
            (fun o => match o with Spr i => inl i | Rnd i => inr i end)
            (fun s => match s with inl i => Spr i | inr i => Rnd i end) _).
  intros []; reflexivity.
Defined.

(** A [pygame.Rect] value: (x, y, w, h). *)
Definition rect : Type := Z * Z * Z * Z.

(** The calls that the surface receives: [blit(s.image, s.rect)] for a
    sprite, [blit(bgd, r, r)] for an area of the background. *)
Inductive blit_call : Type :=
| BlitSprite (s : obj)
| BlitBackground (r : rect).

(** The store: [Sprite.__g] of every sprite; [spritedict] and
    [lostsprites] of every group, where [None] is the integer 0 that
    [Group.add_internal] stores; and the calls of [blit] made so far on
    the surface, the latest last. *)
Record store : Type := {
  g : nat -> gmap obj Z;
  spritedict : nat -> gmap obj (option rect);
  lostsprites : nat -> list rect;
  blits : list blit_call
}.

Definition set_g (st : store) (i : nat) (d : gmap obj Z) : store :=
  {| g := fun i' => if decide (i' = i) then d else g st i';
     spritedict := spritedict st;
     lostsprites := lostsprites st;
     blits := blits st |}.

Definition set_spritedict (st : store) (j : nat) (d : gmap obj (option rect))
  : store :=
  {| g := g st;
     spritedict := fun j' => if decide (j' = j) then d else spritedict st j';
     lostsprites := lostsprites st;
     blits := blits st |}.

Definition set_lostsprites (st : store) (j : nat) (l : list rect) : store :=
  {| g := g st;
     spritedict := spritedict st;
     lostsprites := fun j' => if decide (j' = j) then l else lostsprites st j';
     blits := blits st |}.

Definition add_blit (st : store) (c : blit_call) : store :=
  {| g := g st;
     spritedict := spritedict st;
     lostsprites := lostsprites st;
     blits := blits st ++ [c] |}.

(** What a caller passes to [add]. *)
Inductive value : Type :=
| VObj (o : obj)
| VSeq (l : list obj).

(** *** Operations on the dictionaries and on [lostsprites] *)

Definition keys {V : Type} (d : gmap obj V) : list obj := (map_to_list d).*1.

Definition values {V : Type} (d : gmap obj V) : list V := (map_to_list d).*2.

Definition g_has_key (i : nat) (k : obj) : M store bool :=
  fun st => (Ok (bool_decide (is_Some (g st i !! k))), st).

Definition g_setitem (i : nat) (k : obj) (v : Z) : M store unit :=
  fun st => (Ok tt, set_g st i (<[k := v]> (g st i))).

Definition g_delitem (i : nat) (k : obj) : M store unit :=
  fun st =>
    match g st i !! k with
    | Some _ => (Ok tt, set_g st i (delete k (g st i)))
    | None => (Raise KeyError, st)
    end.

Definition g_keys (i : nat) : M store (list obj) :=
  fun st => (Ok (keys (g st i)), st).

Definition g_clear (i : nat) : M store unit :=
  fun st => (Ok tt, set_g st i ∅).

Definition g_len (i : nat) : M store nat :=
  fun st => (Ok (size (g st i)), st).

(** [spritedict[k]] raises KeyError when [k] is not a key. *)
Definition spritedict_getitem (j : nat) (k : obj) : M store (option rect) :=
  fun st =>
    match spritedict st j !! k with
    | Some r => (Ok r, st)
    | None => (Raise KeyError, st)
    end.

Definition spritedict_setitem (j : nat) (k : obj) (r : option rect)
  : M store unit :=
  fun st => (Ok tt, set_spritedict st j (<[k := r]> (spritedict st j))).

Definition spritedict_delitem (j : nat) (k : obj) : M store unit :=
  fun st =>
    match spritedict st j !! k with
    | Some _ => (Ok tt, set_spritedict st j (delete k (spritedict st j)))
    | None => (Raise KeyError, st)
    end.

Definition spritedict_keys (j : nat) : M store (list obj) :=
  fun st => (Ok (keys (spritedict st j)), st).

Definition spritedict_values (j : nat) : M store (list (option rect)) :=
  fun st => (Ok (values (spritedict st j)), st).

Definition spritedict_items (j : nat) : M store (list (obj * option rect)) :=
  fun st => (Ok (map_to_list (spritedict st j)), st).

Definition getattr_lostsprites (j : nat) : M store (list rect) :=
  fun st => (Ok (lostsprites st j), st).

Definition setattr_lostsprites (j : nat) (l : list rect) : M store unit :=
  fun st => (Ok tt, set_lostsprites st j l).

(** [self.lostsprites.append(r)] *)
Definition lostsprites_append (j : nat) (r : rect) : M store unit :=
  fun st => (Ok tt, set_lostsprites st j (lostsprites st j ++ [r])).

(** [hasattr(v, '_spritegroup')]: the drawing groups inherit the
    attribute from [Group]. *)
Definition hasattr__spritegroup (v : value) : option obj :=
  match v with
  | VObj (Rnd j) => Some (Rnd j)
  | VObj (Spr _) => None
  | VSeq _ => None
  end.

Definition iterate (v : value) : M store (list obj) :=
  match v with
  | VSeq l => ret l
  | VObj _ => raise TypeError
  end.

(** *** The internal methods *)

Definition Sprite_add_internal (self : nat) (group : obj) : M store unit :=
  g_setitem self group 0.

Definition Sprite_remove_internal (self : nat) (group : obj) : M store unit :=
  g_delitem self group.

(** [Group.add_internal] (lines 250-251), which the drawing groups
    inherit. *)
Definition Group_add_internal (self : nat) (sprite : obj) : M store unit :=
  spritedict_setitem self sprite None.

(** [RenderClear.remove_internal] (lines 409-413). *)
Definition RenderClear_remove_internal (self : nat) (sprite : obj)
  : M store unit :=
  r <~ spritedict_getitem self sprite ;;
  match r with
  | Some r => lostsprites_append self r
  | None => ret tt
  end ;;;
  spritedict_delitem self sprite.

Definition add_internal (x y : obj) : M store unit :=
  match x with
  | Spr i => Sprite_add_internal i y
  | Rnd j => Group_add_internal j y
  end.

Definition remove_internal (x y : obj) : M store unit :=
  match x with
  | Spr i => Sprite_remove_internal i y
  | Rnd j => RenderClear_remove_internal j y
  end.

(** *** class Sprite, with drawing groups *)

(** [Sprite.add] (lines 116-131). *)
Definition Sprite_add (self : nat) (group : value) : M store unit :=
  let has := g_has_key self in
  match hasattr__spritegroup group with
  | Some group =>
      b <~ has group ;;
      if negb b then
        add_internal group (Spr self) ;;;
        g_setitem self group 0
      else ret tt
  | None =>
      groups <~ iterate group ;;
      for_each groups (fun group =>
        b <~ has group ;;
        if negb b then
          add_internal group (Spr self) ;;;
          g_setitem self group 0
        else ret tt)
  end.

(** [Sprite.kill] (lines 155-165). *)
Definition Sprite_kill (self : nat) : M store unit :=
  cs <~ g_keys self ;;
  for_each cs (fun c => remove_internal c (Spr self)) ;;;
  g_clear self.

(** *** The drawing methods *)

Section Draw.

(** What [surface.blit(s.image, s.rect)] returns for the sprite [s]
    during the call at hand: the area that was drawn; [None] when [s]
    has no [image] or no [rect].  [Rect.union] is a parameter as well. *)
Variable area : obj -> option rect.
Variable union : rect -> rect -> rect.

(** [surface_blit(s.image, s.rect)] *)
Definition blit_sprite (s : obj) : M store rect :=
  fun st =>
    match area s with
    | Some r => (Ok r, add_blit st (BlitSprite s))
    | None => (Raise AttributeError, st)
    end.

(** [surface_blit(bgd, r, r)], for a background [bgd] that is a
    Surface: the call returns. *)
Definition blit_background (r : rect) : M store unit :=
  fun st => (Ok tt, add_blit st (BlitBackground r)).

(** [RenderPlain.draw] (lines 386-394).  The method reads the keys of
    [spritedict] only. *)
Definition RenderPlain_draw (self : nat) : M store unit :=
  ss <~ spritedict_keys self ;;
  for_each ss (fun s => _ <~ blit_sprite s ;; ret tt).

(** [RenderClear.draw] (lines 415-423). *)
Definition RenderClear_draw (self : nat) : M store unit :=
  ss <~ spritedict_keys self ;;
  for_each ss (fun s =>
    r <~ blit_sprite s ;;
    spritedict_setitem self s (Some r)).

(** [RenderClear.clear] (lines 424-437). *)
Definition RenderClear_clear (self : nat) : M store unit :=
  lost <~ getattr_lostsprites self ;;
  for_each lost blit_background ;;;
  setattr_lostsprites self [] ;;;
  rs <~ spritedict_values self ;;
  for_each rs (fun r =>
    match r with
    | Some r => blit_background r
    | None => ret tt
    end).

(** The [for] statement of [RenderUpdates.draw] over the list that
    [items()] returned; [dirty] is the list object that was
    [self.lostsprites]. *)
Fixpoint updates_loop (self : nat) (items : list (obj * option rect))
         (dirty : list rect) : M store (list rect) :=
  match items with
  | [] => ret dirty
  | (s, r) :: items' =>
      newrect <~ blit_sprite s ;;
      let dirty :=
        dirty ++ [match r with
                  | Some r => union newrect r
                  | None => newrect
                  end] in
      spritedict_setitem self s (Some newrect) ;;;
      updates_loop self items' dirty
  end.

(** [RenderUpdates.draw] (lines 447-466). *)
Definition RenderUpdates_draw (self : nat) : M store (list rect) :=
  dirty <~ getattr_lostsprites self ;;
  setattr_lostsprites self [] ;;;
  items <~ spritedict_items self ;;
  updates_loop self items dirty.

End Draw.

(** *** Vocabulary of the statements *)

(** The store with further calls of [blit] on the surface. *)
Definition add_blits (st : store) (cs : list blit_call) : store :=
  {| g := g st;
     spritedict := spritedict st;
     lostsprites := lostsprites st;
     blits := blits st ++ cs |}.

(** What [RenderUpdates.draw] reports for an item of [spritedict]: the
    area just drawn, joined with the area of the previous drawing when
    there was one. *)
Definition reported (area : obj -> option rect) (union : rect -> rect -> rect)
           (item : obj * option rect) : option rect :=
  match area item.1 with
  | Some newrect =>
      Some (match item.2 with
            | Some r => union newrect r
            | None => newrect
            end)
  | None => None
  end.

(** The areas of the group that are on the screen and have not been
    erased: those of the sprites that left the group, and those where
    its sprites were last drawn. *)
Definition drawn (d : gmap obj (option rect)) : list rect :=
  omap id (values d).

Definition pending (st : store) (j : nat) : list rect :=
  lostsprites st j ++ drawn (spritedict st j).

(** A group holds a sprite exactly when the sprite lists the group;
    groups hold sprites and sprites list groups. *)
Definition paired (st : store) : Prop :=
  (forall j o, is_Some (spritedict st j !! o) ->
     exists s, o = Spr s /\ is_Some (g st s !! Rnd j)) /\
  (forall s k, is_Some (g st s !! k) ->
     exists j, k = Rnd j /\ is_Some (spritedict st j !! Spr s)).

Definition after {A : Type} (m : M store A) (st : store) : store := (m st).2.

Definition empty_store : store :=
  {| g := fun _ => ∅; spritedict := fun _ => ∅;
     lostsprites := fun _ => []; blits := [] |}.

(** Two sprites in the group 0, drawn once. *)
Definition sprite_area (o : obj) : option rect :=
  match o with
  | Spr 0 => Some (0, 0, 10, 10)
  | Spr 1 => Some (20, 0, 10, 10)
  | _ => None
  end.

Definition canvas0 : store :=
  after (Sprite_add 1 (VObj (Rnd 0)))
        (after (Sprite_add 0 (VObj (Rnd 0))) empty_store).

Definition canvas1 : store := after (RenderClear_draw sprite_area 0) canvas0.

(** The same scene when only the sprite 1 has its [image] and [rect]. *)
Definition sprite_1_area (o : obj) : option rect :=
  match o with
  | Spr 1 => Some (20, 0, 10, 10)
  | _ => None
  end.

(** The smallest rectangle around two rectangles, standing in for
    [Rect.union]. *)
Definition bounding_box (a b : rect) : rect :=
  let '(ax, ay, aw, ah) := a in
  let '(bx, by_, bw, bh) := b in
  let x := Z.min ax bx in
  let y := Z.min ay by_ in
  (x, y, Z.max (ax + aw) (bx + bw) - x, Z.max (ay + ah) (by_ + bh) - y).

End Render.
(* ===================================================================== *)
(** * Part II: theorems                                                   *)
(* ===================================================================== *)

Module SpriteFacts.
Import Sprite.

(** ** The store and the monad *)

Lemma upd_eq (h : heap) o d : upd h o d o = d.
Proof. unfold upd. by rewrite decide_True. Qed.

Lemma upd_ne (h : heap) o o' d : o' <> o -> upd h o d o' = h o'.
Proof. intros. unfold upd. by rewrite decide_False. Qed.

Lemma add_internal_eq x y : add_internal x y = dict_setitem x y 0.
Proof. by destruct x. Qed.

Lemma remove_internal_eq x y : remove_internal x y = dict_delitem x y.
Proof. by destruct x. Qed.

Lemma after_bind {A B : Type} (m : M heap A) (k : A -> M heap B) h :
  after (bind m k) h =
  match (m h).1 with
  | Ok a => after (k a) (after m h)
  | Raise _ => after m h
  end.
Proof. unfold after, bind. by destruct (m h) as [[a|e] h']. Qed.

Lemma preserves_ret {A : Type} P (a : A) : preserves P (ret a).
Proof. by intros h. Qed.

Lemma preserves_raise {A : Type} P e : preserves P (@raise heap A e).
Proof. by intros h. Qed.

Lemma preserves_bind {A B : Type} P (m : M heap A) (k : A -> M heap B) :
  preserves P m -> (forall a, preserves P (k a)) -> preserves P (bind m k).
Proof.
  intros Hm Hk h HP. rewrite after_bind.
  destruct (m h).1; [apply Hk|]; by apply Hm.
Qed.

Lemma preserves_for_each {A : Type} P (l : list A) (body : A -> M heap unit) :
  (forall x, preserves P (body x)) -> preserves P (for_each l body).
Proof.
  intros Hb. induction l as [|x l IH]; simpl.
  - apply preserves_ret.
  - apply preserves_bind; auto.
Qed.

Lemma preserves_has_key P o k : preserves P (dict_has_key o k).
Proof. by intros h. Qed.

Lemma preserves_iterate P v : preserves P (iterate v).
Proof. destruct v; [apply preserves_raise | apply preserves_ret]. Qed.

Create HintDb pres.
#[local] Hint Resolve preserves_ret preserves_raise preserves_has_key
  preserves_iterate : pres.

(** ** Linking and unlinking two objects *)

(** Case analysis on the objects whose dictionaries were written. *)
Ltac heap_cases :=
  repeat case_decide; subst;
  rewrite ?lookup_empty, ?lookup_insert_is_Some', ?lookup_delete_is_Some;
  pose proof (@is_Some_None Z);
  naive_solver.

(** After [x.d[y] = 0; y.d[x] = 0] the relation has gained the two pairs
    and nothing else. *)
Lemma link_lookup h x y a b :
  is_Some (after (dict_setitem x y 0 ;;; dict_setitem y x 0) h a !! b) <->
  (a = x /\ b = y) \/ (a = y /\ b = x) \/ is_Some (h a !! b).
Proof.
  unfold after, bind, dict_setitem; simpl. unfold upd. heap_cases.
Qed.

Lemma link_mutual x y : preserves mutual (dict_setitem x y 0 ;;; dict_setitem y x 0).
Proof.
  intros h Hm a b. rewrite !link_lookup. specialize (Hm a b). tauto.
Qed.

(** [del x.d[y]; del y.d[x]] keeps the relation symmetric in every
    outcome: when the first deletion raises nothing has changed, and the
    second can only raise when [x] and [y] are the same object. *)
Lemma unlink_mutual x y : preserves mutual (dict_delitem x y ;;; dict_delitem y x).
Proof.
  intros h Hm. unfold after, bind, dict_delitem.
  destruct (h x !! y) as [v|] eqn:Hxy; simpl; [|done].
  destruct (decide (x = y)) as [->|Hne].
  - rewrite upd_eq, lookup_delete_eq. simpl.
    intros a b. specialize (Hm a b). unfold upd. heap_cases.
  - rewrite upd_ne by done.
    assert (is_Some (h y !! x)) as [v' Hyx] by (apply Hm; eauto).
    rewrite Hyx. simpl.
    intros a b. specialize (Hm a b). unfold upd. heap_cases.
Qed.

(** ** Preservation of the symmetric relation *)

Lemma link_step P a b :
  preserves P (dict_setitem a b 0 ;;; dict_setitem b a 0) ->
  forall (has : obj -> M heap bool), (forall k, preserves P (has k)) ->
  forall k, preserves P (c <~ has k ;;
                         if negb c then dict_setitem a b 0 ;;; dict_setitem b a 0
                         else ret tt).
Proof.
  intros Hl has Hh k. apply preserves_bind; [apply Hh|].
  intros c. destruct (negb c); auto with pres.
Qed.

Lemma Sprite_add_mutual s v : preserves mutual (Sprite_add s v).
Proof.
  unfold Sprite_add. destruct (hasattr__spritegroup v) as [g|].
  - rewrite add_internal_eq.
    apply (link_step mutual g (Spr s)); auto using link_mutual with pres.
  - apply preserves_bind; [auto with pres|]. intros l.
    apply preserves_for_each. intros g. rewrite add_internal_eq.
    apply (link_step mutual g (Spr s)); auto using link_mutual with pres.
Qed.

Lemma Group_add_mutual g v : preserves mutual (Group_add g v).
Proof.
  unfold Group_add, Group_add_internal.
  destruct (hasattr__spritegroup v) as [s|].
  - rewrite add_internal_eq.
    apply (link_step mutual (Grp g) s); auto using link_mutual with pres.
  - apply preserves_bind; [auto with pres|]. intros l.
    apply preserves_for_each. intros s. rewrite add_internal_eq.
    apply (link_step mutual (Grp g) s); auto using link_mutual with pres.
Qed.

(** [Sprite.remove] keeps the relation symmetric when it takes the
    branch of line 144, that is for every argument that is not a single
    group. *)
Lemma Sprite_remove_mutual s v :
  hasattr__spritegroup v = None -> preserves mutual (Sprite_remove s v).
Proof.
  intros Hv. unfold Sprite_remove. rewrite Hv.
  apply preserves_bind; [auto with pres|]. intros l.
  apply preserves_for_each. intros g. rewrite remove_internal_eq.
  apply preserves_bind; [auto with pres|]. intros c.
  destruct c; auto using unlink_mutual with pres.
Qed.

(** [Group.remove] and [Group.has] stop at their first statement after
    [has = ...]: the local [sprites] is read before any assignment. *)
Lemma Group_remove_eq g v h : Group_remove g v h = (Raise UnboundLocalError, h).
Proof. reflexivity. Qed.

Lemma Group_has_eq g v h : Group_has g v h = (Raise UnboundLocalError, h).
Proof. reflexivity. Qed.

Lemma Group_remove_mutual g v : preserves mutual (Group_remove g v).
Proof. intros h Hm. unfold after. by rewrite Group_remove_eq. Qed.

(** ** Keys of a dictionary *)

Lemma elem_of_keys (d : gmap obj Z) k : k ∈ keys d <-> is_Some (d !! k).
Proof.
  unfold keys. rewrite list_elem_of_fmap. split.
  - intros [[k' v] [-> Hin]]. apply elem_of_map_to_list in Hin. by exists v.
  - intros [v Hv]. exists (k, v). split; [done|]. by apply elem_of_map_to_list.
Qed.

Lemma NoDup_keys (d : gmap obj Z) : NoDup (keys d).
Proof. apply NoDup_fst_map_to_list. Qed.

Lemma keys_empty : keys ∅ = [].
Proof. unfold keys. by rewrite map_to_list_empty. Qed.

(** ** Sprite.kill *)

(** The [for] statement of [kill]: when the keys are distinct and each
    of them still lists [s], every deletion succeeds. *)
Lemma kill_loop s l : forall h,
  NoDup l ->
  (forall c, c ∈ l -> is_Some (h c !! s)) ->
  exists h',
    for_each l (fun c => remove_internal c s) h = (Ok tt, h') /\
    forall o, h' o = if bool_decide (o ∈ l) then delete s (h o) else h o.
Proof.
  induction l as [|c l IH]; intros h Hnd Hin; simpl.
  - exists h. split; [done|]. by intros o.
  - apply NoDup_cons in Hnd as [Hc Hnd].
    destruct (Hin c) as [v Hv]; [set_solver|].
    unfold bind. rewrite remove_internal_eq. unfold dict_delitem at 1.
    rewrite Hv.
    destruct (IH (upd h c (delete s (h c))) Hnd) as (h' & Hrun & Hh').
    { intros c' Hc'. rewrite upd_ne by set_solver. apply Hin. set_solver. }
    exists h'. split; [done|]. intros o. rewrite Hh'.
    destruct (decide (o = c)) as [->|Hne].
    + rewrite bool_decide_false by done. rewrite bool_decide_true by set_solver.
      by rewrite upd_eq.
    + rewrite upd_ne by done.
      destruct (decide (o ∈ l)).
      * rewrite !bool_decide_true by set_solver. done.
      * rewrite !bool_decide_false by set_solver. done.
Qed.

(** On a symmetric store [kill] returns, empties the sprite's dictionary
    and deletes the sprite from every other dictionary. *)
Lemma Sprite_kill_spec s h :
  mutual h ->
  exists h',
    Sprite_kill s h = (Ok tt, h') /\
    forall o, h' o = if decide (o = Spr s) then ∅ else delete (Spr s) (h o).
Proof.
  intros Hm. unfold Sprite_kill, bind, dict_keys.
  destruct (kill_loop (Spr s) (keys (h (Spr s))) h) as (h1 & Hrun & Hh1).
  { apply NoDup_keys. }
  { intros c Hc. apply Hm. by apply elem_of_keys. }
  rewrite Hrun. unfold dict_clear. eexists. split; [done|].
  intros o. unfold upd. case_decide; [done|].
  rewrite Hh1. case_bool_decide as Hin; [done|].
  symmetry. apply delete_id.
  rewrite elem_of_keys in Hin. apply eq_None_not_Some. intros Hs. apply Hin. by apply Hm.
Qed.

Lemma Sprite_kill_mutual s : preserves mutual (Sprite_kill s).
Proof.
  intros h Hm. destruct (Sprite_kill_spec s h Hm) as (h' & Hrun & Hh').
  unfold after. rewrite Hrun. simpl.
  intros a b. rewrite !Hh'. specialize (Hm a b).
  heap_cases.
Qed.

(** ** Group.empty *)

Lemma unlink_ok x y h h1 :
  (dict_delitem x y ;;; dict_delitem y x) h = (Ok tt, h1) ->
  x <> y /\ h1 x = delete y (h x).
Proof.
  unfold bind, dict_delitem.
  destruct (h x !! y) as [v|] eqn:Hxy; [|done].
  destruct (decide (x = y)) as [->|Hne].
  - by rewrite upd_eq, lookup_delete_eq.
  - rewrite upd_ne by done. destruct (h y !! x); [|done].
    intros [= <-]. split; [done|]. rewrite upd_ne by done. by rewrite upd_eq.
Qed.

Lemma empty_loop g l : forall h r h',
  mutual h ->
  (forall k, is_Some (h (Grp g) !! k) -> k ∈ l) ->
  for_each l (fun s => Group_remove_internal g s ;;;
                       remove_internal s (Grp g)) h = (r, h') ->
  mutual h' /\ (r = Ok tt -> h' (Grp g) = ∅).
Proof.
  induction l as [|s l IH]; intros h r h' Hm Hk; simpl.
  - intros [= <- <-]. split; [done|]. intros _. apply map_empty. intros k.
    apply eq_None_not_Some. intros Hs. apply Hk in Hs. set_solver.
  - unfold Group_remove_internal at 1. rewrite remove_internal_eq.
    pose proof (unlink_mutual (Grp g) s h Hm) as Hm1. unfold after in Hm1.
    unfold bind at 1.
    destruct ((dict_delitem (Grp g) s ;;; dict_delitem s (Grp g)) h)
      as [[[]|e] h1] eqn:Hstep; simpl in *.
    + apply unlink_ok in Hstep as [Hne Hg].
      apply (IH h1); [done|]. intros k. rewrite Hg, lookup_delete_is_Some.
      intros [Hks Hin]. apply Hk in Hin. set_solver.
    + by intros [= <- <-].
Qed.

Lemma Group_empty_mutual g : preserves mutual (Group_empty g).
Proof.
  intros h Hm. unfold after, Group_empty, bind at 1, dict_keys.
  unfold bind at 1.
  destruct (for_each _ _ h) as [r h1] eqn:Hrun.
  apply empty_loop in Hrun as [Hm1 He];
    [|done|by intros k; rewrite elem_of_keys].
  destruct r as [[]|e]; simpl; [|done].
  specialize (He eq_refl). intros a b. specialize (Hm1 a b).
  unfold upd. repeat case_decide; subst; rewrite ?He in Hm1; by rewrite ?He.
Qed.

(** ** Sprite.remove with a single group *)

(** The three ways the branch of lines 139-142 can go.  When the sprite
    lists the group, [group.remove_internal(self)] runs and then line 142
    reads the unbound local [g]. *)
Lemma Sprite_remove_single s g h :
  Sprite_remove s (VObj (Grp g)) h =
  match h (Spr s) !! Grp g with
  | None => (Ok tt, h)
  | Some _ =>
      match h (Grp g) !! Spr s with
      | Some _ => (Raise UnboundLocalError,
                   upd h (Grp g) (delete (Spr s) (h (Grp g))))
      | None => (Raise KeyError, h)
      end
  end.
Proof.
  unfold Sprite_remove, bind, dict_has_key; simpl.
  destruct (h (Spr s) !! Grp g) as [v|] eqn:Hs.
  - rewrite bool_decide_true by eauto.
    unfold Group_remove_internal, dict_delitem.
    by destruct (h (Grp g) !! Spr s).
  - by rewrite bool_decide_false by (by intros [? ?]).
Qed.

(** ** The initial store *)

Lemma mutual_empty_heap : mutual empty_heap.
Proof. intros x y. unfold empty_heap. by rewrite !lookup_empty. Qed.

Lemma mutual_membership h : mutual h -> membership_invariant h.
Proof. intros Hm s g. apply Hm. Qed.

(** [__init__] on an object that no dictionary mentions yet. *)
Lemma Sprite___init___mutual s v h :
  mutual h -> h (Spr s) = ∅ -> mutual (after (Sprite___init__ s v) h).
Proof.
  intros Hm He. unfold Sprite___init__. rewrite after_bind. simpl.
  apply Sprite_add_mutual. unfold after, dict_clear; simpl.
  intros a b. specialize (Hm a b). unfold upd.
  repeat case_decide; subst; rewrite ?He in Hm; by rewrite ?He.
Qed.

Lemma preserves_truth_value P v : preserves P (truth_value v).
Proof.
  destruct v as [[i|i]|l]; simpl; auto with pres.
  apply preserves_bind; auto with pres. by intros h.
Qed.

Lemma Group___init___mutual g v h :
  mutual h -> h (Grp g) = ∅ -> mutual (after (Group___init__ g v) h).
Proof.
  intros Hm He. unfold Group___init__. rewrite after_bind.
  change ((dict_clear (Grp g) h).1) with (@Ok unit tt).
  cbv beta iota.
  apply (preserves_bind mutual (truth_value v)).
  - apply preserves_truth_value.
  - intros b. destruct b; auto using Group_add_mutual with pres.
  - unfold after, dict_clear; simpl.
    intros a b. specialize (Hm a b). unfold upd.
    repeat case_decide; subst; rewrite ?He in Hm; by rewrite ?He.
Qed.

(** ** spritecollide *)

Section CollideFacts.

Context {Rect : Type}.
Variable rect_of : obj -> option Rect.
Variable colliderect : Rect -> Rect -> bool.

Abbreviation collides := (collides rect_of colliderect).
Abbreviation collide_loop := (collide_loop rect_of colliderect).
Abbreviation sprite_with_rect := (sprite_with_rect rect_of).

Lemma collides_filter_cons r s ss rs :
  rect_of s = Some rs ->
  filter (fun x => collides r x) (s :: ss) =
  if colliderect r rs then s :: filter (fun x => collides r x) ss
  else filter (fun x => collides r x) ss.
Proof.
  intros Hrs.
  destruct (colliderect r rs) eqn:Hc.
  - rewrite filter_cons_True; [done|]. unfold Sprite.collides. by rewrite Hrs, Hc.
  - rewrite filter_cons_False; [done|]. unfold Sprite.collides.
    rewrite Hrs, Hc. simpl. tauto.
Qed.

(** Without [dokill] the loop only reads. *)
Lemma collide_loop_false r ss : forall crashed h,
  Forall sprite_with_rect ss ->
  collide_loop r false ss crashed h =
  (Ok (crashed ++ filter (fun s => collides r s) ss), h).
Proof.
  induction ss as [|s ss IH]; intros crashed h Hall; simpl.
  - by rewrite app_nil_r.
  - apply Forall_cons in Hall as [[_ [rs Hrs]] Hall].
    rewrite (collides_filter_cons r s ss rs Hrs).
    unfold bind at 1, getattr_rect. rewrite Hrs. simpl.
    destruct (colliderect r rs).
    + unfold bind at 1. simpl. rewrite IH by done. by rewrite <- app_assoc.
    + by apply IH.
Qed.

Lemma killed_step h h1 h' s K :
  (forall o, h1 o = if decide (o = s) then ∅ else delete s (h o)) ->
  killed h1 h' K -> killed h h' (s :: K).
Proof.
  intros Hh1 (Hempty & Hgone & Hsame).
  destruct (decide (s ∈ K)) as [HsK|HsK].
  { split_and!.
    - intros s' [->|?]%elem_of_cons; auto.
    - intros c s' [->|?]%elem_of_cons; auto.
    - intros x y Hx Hy. rewrite Hsame by set_solver.
      rewrite Hh1. rewrite decide_False by set_solver.
      apply lookup_delete_ne. set_solver. }
  assert (h' s = ∅) as Hs.
  { apply map_empty. intros y. destruct (decide (y ∈ K)); [auto|].
    rewrite Hsame by done. rewrite Hh1, decide_True by done. apply lookup_empty. }
  split_and!.
  - intros s' [->|?]%elem_of_cons; auto.
  - intros c s' [->|?]%elem_of_cons; [|auto].
    destruct (decide (c ∈ K)) as [HcK|HcK].
    + rewrite (Hempty c HcK). apply lookup_empty.
    + rewrite Hsame by done. rewrite Hh1. case_decide; [apply lookup_empty|].
      apply lookup_delete_eq.
  - intros x y Hx Hy. rewrite Hsame by set_solver.
    rewrite Hh1. rewrite decide_False by set_solver.
    apply lookup_delete_ne. set_solver.
Qed.

(** With [dokill] every colliding member is killed; the store stays
    symmetric, so each later [kill] returns as well. *)
Lemma collide_loop_true r ss : forall crashed h,
  Forall sprite_with_rect ss ->
  mutual h ->
  exists h',
    collide_loop r true ss crashed h =
    (Ok (crashed ++ filter (fun s => collides r s) ss), h') /\
    mutual h' /\
    killed h h' (filter (fun s => collides r s) ss).
Proof.
  induction ss as [|s ss IH]; intros crashed h Hall Hm; simpl.
  - exists h. rewrite app_nil_r. split_and!; [done|done|].
    split_and!; intros; set_solver.
  - apply Forall_cons in Hall as [[[i ->] [rs Hrs]] Hall].
    rewrite (collides_filter_cons r (Spr i) ss rs Hrs).
    unfold bind at 1, getattr_rect. rewrite Hrs. simpl.
    destruct (colliderect r rs).
    + destruct (Sprite_kill_spec i h Hm) as (h1 & Hkill & Hh1).
      pose proof (Sprite_kill_mutual i h Hm) as Hm1.
      unfold after in Hm1. rewrite Hkill in Hm1. simpl in Hm1.
      unfold bind at 1. rewrite Hkill.
      destruct (IH (crashed ++ [Spr i]) h1 Hall Hm1) as (h' & Hrun & Hm' & Hk).
      exists h'. rewrite Hrun, <- app_assoc. split_and!; [done|done|].
      by apply (killed_step h h1).
    + by apply IH.
Qed.

End CollideFacts.

(** ** Adding twice *)

Lemma links_Sprite_add s :
  links (Spr s) (fun g => add_internal g (Spr s) ;;; dict_setitem (Spr s) g 0).
Proof.
  intros b h. rewrite add_internal_eq. eexists. split; [reflexivity|].
  pose proof (link_lookup h b (Spr s)) as Hl. unfold after in Hl.
  split; [|intros o k Hk]; apply Hl; auto.
Qed.

Lemma links_Group_add g :
  links (Grp g) (fun s => dict_setitem (Grp g) s 0 ;;; add_internal s (Grp g)).
Proof.
  intros b h. rewrite add_internal_eq. eexists. split; [reflexivity|].
  pose proof (link_lookup h (Grp g) b) as Hl. unfold after in Hl.
  split; [|intros o k Hk]; apply Hl; auto.
Qed.

Lemma add_loop_noop a step l h :
  (forall x, x ∈ l -> is_Some (h a !! x)) ->
  add_loop a step l h = (Ok tt, h).
Proof.
  unfold add_loop. induction l as [|x l IH]; intros Hall; simpl; [done|].
  unfold bind at 1, bind at 1, dict_has_key.
  rewrite bool_decide_true by (apply Hall; set_solver). simpl.
  apply IH. intros y Hy. apply Hall. set_solver.
Qed.

Lemma add_loop_spec a step l :
  links a step ->
  forall h, exists h1,
    add_loop a step l h = (Ok tt, h1) /\
    (forall x, x ∈ l -> is_Some (h1 a !! x)) /\
    (forall o k, is_Some (h o !! k) -> is_Some (h1 o !! k)).
Proof.
  intros Hstep. unfold add_loop.
  induction l as [|x l IH]; intros h; simpl.
  - exists h. split_and!; [done| |done]. intros x Hx. set_solver.
  - unfold bind at 1, bind at 1, dict_has_key.
    destruct (decide (is_Some (h a !! x))) as [Hin|Hin].
    + rewrite bool_decide_true by done. simpl.
      destruct (IH h) as (h1 & Hrun & Hall & Hmono).
      exists h1. split_and!; [done| |done].
      intros y [->|Hy]%elem_of_cons; auto.
    + rewrite bool_decide_false by done. simpl.
      destruct (Hstep x h) as (h0 & Hs & Hx & Hmono0). rewrite Hs.
      destruct (IH h0) as (h1 & Hrun & Hall & Hmono).
      exists h1. split_and!; [done| |by auto].
      intros y [->|Hy]%elem_of_cons; auto.
Qed.

(** [add] with one group, and with a sequence. *)
Lemma Sprite_add_single s g h :
  Sprite_add s (VObj (Grp g)) h =
  (Ok tt,
   if bool_decide (is_Some (h (Spr s) !! Grp g)) then h
   else after (dict_setitem (Grp g) (Spr s) 0 ;;;
               dict_setitem (Spr s) (Grp g) 0) h).
Proof.
  unfold Sprite_add; simpl. unfold bind at 1, dict_has_key.
  by destruct (bool_decide _).
Qed.

Lemma Sprite_add_seq s l :
  Sprite_add s (VSeq l) =
  add_loop (Spr s)
    (fun g => add_internal g (Spr s) ;;; dict_setitem (Spr s) g 0) l.
Proof. reflexivity. Qed.

Lemma Group_add_single g g' h :
  Group_add g (VObj (Grp g')) h =
  (Ok tt,
   if bool_decide (is_Some (h (Grp g) !! Grp g')) then h
   else after (dict_setitem (Grp g) (Grp g') 0 ;;;
               dict_setitem (Grp g') (Grp g) 0) h).
Proof.
  unfold Group_add; simpl. unfold bind at 1, dict_has_key.
  by destruct (bool_decide _).
Qed.

Lemma Group_add_seq g l :
  Group_add g (VSeq l) =
  add_loop (Grp g)
    (fun s => dict_setitem (Grp g) s 0 ;;; add_internal s (Grp g)) l.
Proof. reflexivity. Qed.

(** A second call of [add] with the same argument has the outcome of the
    first and changes nothing. *)
Lemma Sprite_add_twice s v h :
  Sprite_add s v (after (Sprite_add s v) h) =
  ((Sprite_add s v h).1, after (Sprite_add s v) h).
Proof.
  destruct v as [[i|g]|l].
  - reflexivity.
  - unfold after. rewrite !Sprite_add_single. simpl.
    destruct (decide (is_Some (h (Spr s) !! Grp g))) as [Hin|Hin].
    + by rewrite !(bool_decide_true _ Hin).
    + rewrite !(bool_decide_false _ Hin).
      rewrite bool_decide_true; [done|]. apply link_lookup. auto.
  - unfold after. rewrite Sprite_add_seq.
    destruct (add_loop_spec (Spr s) _ l (links_Sprite_add s) h)
      as (h1 & Hrun & Hall & _).
    rewrite Hrun. simpl. by apply add_loop_noop.
Qed.

Lemma Group_add_twice g v h :
  Group_add g v (after (Group_add g v) h) =
  ((Group_add g v h).1, after (Group_add g v) h).
Proof.
  destruct v as [[i|g']|l].
  - reflexivity.
  - unfold after. rewrite !Group_add_single. simpl.
    destruct (decide (is_Some (h (Grp g) !! Grp g'))) as [Hin|Hin].
    + by rewrite !(bool_decide_true _ Hin).
    + rewrite !(bool_decide_false _ Hin).
      rewrite bool_decide_true; [done|]. apply link_lookup. auto.
  - unfold after. rewrite Group_add_seq.
    destruct (add_loop_spec (Grp g) _ l (links_Group_add g) h)
      as (h1 & Hrun & Hall & _).
    rewrite Hrun. simpl. by apply add_loop_noop.
Qed.

(** ** The scene *)

Lemma mutual_scene0 : mutual scene0.
Proof.
  unfold scene0. apply Sprite___init___mutual; [|reflexivity].
  apply Group___init___mutual; [apply mutual_empty_heap|reflexivity].
Qed.

Lemma mutual_scene1 : mutual scene1.
Proof.
  unfold scene1. apply Group___init___mutual; [apply mutual_scene0|].
  vm_compute. reflexivity.
Qed.

Lemma member_scene0 : member scene0 0 0.
Proof. split; exists 0; vm_compute; reflexivity. Qed.

Example scene0_groups : Sprite_groups 0 scene0 = (Ok [Grp 0], scene0).
Proof. vm_compute. reflexivity. Qed.

Example scene0_loop : Group_loop 0 scene0 = (Ok [Spr 0], scene0).
Proof. vm_compute. reflexivity. Qed.

(** [Group(s)] and [g.add(s)] with one Sprite: the sprite has no
    [_spritegroup] attribute, so line 228 iterates over it. *)
Example Group_add_one_sprite :
  Group_add 1 (VObj (Spr 1)) scene0 = (Raise TypeError, scene0).
Proof. reflexivity. Qed.

(** [s.remove([g])] takes the branch of line 144 and removes both
    sides. *)
Example Sprite_remove_sequence :
  exists h',
    Sprite_remove 0 (VSeq [Grp 0]) scene0 = (Ok tt, h') /\
    h' (Grp 0) !! Spr 0 = None /\ h' (Spr 0) !! Grp 0 = None.
Proof. eexists. repeat split; vm_compute; reflexivity. Qed.

(** ** Statements about sprite.py *)

(** C1.  The mutual-membership invariant (s is a key of g.spritedict iff
    g is a key of s's dictionary) holds initially and after
    [g = Group(); s = Sprite(g)], but [s.remove(g)] breaks it: the call
    deletes s from g.spritedict, then raises UnboundLocalError at line
    142 with g still a key of s's dictionary.  A later call that returns
    normally, [s.add(())], leaves the store in that state.  Every other
    path keeps the relation symmetric, whether it returns or raises:
    [Sprite.add], [Sprite.kill], [Group.add], [Group.remove],
    [Group.empty], and [Sprite.remove] with anything but a single
    group. *)
Theorem Sprite_remove_breaks_membership_invariant :
  membership_invariant empty_heap /\
  membership_invariant scene0 /\
  (exists h',
     Sprite_remove 0 (VObj (Grp 0)) scene0 = (Raise UnboundLocalError, h') /\
     h' (Grp 0) !! Spr 0 = None /\
     h' (Spr 0) !! Grp 0 = Some 0 /\
     ~ membership_invariant h' /\
     Sprite_add 0 (VSeq []) h' = (Ok tt, h')) /\
  (forall h, mutual h -> membership_invariant h) /\
  (forall s v, preserves mutual (Sprite_add s v)) /\
  (forall s, preserves mutual (Sprite_kill s)) /\
  (forall g v, preserves mutual (Group_add g v)) /\
  (forall g v, preserves mutual (Group_remove g v)) /\
  (forall g, preserves mutual (Group_empty g)) /\
  (forall s v, hasattr__spritegroup v = None ->
               preserves mutual (Sprite_remove s v)).
Proof.
  split; [apply mutual_membership, mutual_empty_heap|].
  split; [apply mutual_membership, mutual_scene0|].
  split.
  { eexists. split; [rewrite Sprite_remove_single; vm_compute; reflexivity|].
    split; [vm_compute; reflexivity|].
    split; [vm_compute; reflexivity|].
    split; [|reflexivity].
    intros Hinv. destruct (proj2 (Hinv 0%nat 0%nat)) as [v Hv].
    - exists 0. vm_compute. reflexivity.
    - vm_compute in Hv. discriminate. }
  split_and!;
    auto using mutual_membership, Sprite_add_mutual, Sprite_kill_mutual,
               Group_add_mutual, Group_remove_mutual, Group_empty_mutual,
               Sprite_remove_mutual.
Qed.

(** C2.  For a sprite s that is a member of the single group g,
    [s.remove(g)] does not return normally: it raises UnboundLocalError
    after [g.remove_internal(s)], so s is gone from g.spritedict while g
    is still a key of s's dictionary.  (When g is not a key of s's
    dictionary the call returns and changes nothing.) *)
Theorem Sprite_remove_single_group_raises (h : heap) (s g : nat) :
  member h s g ->
  exists h',
    Sprite_remove s (VObj (Grp g)) h = (Raise UnboundLocalError, h') /\
    h' (Grp g) !! Spr s = None /\
    h' (Spr s) !! Grp g = h (Spr s) !! Grp g /\
    (forall h0, h0 (Spr s) !! Grp g = None ->
                Sprite_remove s (VObj (Grp g)) h0 = (Ok tt, h0)).
Proof.
  intros [[v Hv] [v' Hv']]. eexists. split_and!.
  - rewrite Sprite_remove_single, Hv, Hv'. reflexivity.
  - rewrite upd_eq. apply lookup_delete_eq.
  - by rewrite upd_ne.
  - intros h0 H0. by rewrite Sprite_remove_single, H0.
Qed.

Lemma Sprite_remove_single_group_raises_witness :
  exists h',
    Sprite_remove 0 (VObj (Grp 0)) scene0 = (Raise UnboundLocalError, h') /\
    h' (Grp 0) !! Spr 0 = None /\
    h' (Spr 0) !! Grp 0 = Some 0.
Proof.
  destruct (Sprite_remove_single_group_raises scene0 0 0)
    as (h' & Hrun & Hg & Hs & _).
  - split; exists 0; vm_compute; reflexivity.
  - exists h'. split_and!; [done|done|].
    rewrite Hs. vm_compute. reflexivity.
Defined.

(** C3.  [g.remove(sprite)] never returns normally and never removes
    anything: for every group, every argument and every store it raises
    UnboundLocalError at line 239 and leaves the store as it was. *)
Theorem Group_remove_raises (g : nat) (sprite : value) (h : heap) :
  Group_remove g sprite h = (Raise UnboundLocalError, h).
Proof. apply Group_remove_eq. Qed.

(** C4.  [g.has(sprite)] never returns a truth value: for every group,
    every argument and every store it raises UnboundLocalError at line
    262; the store is left as it was. *)
Theorem Group_has_raises (g : nat) (sprite : value) (h : heap) :
  Group_has g sprite h = (Raise UnboundLocalError, h).
Proof. apply Group_has_eq. Qed.

(** C5.  Adding is idempotent.  When s is already a member of g, then
    [s.add(g)], [s.add(gs)] for a sequence of groups that s already
    lists, and [g.add(ss)] for a sequence of sprites that g already
    holds return with the store unchanged, and [g.add(s)] leaves the
    store unchanged as well (with a single Sprite it raises TypeError).
    Calling any [add] a second time with the same argument changes
    nothing.  After any sequence of adds, [g.loop()] and [s.groups()]
    list every object at most once. *)
Theorem add_is_idempotent (h : heap) (s g : nat) (gs ss : list obj) :
  member h s g ->
  (forall x, x ∈ gs -> is_Some (h (Spr s) !! x)) ->
  (forall y, y ∈ ss -> is_Some (h (Grp g) !! y)) ->
  Sprite_add s (VObj (Grp g)) h = (Ok tt, h) /\
  Sprite_add s (VSeq gs) h = (Ok tt, h) /\
  Group_add g (VSeq ss) h = (Ok tt, h) /\
  Group_add g (VObj (Spr s)) h = (Raise TypeError, h) /\
  (forall v h0, Sprite_add s v (after (Sprite_add s v) h0) =
                ((Sprite_add s v h0).1, after (Sprite_add s v) h0)) /\
  (forall v h0, Group_add g v (after (Group_add g v) h0) =
                ((Group_add g v h0).1, after (Group_add g v) h0)) /\
  (forall cs h0 i,
     let h1 := run_adds cs h0 in
     (exists l, Group_loop i h1 = (Ok l, h1) /\ NoDup l) /\
     (exists l, Sprite_groups i h1 = (Ok l, h1) /\ NoDup l)).
Proof.
  intros [Hg Hs] Hgs Hss. split_and!.
  - rewrite Sprite_add_single. by rewrite bool_decide_true.
  - rewrite Sprite_add_seq. by apply add_loop_noop.
  - rewrite Group_add_seq. by apply add_loop_noop.
  - reflexivity.
  - intros v h0. apply Sprite_add_twice.
  - intros v h0. apply Group_add_twice.
  - intros cs h0 i h1. split; eexists; (split; [reflexivity|apply NoDup_keys]).
Qed.

Lemma add_is_idempotent_witness :
  Sprite_add 0 (VObj (Grp 0)) scene0 = (Ok tt, scene0) /\
  Sprite_add 0 (VSeq [Grp 0]) scene0 = (Ok tt, scene0) /\
  Group_add 0 (VSeq [Spr 0]) scene0 = (Ok tt, scene0) /\
  Group_add 0 (VObj (Spr 0)) scene0 = (Raise TypeError, scene0).
Proof.
  destruct (add_is_idempotent scene0 0 0 [Grp 0] [Spr 0])
    as (H1 & H2 & H3 & H4 & _).
  - split; exists 0; vm_compute; reflexivity.
  - intros x Hx. apply list_elem_of_singleton in Hx. subst x.
    exists 0. vm_compute. reflexivity.
  - intros y Hy. apply list_elem_of_singleton in Hy. subst y.
    exists 0. vm_compute. reflexivity.
  - exact (conj H1 (conj H2 (conj H3 H4))).
Defined.




End SpriteFacts.

Module SurfarrayFacts.
Import Surfarray.

(** ** The model on small inputs *)

Example findall_drops_the_tail :
  findall 2 [Byte.x01; Byte.x02; Byte.x03] = [[Byte.x01; Byte.x02]].
Proof. reflexivity. Qed.

Example findall_empty_pattern :
  findall 0 [Byte.x01; Byte.x02] = [[]; []; []].
Proof. reflexivity. Qed.

Example join_three :
  join [NUL] [[Byte.x01]; [Byte.x02]; [Byte.x03]]
  = [Byte.x01; NUL; Byte.x02; NUL; Byte.x03].
Proof. reflexivity. Qed.

(** A 1x2 24-bit surface with one byte of padding per row: the padding
    goes, and every pixel gets a zero byte, after it on a little-endian
    machine and before it on a big-endian one. *)
Example array2d_rgb_little_endian :
  array2d (Some Numeric) true rgb_surface =
  Ok {| ar_data := [Byte.x01; Byte.x02; Byte.x03; NUL;
                    Byte.x04; Byte.x05; Byte.x06; NUL];
        ar_type := UInt32; ar_shape := [1; 2]; ar_strides := [4; 4] |}.
Proof. reflexivity. Qed.

Example array2d_rgb_big_endian :
  array2d (Some Numeric) false rgb_surface =
  Ok {| ar_data := [NUL; Byte.x01; Byte.x02; Byte.x03;
                    NUL; Byte.x04; Byte.x05; Byte.x06];
        ar_type := UInt32; ar_shape := [1; 2]; ar_strides := [4; 4] |}.
Proof. reflexivity. Qed.

Example array2d_without_array_module :
  array2d None true rgb_surface = Raise ImportError.
Proof. reflexivity. Qed.

Local Open Scope nat_scope.

(** ** Chunks of a string *)

(** The matches of [n] dots are the successive [n]-byte pixels. *)
Lemma findall_from_spec (n : nat) : forall (fuel : nat) (s : bytes),
  0 < n -> length s < fuel ->
  findall_from fuel n s = pixel n s <$> seq 0 (length s / n).
Proof.
  induction fuel as [|fuel IH]; intros s Hn Hfuel; [lia|]. simpl.
  destruct (Nat.ltb_spec (length s) n) as [Hlt|Hge].
  - by rewrite Nat.div_small.
  - rewrite IH by (rewrite ?length_drop; lia). rewrite length_drop.
    replace (length s / n) with (S ((length s - n) / n)).
    2:{ replace (length s) with ((length s - n) + 1 * n) at 2 by lia.
        rewrite Nat.div_add by lia. lia. }
    rewrite <- cons_seq, <- fmap_S_seq. simpl. f_equal.
    rewrite <- list_fmap_compose. apply list_fmap_ext. intros i x _. simpl.
    unfold pixel. rewrite drop_drop. do 2 f_equal; lia.
Qed.

Lemma findall_spec (n : nat) (s : bytes) :
  0 < n -> findall n s = pixel n s <$> seq 0 (length s / n).
Proof.
  intros Hn. destruct n as [|n]; [lia|]. unfold findall.
  apply findall_from_spec; lia.
Qed.

Lemma findall_group_spec (keep post : nat) (s : bytes) :
  0 < keep + post ->
  findall_group 0 keep post s =
  (fun i => take keep (drop (i * (keep + post)) s))
    <$> seq 0 (length s / (keep + post)).
Proof.
  intros Hn. unfold findall_group. simpl. rewrite findall_spec by done.
  rewrite <- list_fmap_compose. apply list_fmap_ext. intros i x _. simpl.
  unfold pixel. rewrite drop_0, take_take. f_equal. lia.
Qed.

(** Cutting a string of [k] chunks into its chunks and gluing them gives
    the string back. *)
Lemma concat_pixels (n k : nat) : forall s : bytes,
  length s = k * n -> concat (pixel n s <$> seq 0 k) = s.
Proof.
  induction k as [|k IH]; intros s Hlen; simpl.
  - destruct s; [done|simpl in Hlen; lia].
  - rewrite <- fmap_S_seq, <- list_fmap_compose.
    rewrite <- (take_drop n s) at 3. f_equal.
    rewrite <- (IH (drop n s)) by (rewrite length_drop; lia).
    f_equal. apply list_fmap_ext. intros i x _. simpl.
    unfold pixel. rewrite drop_drop. do 2 f_equal; lia.
Qed.

Lemma length_concat_const {A : Type} (n : nat) (ls : list (list A)) :
  Forall (fun l => length l = n) ls -> length (concat ls) = length ls * n.
Proof.
  induction 1 as [|l ls Hl _ IH]; simpl; [done|].
  rewrite length_app, IH, Hl. lia.
Qed.

(** ** Joining with a separator *)

Lemma join_cons (sep x : bytes) (l : list bytes) :
  l <> [] -> join sep (x :: l) = x ++ sep ++ join sep l.
Proof. by destruct l. Qed.

Lemma join_then_sep (sep : bytes) (l : list bytes) :
  l <> [] -> join sep l ++ sep = concat ((fun x => x ++ sep) <$> l).
Proof.
  induction l as [|x l IH]; intros Hne; [done|].
  destruct l as [|y l].
  - simpl. by rewrite app_nil_r.
  - rewrite join_cons by done. rewrite fmap_cons, concat_cons.
    rewrite <- IH by done. by rewrite <- !app_assoc.
Qed.

Lemma sep_then_join (sep : bytes) (l : list bytes) :
  l <> [] -> sep ++ join sep l = concat ((fun x => sep ++ x) <$> l).
Proof.
  induction l as [|x l IH]; intros Hne; [done|].
  destruct l as [|y l].
  - simpl. by rewrite !app_nil_r.
  - rewrite join_cons by done. rewrite fmap_cons, concat_cons.
    rewrite <- IH by done. by rewrite <- !app_assoc.
Qed.

Local Close Scope nat_scope.

(** ** array2d on a surface that has pixels *)

Lemma length_pixels_nat surf :
  wf_surface surf ->
  length (pixels surf) = (Z.to_nat (h surf) * Z.to_nat (pitch surf))%nat.
Proof.
  intros (Hw & Hh & Hp & Hlen).
  apply Nat2Z.inj. rewrite Hlen, Nat2Z.inj_mul, Z2Nat.id by lia.
  destruct (Z.le_gt_cases 0 (pitch surf)); [rewrite Z2Nat.id; lia|].
  assert (h surf = 0) as -> by nia. lia.
Qed.

Lemma length_row surf y :
  wf_surface surf -> 0 <= BytesPerPixel surf ->
  (y < Z.to_nat (h surf))%nat ->
  length (row surf y) = Z.to_nat (w surf * BytesPerPixel surf).
Proof.
  intros Hwf Hbpp Hy. pose proof (length_pixels_nat surf Hwf) as Hlen.
  destruct Hwf as (Hw & Hh & Hp & _).
  unfold row. rewrite length_take, length_drop, Hlen.
  apply Nat.min_l.
  assert (Z.to_nat (w surf * BytesPerPixel surf) <= Z.to_nat (pitch surf))%nat
    by lia.
  nia.
Qed.

Lemma length_pixel_bytes surf :
  wf_surface surf -> 0 <= BytesPerPixel surf ->
  length (pixel_bytes surf) =
  (Z.to_nat (h surf) * Z.to_nat (w surf * BytesPerPixel surf))%nat.
Proof.
  intros Hwf Hbpp. unfold pixel_bytes.
  rewrite (length_concat_const (Z.to_nat (w surf * BytesPerPixel surf))).
  - by rewrite length_fmap, length_seq.
  - apply Forall_fmap, Forall_forall. intros y Hy%elem_of_seq. simpl.
    apply length_row; [done|done|lia].
Qed.

(** Lines 129-134 return the rows without their padding. *)
Lemma remove_pitch_spec surf :
  wf_surface surf -> 0 < BytesPerPixel surf ->
  remove_pitch surf (BytesPerPixel surf) (pixels surf) = pixel_bytes surf.
Proof.
  intros Hwf Hbpp. pose proof (length_pixels_nat surf Hwf) as Hlen.
  destruct Hwf as (Hw & Hh & Hp & _).
  unfold remove_pitch, pixel_bytes, dots.
  assert (Z.to_nat (w surf) * Z.to_nat (BytesPerPixel surf) =
          Z.to_nat (w surf * BytesPerPixel surf))%nat as HW
    by (rewrite Z2Nat.inj_mul; lia).
  rewrite HW.
  destruct (Z.gtb_spec (pitch surf - w surf * BytesPerPixel surf) 0) as [Hd|Hd].
  - assert (Z.to_nat (w surf * BytesPerPixel surf) +
            Z.to_nat (pitch surf - w surf * BytesPerPixel surf) =
            Z.to_nat (pitch surf))%nat as HP by lia.
    rewrite findall_group_spec by lia. rewrite HP, Hlen.
    rewrite Nat.div_mul by lia. done.
  - assert (pitch surf = w surf * BytesPerPixel surf) as HP by lia.
    symmetry. etransitivity; [|apply (concat_pixels (Z.to_nat (pitch surf))
                                       (Z.to_nat (h surf)) _ Hlen)].
    f_equal. apply list_fmap_ext. intros i y _. unfold row, pixel.
    by rewrite HP.
Qed.

(** Lines 141-147 widen every pixel, provided there is at least one. *)
Lemma pad_triplets_spec lil_endian (data : bytes) (n : nat) :
  length data = (n * 3)%nat -> (0 < n)%nat ->
  pad_triplets lil_endian data =
  concat ((fun i => widen lil_endian (pixel 3 data i)) <$> seq 0 n).
Proof.
  intros Hlen Hn. unfold pad_triplets.
  rewrite findall_spec by lia. rewrite Hlen, Nat.div_mul by lia.
  assert (pixel 3 data <$> seq 0 n <> []) as Hne.
  { destruct n; [lia|]. done. }
  destruct lil_endian.
  - rewrite join_then_sep by done. by rewrite <- list_fmap_compose.
  - rewrite sep_then_join by done. by rewrite <- list_fmap_compose.
Qed.

Lemma length_widened lil_endian (data : bytes) (n : nat) :
  length data = (n * 3)%nat ->
  length (concat ((fun i => widen lil_endian (pixel 3 data i)) <$> seq 0 n))
  = (n * 4)%nat.
Proof.
  intros Hlen. rewrite (length_concat_const 4).
  - by rewrite length_fmap, length_seq.
  - apply Forall_fmap, Forall_forall. intros i Hi%elem_of_seq. simpl.
    assert (length (pixel 3 data i) = 3%nat) as Hpx.
    { unfold pixel. rewrite length_take, length_drop. lia. }
    unfold widen. destruct lil_endian; simpl; rewrite ?length_app, Hpx; simpl; lia.
Qed.

(** What the claim about [array2d] says, on every surface except a
    3-bytes-per-pixel surface without pixels: the array has shape
    (w, h), its data are the pixel bytes without row padding, with each
    3-byte pixel widened by a zero byte at the most significant end, and
    the strides are (bpp, bpp * w) for the widened bpp. *)
Lemma array2d_spec (m : array_module) (lil_endian : bool) (surf : SDL_Surface) :
  wf_surface surf ->
  m ∈ [numpy; numarray; Numeric] ->
  1 <= BytesPerPixel surf <= 4 ->
  (BytesPerPixel surf = 3 -> 0 < w surf * h surf) ->
  exists t,
    array2d (Some m) lil_endian surf =
    Ok {| ar_data := array_bytes lil_endian surf;
          ar_type := t;
          ar_shape := [w surf; h surf];
          ar_strides := [array_bpp surf; array_bpp surf * w surf] |} /\
    itemsize t = array_bpp surf /\
    Z.of_nat (length (array_bytes lil_endian surf)) =
    array_bpp surf * w surf * h surf.
Proof.
  intros Hwf Hm Hbpp Hne.
  pose proof (length_pixel_bytes surf Hwf ltac:(lia)) as Hlen.
  pose proof (remove_pitch_spec surf Hwf ltac:(lia)) as Hrows.
  destruct Hwf as (Hw & Hh & Hp & _).
  assert (Z.of_nat (length (pixel_bytes surf)) =
          BytesPerPixel surf * w surf * h surf) as HlenZ.
  { rewrite Hlen, Nat2Z.inj_mul, !Z2Nat.id by lia. lia. }
  unfold array2d, array_bytes, array_bpp. simpl.
  destruct (Z.leb_spec (BytesPerPixel surf) 0); [lia|].
  destruct (Z.gtb_spec (BytesPerPixel surf) 4); [lia|]. simpl.
  rewrite Hrows.
  assert (BytesPerPixel surf = 1 \/ BytesPerPixel surf = 2 \/
          BytesPerPixel surf = 3 \/ BytesPerPixel surf = 4) as Hcases by lia.
  assert (match m with other_module _ _ => False | _ => True end) as Hknown.
  { repeat (apply elem_of_cons in Hm as [->|Hm]; [done|]). by apply elem_of_nil in Hm. }
  destruct Hcases as [Hb|[Hb|[Hb|Hb]]]; rewrite Hb in *; simpl.
  - rewrite (proj2 (Z.eqb_eq _ _) HlenZ). simpl.
    exists UInt8. by destruct m.
  - rewrite (proj2 (Z.eqb_eq _ _) HlenZ). simpl.
    exists UInt16. by destruct m.
  - specialize (Hne eq_refl).
    assert (length (pixel_bytes surf) = (Z.to_nat (w surf * h surf) * 3)%nat)
      as Hlen3 by lia.
    rewrite (pad_triplets_spec lil_endian _ _ Hlen3) by lia.
    pose proof (length_widened lil_endian _ _ Hlen3) as Hlen4.
    assert (Z.of_nat (length (concat
              ((fun i => widen lil_endian (pixel 3 (pixel_bytes surf) i))
                 <$> seq 0 (Z.to_nat (w surf * h surf))))) =
            4 * w surf * h surf) as Hlen4Z by lia.
    rewrite (proj2 (Z.eqb_eq _ _) Hlen4Z). simpl.
    exists UInt32. by destruct m.
  - rewrite (proj2 (Z.eqb_eq _ _) HlenZ). simpl.
    exists UInt32. by destruct m.
Qed.

(** ** array2d on a 3-bytes-per-pixel surface without pixels *)

(** With no triplet to join, lines 143-147 still add their one zero byte. *)
Lemma pad_triplets_nil lil_endian : pad_triplets lil_endian [] = [NUL].
Proof. by destruct lil_endian. Qed.

(** Every well-formed 24-bit surface of width or height 0 fails the
    assertion of line 155, with a module that has the name [UInt32]. *)
Lemma array2d_no_pixels (m : array_module) (lil_endian : bool) (surf : SDL_Surface) :
  has_type m "UInt32" = true ->
  wf_surface surf ->
  BytesPerPixel surf = 3 ->
  w surf * h surf = 0 ->
  array2d (Some m) lil_endian surf = Raise AssertionError.
Proof.
  intros Hm Hwf Hbpp Hwh.
  pose proof (length_pixel_bytes surf Hwf ltac:(lia)) as Hlen.
  pose proof (remove_pitch_spec surf Hwf ltac:(lia)) as Hrows.
  assert (pixel_bytes surf = []) as Hnil.
  { apply length_zero_iff_nil. rewrite Hlen, Hbpp.
    destruct Hwf as (Hw & Hh & _). nia. }
  unfold array2d. simpl. rewrite Hbpp in *. simpl. rewrite Hm. simpl.
  rewrite Hrows, Hnil, pad_triplets_nil. simpl.
  replace (4 * w surf * h surf) with 0 by lia. done.
Qed.

Example array2d_empty_rgb_surface :
  wf_surface empty_rgb_surface /\
  forall m lil_endian,
    has_type m "UInt32" = true ->
    array2d (Some m) lil_endian empty_rgb_surface = Raise AssertionError.
Proof.
  split; [unfold wf_surface; simpl; lia|].
  intros m lil_endian Hm. by apply array2d_no_pixels.
Qed.

(** ** array2d with another module *)

(** A module without the type name raises AttributeError where the name
    is read (lines 136-150); a module with the name goes on to line 171,
    where [ar] was never bound. *)
Example array2d_with_another_module :
  array2d (Some (other_module "array" [])) true gray_surface
  = Raise AttributeError /\
  array2d (Some (other_module "mine" ["UInt8"])) true gray_surface
  = Raise UnboundLocalError.
Proof. split; vm_compute; reflexivity. Qed.

(** A bit depth outside 1..4 is refused at line 123. *)
Lemma array2d_bad_depth (m : array_module) (lil_endian : bool) (surf : SDL_Surface) :
  BytesPerPixel surf <= 0 \/ BytesPerPixel surf > 4 ->
  array2d (Some m) lil_endian surf = Raise ValueError.
Proof.
  intros Hb. unfold array2d. simpl.
  destruct (Z.leb_spec (BytesPerPixel surf) 0); [done|].
  destruct (Z.gtb_spec (BytesPerPixel surf) 4); [done|lia].
Qed.

(** ** blit_array after array2d *)

Local Open Scope nat_scope.

(** The chunk [y] of a string glued from [k] pieces of [n] bytes is the
    piece [y]. *)
Lemma drop_concat_const (n : nat) (f : nat -> bytes) (y : nat) :
  forall a k,
    (forall i, a <= i < a + k -> length (f i) = n) ->
    y <= k ->
    drop (y * n) (concat (f <$> seq a k)) = concat (f <$> seq (a + y) (k - y)).
Proof.
  induction y as [|y IH]; intros a k Hlen Hy.
  - simpl. rewrite drop_0. do 3 f_equal; lia.
  - destruct k as [|k]; [lia|]. simpl.
    rewrite <- drop_drop.
    rewrite drop_app_length' by (symmetry; apply Hlen; lia).
    rewrite IH by (try (intros i Hi; apply Hlen); lia).
    do 3 f_equal; lia.
Qed.

Lemma pixel_concat_const (n : nat) (f : nat -> bytes) (k y : nat) :
  (forall i, i < k -> length (f i) = n) ->
  y < k ->
  exists rest, drop (y * n) (concat (f <$> seq 0 k)) = f y ++ rest.
Proof.
  intros Hlen Hy.
  rewrite (drop_concat_const n f y 0 k) by (try (intros i Hi; apply Hlen); lia).
  replace (k - y) with (S (k - S y)) by lia. simpl. eauto.
Qed.

Local Close Scope nat_scope.

(** *** The buffer with zeroed padding *)

Section Repadded.

Variable surf : SDL_Surface.
Hypothesis Hwf : wf_surface surf.
Hypothesis Hbpp : 0 < BytesPerPixel surf.

Let W : nat := Z.to_nat (w surf * BytesPerPixel surf).
Let P : nat := Z.to_nat (pitch surf).
Let R : nat := Z.to_nat (h surf).
Let padded_row (y : nat) : bytes :=
  row surf y ++
  replicate (Z.to_nat (pitch surf - w surf * BytesPerPixel surf)) NUL.

Lemma length_padded_row y : (y < R)%nat -> length (padded_row y) = P.
Proof using Hwf Hbpp.
  intros Hy. unfold padded_row.
  rewrite length_app, length_replicate, length_row by (done || lia).
  destruct Hwf as (Hw & _ & Hp & _). unfold P.
  assert (0 <= w surf * BytesPerPixel surf) by nia. lia.
Qed.

Lemma length_repadded : length (repadded surf) = length (pixels surf).
Proof using Hwf Hbpp.
  unfold repadded. fold padded_row R.
  rewrite (length_concat_const P).
  - by rewrite length_fmap, length_seq, length_pixels_nat.
  - apply Forall_fmap, Forall_forall. intros y Hy%elem_of_seq. simpl.
    apply length_padded_row. lia.
Qed.

(** Zeroing the padding leaves every pixel byte where it was. *)
Lemma pixel_bytes_repadded :
  pixel_bytes (with_pixels surf (repadded surf)) = pixel_bytes surf.
Proof using Hwf Hbpp.
  unfold pixel_bytes; simpl. fold R.
  f_equal. apply list_fmap_ext. intros i y Hy.
  apply lookup_seq in Hy as [-> Hy]. simpl.
  unfold row at 1; simpl. fold W P. unfold repadded. fold padded_row R.
  destruct (pixel_concat_const P padded_row R i length_padded_row Hy)
    as [rest ->].
  unfold padded_row. rewrite <- app_assoc.
  rewrite take_app_length'; [done|]. symmetry. apply length_row; [done|lia|done].
Qed.

(** Without padding there is nothing to zero. *)
Lemma repadded_without_padding :
  pitch surf = w surf * BytesPerPixel surf -> repadded surf = pixels surf.
Proof using Hwf Hbpp.
  intros Hp. transitivity (pixel_bytes surf).
  - unfold repadded, pixel_bytes.
    replace (pitch surf - w surf * BytesPerPixel surf) with 0 by lia. simpl.
    f_equal. apply list_fmap_ext. intros i y _. simpl. apply app_nil_r.
  - rewrite <- (remove_pitch_spec surf Hwf Hbpp). unfold remove_pitch.
    rewrite Z.gtb_ltb. by rewrite (proj2 (Z.ltb_ge _ _)) by lia.
Qed.

(** [blit_array] with an array of the shape of the surface, of elements
    as wide as its pixels, for which [tostring] returns the pixel bytes
    of the surface: the buffer is written with zeroed padding. *)
Lemma blit_array_writes_repadded
    (m : array_module) (lil_endian : bool) (tostring : ndarray -> bytes)
    (a : ndarray) :
  BytesPerPixel surf <= 4 ->
  0 < w surf -> 0 < h surf ->
  ar_shape a = [w surf; h surf] ->
  itemsize (ar_type a) = BytesPerPixel surf ->
  tostring a = pixel_bytes surf ->
  blit_array (Some m) lil_endian tostring surf a = (Ok tt, repadded surf).
Proof using Hwf Hbpp.
  intros Hb4 Hw Hh Hshape Ht Hts.
  pose proof (length_pixel_bytes surf Hwf ltac:(lia)) as Hlen.
  pose proof Hwf as (_ & _ & Hp & _).
  unfold blit_array. simpl. rewrite Hshape. simpl.
  rewrite !Z.eqb_refl. simpl.
  destruct (Z.leb_spec (BytesPerPixel surf) 0) as [?|Hb0]; [lia|].
  destruct (Z.gtb_spec (BytesPerPixel surf) 4) as [?|Hb4']; [lia|]. simpl.
  unfold resize_pixels. rewrite Ht, Hts.
  rewrite Z.gtb_ltb, Z.ltb_irrefl.
  assert (dots (w surf) * dots (BytesPerPixel surf) = W)%nat as HW
    by (unfold dots, W; rewrite Z2Nat.inj_mul; lia).
  assert (0 < W)%nat as HWpos by (unfold W; nia).
  assert (0 < R)%nat as HRpos by (unfold R; lia).
  assert (add_pitch surf (BytesPerPixel surf) (pixel_bytes surf)
          = repadded surf) as ->.
  { unfold add_pitch. rewrite HW.
    destruct (Z.gtb_spec (pitch surf - w surf * BytesPerPixel surf) 0)
      as [Hd|Hd].
    - rewrite findall_spec by done. fold W in Hlen. fold R in Hlen.
      rewrite Hlen, Nat.div_mul by lia.
      assert (pixel W (pixel_bytes surf) <$> seq 0 R = row surf <$> seq 0 R)
        as ->.
      { apply list_fmap_ext. intros i y Hy.
        apply lookup_seq in Hy as [-> Hy]. simpl.
        unfold pixel, pixel_bytes. fold R.
        destruct (pixel_concat_const W (row surf) R i) as [rest ->];
          [intros j Hj; apply length_row; [done|lia|done]|done|].
        rewrite take_app_length'; [done|].
        symmetry. apply length_row; [done|lia|done]. }
      rewrite join_then_sep by (destruct R; [lia|done]).
      by rewrite <- list_fmap_compose.
    - rewrite repadded_without_padding by lia.
      rewrite <- (remove_pitch_spec surf Hwf Hbpp). unfold remove_pitch.
      rewrite Z.gtb_ltb. by rewrite (proj2 (Z.ltb_ge _ _)) by lia. }
  unfold memmove. by rewrite firstn_all, length_repadded, drop_all, app_nil_r.
Qed.

End Repadded.

(** ** A stride-following [tostring] on a surface of one row *)

(** With a single row the index order is the order of the string: the
    array that [array2d] builds for a surface of one row is listed by
    [tostring_strided] as the string it was built from. *)
Lemma tostring_strided_on_one_row
    (m : array_module) (lil_endian : bool) (surf : SDL_Surface) (a : ndarray) :
  wf_surface surf ->
  m ∈ [numpy; numarray; Numeric] ->
  1 <= BytesPerPixel surf <= 4 ->
  0 < w surf -> h surf = 1 ->
  array2d (Some m) lil_endian surf = Ok a ->
  tostring_strided a = ar_data a.
Proof.
  intros Hwf Hm Hb Hw Hh Ha.
  destruct (array2d_spec m lil_endian surf Hwf Hm Hb ltac:(lia))
    as (t & Hrun & Ht & Hlen).
  rewrite Hrun in Ha. injection Ha as <-.
  unfold tostring_strided. cbn [ar_shape ar_strides ar_data ar_type].
  rewrite Hh. cbn [elements_in_index_order].
  change (Z.to_nat 1) with 1%nat. cbn [seq fmap list_fmap concat].
  assert (0 < array_bpp surf) as Hbpp
    by (unfold array_bpp; destruct (BytesPerPixel surf =? 3); lia).
  rewrite Hh in Hlen.
  transitivity (concat (pixel (Z.to_nat (array_bpp surf))
                              (array_bytes lil_endian surf)
                          <$> seq 0 (Z.to_nat (w surf)))).
  2:{ apply concat_pixels. apply Nat2Z.inj.
      rewrite Hlen, Nat2Z.inj_mul, !Z2Nat.id by lia. lia. }
  f_equal. apply list_fmap_ext. intros i x Hx.
  apply lookup_seq in Hx as [-> _]. cbn [ar_type ar_data].
  rewrite app_nil_r. unfold pixel. rewrite Ht. do 2 f_equal. nia.
Qed.

(** ** Where blit_array after array2d goes wrong *)

(** numpy's [tostring] on the array that [array2d] built for the 2x2
    surface with pixel bytes 1 2 / 3 4 lists them as 1 3 2 4, and that
    is what [blit_array] writes. *)
Lemma blit_array_transposes_with_strided_tostring :
  exists a buf,
    array2d (Some numpy) true gray_surface = Ok a /\
    ar_shape a = [2; 2] /\ ar_strides a = [1; 2] /\
    tostring_strided a = [Byte.x01; Byte.x03; Byte.x02; Byte.x04] /\
    blit_array (Some numpy) true tostring_strided gray_surface a
    = (Ok tt, buf) /\
    buf = [Byte.x01; Byte.x03; Byte.x02; Byte.x04] /\
    buf <> pixels gray_surface.
Proof.
  eexists _, _. split; [vm_compute; reflexivity|].
  repeat split; try (vm_compute; reflexivity). discriminate.
Qed.

(** On a padded surface without rows there is no row to join, line 396
    still appends one pad, and [memmove] writes 3 zero bytes to the empty
    pixel buffer, whatever [tostring] is used. *)
Lemma blit_array_overruns_empty_surface :
  wf_surface empty_gray_surface /\
  exists a,
    array2d (Some Numeric) true empty_gray_surface = Ok a /\
    tostring_stored a = [] /\ tostring_strided a = [] /\
    pixels empty_gray_surface = [] /\
    blit_array (Some Numeric) true tostring_stored empty_gray_surface a
    = (Ok tt, [NUL; NUL; NUL]) /\
    blit_array (Some Numeric) true tostring_strided empty_gray_surface a
    = (Ok tt, [NUL; NUL; NUL]).
Proof.
  split; [unfold wf_surface; simpl; lia|].
  eexists. split; [vm_compute; reflexivity|].
  repeat split; vm_compute; reflexivity.
Qed.

(** ** Statements about surfarray.py *)

(** C6 (as stated, refuted).  For a 3-bytes-per-pixel surface the data
    of the array are not BytesPerPixel * width * height bytes and the
    strides are not (BytesPerPixel, BytesPerPixel * width): the 1x2
    surface gets 8 bytes, not 6, and the strides (4, 4), not (3, 3).  And
    when no array module is set, a BytesPerPixel of 0 raises ImportError,
    not ValueError: [_check_array] comes first. *)
Lemma array2d_widened_size_and_strides :
  BytesPerPixel rgb_surface = 3 /\
  (exists a,
     array2d (Some Numeric) true rgb_surface = Ok a /\
     Z.of_nat (length (ar_data a)) = 8 /\
     Z.of_nat (length (ar_data a)) <>
       BytesPerPixel rgb_surface * w rgb_surface * h rgb_surface /\
     ar_strides a = [4; 4] /\
     ar_strides a <>
       [BytesPerPixel rgb_surface;
        BytesPerPixel rgb_surface * w rgb_surface]) /\
  BytesPerPixel depthless_surface = 0 /\
  array2d None true depthless_surface = Raise ImportError /\
  array2d None true depthless_surface <> Raise ValueError.
Proof.
  split_and!; try reflexivity; try discriminate.
  eexists. split_and!; try reflexivity; discriminate.
Qed.

(** C6 (amended).  With numpy, numarray or Numeric set, for every
    surface laid out as SDL does (pitch >= w * BytesPerPixel, pitch * h
    pixel bytes) that, when its BytesPerPixel is 3, has at least one
    pixel: if BytesPerPixel is between 1 and 4, [array2d] returns an
    array of shape (w, h) whose data are the pixel bytes without row
    padding, each 3-byte pixel widened by one zero byte at the most
    significant end (after it on little-endian, before it on
    big-endian); the data have bpp * w * h bytes and the strides are
    (bpp, bpp * w), where bpp is BytesPerPixel, except that it is 4 for
    a 3-bytes-per-pixel surface.  If BytesPerPixel is 0 or less, or
    greater than 4, ValueError is raised. *)
Theorem array2d_layout
    (m : array_module) (lil_endian : bool) (surf : SDL_Surface) :
  wf_surface surf ->
  m ∈ [numpy; numarray; Numeric] ->
  (BytesPerPixel surf = 3 -> 0 < w surf * h surf) ->
  (1 <= BytesPerPixel surf <= 4 ->
   exists t,
     array2d (Some m) lil_endian surf =
     Ok {| ar_data := array_bytes lil_endian surf;
           ar_type := t;
           ar_shape := [w surf; h surf];
           ar_strides := [array_bpp surf; array_bpp surf * w surf] |} /\
     itemsize t = array_bpp surf /\
     Z.of_nat (length (array_bytes lil_endian surf)) =
     array_bpp surf * w surf * h surf) /\
  (BytesPerPixel surf <= 0 \/ BytesPerPixel surf > 4 ->
   array2d (Some m) lil_endian surf = Raise ValueError).
Proof.
  intros Hwf Hm Hne. split.
  - intros Hb. by apply array2d_spec.
  - apply array2d_bad_depth.
Qed.

Lemma array2d_layout_witness :
  exists t,
    array2d (Some Numeric) true rgb_surface =
    Ok {| ar_data := [Byte.x01; Byte.x02; Byte.x03; NUL;
                      Byte.x04; Byte.x05; Byte.x06; NUL];
          ar_type := t; ar_shape := [1; 2]; ar_strides := [4; 4] |}.
Proof.
  destruct (array2d_layout Numeric true rgb_surface) as [Hok _].
  - unfold wf_surface; simpl. lia.
  - set_solver.
  - intros _. simpl. lia.
  - destruct Hok as (t & Hrun & _); [simpl; lia|].
    exists t. rewrite Hrun. vm_compute. reflexivity.
Defined.




(** C8 (as stated, refuted).  A 3-dimensional array whose last dimension
    is not 3 does not raise NotImplementedError: the shape test of line
    332 comes first and raises ValueError.  And on a surface whose
    BytesPerPixel is 0, a 3-dimensional array of last dimension 3 does not
    raise ValueError: the test of line 335 comes before the test of the
    bit depth and raises NotImplementedError. *)
Lemma blit_array_error_precedence :
  let out1 := blit_array (Some Numeric) true ar_data gray_surface
                         (array_of_shape [2; 2; 4]) in
  let out2 := blit_array (Some Numeric) true ar_data depthless_surface
                         (array_of_shape [2; 2; 3]) in
  length (ar_shape (array_of_shape [2; 2; 4])) = 3%nat /\
  out1 = (Raise ValueError, pixels gray_surface) /\
  out1.1 <> Raise NotImplementedError /\
  BytesPerPixel depthless_surface = 0 /\
  out2 = (Raise NotImplementedError, pixels depthless_surface) /\
  out2.1 <> Raise ValueError.
Proof. repeat split; try reflexivity; discriminate. Qed.

(** C8 (amended).  With an array module set, [blit_array(surface, array)]
    raises, in this order of precedence: ValueError when the array is
    neither 2-dimensional nor 3-dimensional with last dimension 3;
    NotImplementedError for every 3-dimensional array whose last
    dimension is 3; ValueError when the array is 2-dimensional and the
    surface's BytesPerPixel is 0 or less, or greater than 4; ValueError
    when the array is 2-dimensional, BytesPerPixel is between 1 and 4 and
    the two dimensions differ from the surface's width and height.  In
    each of these cases the pixel data of the surface is unchanged. *)
Theorem blit_array_errors
    (m : array_module) (lil_endian : bool) (tostring : ndarray -> bytes)
    (surf : SDL_Surface) (array : ndarray) :
  let shape := ar_shape array in
  let bpp := BytesPerPixel surf in
  let outcome := blit_array (Some m) lil_endian tostring surf array in
  (~ (length shape = 2%nat \/ (length shape = 3%nat /\ nth 2 shape 0 = 3)) ->
     outcome = (Raise ValueError, pixels surf)) /\
  (length shape = 3%nat -> nth 2 shape 0 = 3 ->
     outcome = (Raise NotImplementedError, pixels surf)) /\
  (length shape = 2%nat -> bpp <= 0 \/ bpp > 4 ->
     outcome = (Raise ValueError, pixels surf)) /\
  (length shape = 2%nat -> 1 <= bpp <= 4 ->
     w surf <> nth 0 shape 0 \/ h surf <> nth 1 shape 0 ->
     outcome = (Raise ValueError, pixels surf)).
Proof.
  intros shape bpp outcome. subst outcome. unfold blit_array. simpl.
  fold shape. fold bpp.
  split_and!.
  - intros Hbad.
    destruct (Nat.eqb_spec (length shape) 2) as [H2|H2]; [tauto|].
    destruct (Nat.eqb_spec (length shape) 3) as [H3|H3]; [|done].
    destruct (Z.eqb_spec (nth 2 shape 0) 3) as [H33|H33]; [tauto|done].
  - intros H3 H33. rewrite H3, H33. reflexivity.
  - intros H2 Hbpp. rewrite H2. simpl.
    destruct (Z.leb_spec bpp 0); [done|].
    destruct (Z.gtb_spec bpp 4); [done|lia].
  - intros H2 Hbpp Hdim. rewrite H2. simpl.
    destruct (Z.leb_spec bpp 0); [lia|].
    destruct (Z.gtb_spec bpp 4); [lia|]. simpl.
    destruct (Z.eqb_spec (w surf) (nth 0 shape 0)); [|done].
    destruct (Z.eqb_spec (h surf) (nth 1 shape 0)); [|done].
    tauto.
Qed.

Lemma blit_array_errors_witness :
  blit_array (Some Numeric) true ar_data gray_surface (array_of_shape [2; 3])
  = (Raise ValueError, pixels gray_surface).
Proof.
  apply (blit_array_errors Numeric true ar_data gray_surface
                           (array_of_shape [2; 3])).
  - reflexivity.
  - simpl. lia.
  - right. simpl. lia.
Defined.

End SurfarrayFacts.

Module UserRectFacts.
Import UserRect.

Local Open Scope string_scope.

(** The name [nonzero] is bound nowhere. *)
Lemma load_global_nonzero : load_global "nonzero" = Raise NameError.
Proof. vm_compute. reflexivity. Qed.

(** The loop of [__init__] writes the names of [dir] only. *)
Lemma init_loop_lookup (names : list string) (k : string) :
  forall d : gmap string pyval,
    k ∉ names ->
    foldl (fun (d : gmap string pyval) a =>
             match d !! "rect" with
             | Some self_rect => <[a := VAttr self_rect a]> d
             | None => d
             end) d names !! k = d !! k.
Proof.
  induction names as [|a names IH]; intros d Hk; simpl; [done|].
  rewrite IH by set_solver.
  destruct (d !! "rect"); [|done].
  apply lookup_insert_ne. set_solver.
Qed.

(** The loop of [__init__] stores, under every name of [dir], the
    attribute of that name of the wrapped Rect, as long as [dir] does
    not list the name [rect] itself. *)
Lemma init_loop_spec (r : pyval) (names : list string) (k : string) :
  forall d : gmap string pyval,
    "rect" ∉ names ->
    d !! "rect" = Some r ->
    foldl (fun (d : gmap string pyval) a =>
             match d !! "rect" with
             | Some self_rect => <[a := VAttr self_rect a]> d
             | None => d
             end) d names !! k =
    if decide (k ∈ names) then Some (VAttr r k) else d !! k.
Proof.
  induction names as [|a names IH]; intros d Hr Hd; cbn [foldl].
  - rewrite decide_False; [done|]. apply not_elem_of_nil.
  - apply not_elem_of_cons in Hr as [Hne Hr].
    rewrite Hd. rewrite IH; [|done|by rewrite lookup_insert_ne].
    destruct (decide (k ∈ names)) as [Hin|Hin].
    + rewrite decide_True; [done|]. by right.
    + destruct (decide (k = a)) as [->|Hka].
      * rewrite lookup_insert_eq. rewrite decide_True; [done|]. by left.
      * rewrite lookup_insert_ne by done.
        rewrite decide_False; [done|].
        apply not_elem_of_cons. by split.
Qed.

(** ** Statements about UserRect.py *)

(** C10 (as stated, refuted).  A UserRect built on a Rect whose [dir]
    lists [__nonzero__] is truth-tested without any exception: [__init__]
    has copied the Rect's bound method into the instance dictionary, and
    the truth test of a classic instance finds it there before it looks
    in the class.  The result is the truth value of the wrapped Rect. *)
Lemma truth_of_UserRect_can_return :
  exists self,
    UserRect___init__ (Ok rect_with_nonzero) = Ok self /\
    truth self = Ok (rect_truth rect_with_nonzero) /\
    truth self <> Raise NameError.
Proof.
  eexists. split; [reflexivity|].
  split; [vm_compute; reflexivity|]. vm_compute. discriminate.
Qed.

(** C10 (amended).  [UserRect.__nonzero__] raises NameError whenever it
    is called, on every instance: it reads the name [nonzero], which is
    neither a global of the module nor a builtin.  Truth-testing a
    UserRect raises NameError when [dir] of the wrapped Rect does not
    list [__nonzero__].  When [dir] lists [__nonzero__], and does not
    list the name [rect], [__init__] has copied the bound [__nonzero__]
    of the Rect into the instance dictionary and the truth test returns
    the truth value of the wrapped Rect. *)
Theorem UserRect_nonzero_raises_NameError (rect : Rect) (self : instance) :
  (forall any : instance, UserRect___nonzero__ any = Raise NameError) /\
  (UserRect___init__ (Ok rect) = Ok self ->
   ("__nonzero__" ∉ rect_dir rect -> truth self = Raise NameError) /\
   ("__nonzero__" ∈ rect_dir rect -> "rect" ∉ rect_dir rect ->
    inst_dict self !! "__nonzero__" = Some (VAttr (VRect rect) "__nonzero__") /\
    truth self = Ok (rect_truth rect))).
Proof.
  assert (forall any : instance, UserRect___nonzero__ any = Raise NameError)
    as Hcall.
  { intros any. unfold UserRect___nonzero__. by rewrite load_global_nonzero. }
  split; [exact Hcall|].
  intros Hinit. injection Hinit as <-. split.
  - intros Hdir. unfold truth. simpl.
    rewrite init_loop_lookup by done.
    rewrite lookup_insert_ne by done. rewrite lookup_empty. apply Hcall.
  - intros Hdir Hrect.
    assert (inst_dict
              {| inst_dict :=
                   foldl (fun (d : gmap string pyval) a =>
                            match d !! "rect" with
                            | Some self_rect => <[a := VAttr self_rect a]> d
                            | None => d
                            end) (<["rect" := VRect rect]> ∅) (rect_dir rect) |}
            !! "__nonzero__" = Some (VAttr (VRect rect) "__nonzero__")) as Hcopy.
    { simpl. rewrite (init_loop_spec (VRect rect)); [|done|apply lookup_insert_eq].
      by rewrite decide_True. }
    split; [exact Hcopy|].
    unfold truth. rewrite Hcopy. reflexivity.
Qed.

Lemma UserRect_nonzero_raises_NameError_witness :
  (exists self,
     UserRect___init__ (Ok rect_without_nonzero) = Ok self /\
     UserRect___nonzero__ self = Raise NameError /\
     truth self = Raise NameError) /\
  (exists self,
     UserRect___init__ (Ok rect_with_nonzero) = Ok self /\
     UserRect___nonzero__ self = Raise NameError /\
     truth self = Ok true).
Proof.
  split.
  - eexists. split; [reflexivity|].
    match goal with
    | |- UserRect___nonzero__ ?s = _ /\ _ =>
        destruct (UserRect_nonzero_raises_NameError rect_without_nonzero s)
          as (Hcall & Hinit)
    end.
    split; [apply Hcall|].
    destruct (Hinit eq_refl) as [Hraise _]. apply Hraise.
    intros Hin. revert Hin. apply (bool_decide_unpack _). vm_compute. exact I.
  - eexists. split; [reflexivity|].
    match goal with
    | |- UserRect___nonzero__ ?s = _ /\ _ =>
        destruct (UserRect_nonzero_raises_NameError rect_with_nonzero s)
          as (Hcall & Hinit)
    end.
    split; [apply Hcall|].
    destruct (Hinit eq_refl) as [_ Hreturn].
    destruct Hreturn as [_ Htruth].
    + apply (bool_decide_unpack _). vm_compute. exact I.
    + apply (bool_decide_unpack _). vm_compute. exact I.
    + exact Htruth.
Defined.

End UserRectFacts.

Module SpriteMoreFacts.
Import Sprite SpriteFacts SpriteMore.

(** ** Exact effect of linking and unlinking *)

Lemma link_exact h x y a b :
  after (dict_setitem x y 0 ;;; dict_setitem y x 0) h a !! b =
  if decide ((a = x /\ b = y) \/ (a = y /\ b = x)) then Some 0 else h a !! b.
Proof.
  unfold after, bind, dict_setitem; simpl. unfold upd.
  repeat (rewrite lookup_insert || case_decide); subst; try done; naive_solver.
Qed.

Lemma unlink_exact h x y :
  x <> y -> is_Some (h x !! y) -> is_Some (h y !! x) ->
  exists h1,
    (dict_delitem x y ;;; dict_delitem y x) h = (Ok tt, h1) /\
    forall a b, h1 a !! b =
      if decide ((a = x /\ b = y) \/ (a = y /\ b = x)) then None else h a !! b.
Proof.
  intros Hne [v Hv] [v' Hv'].
  unfold bind, dict_delitem. rewrite Hv. rewrite upd_ne by done. rewrite Hv'.
  eexists. split; [reflexivity|].
  intros a b. unfold upd.
  repeat (rewrite lookup_delete || case_decide); subst; try done; naive_solver.
Qed.

Lemma links_exactly_Sprite_add s :
  links_exactly (Spr s)
    (fun g => add_internal g (Spr s) ;;; dict_setitem (Spr s) g 0).
Proof.
  intros b h. rewrite add_internal_eq.
  exists (after (dict_setitem b (Spr s) 0 ;;; dict_setitem (Spr s) b 0) h).
  split; [reflexivity|].
  intros x y. rewrite link_exact. repeat case_decide; naive_solver.
Qed.

Lemma links_exactly_Group_add g :
  links_exactly (Grp g)
    (fun s => dict_setitem (Grp g) s 0 ;;; add_internal s (Grp g)).
Proof.
  intros b h. rewrite add_internal_eq.
  exists (after (dict_setitem (Grp g) b 0 ;;; dict_setitem b (Grp g) 0) h).
  split; [reflexivity|].
  intros x y. rewrite link_exact. repeat case_decide; naive_solver.
Qed.

(** ** The loop of add, exactly *)

Lemma add_loop_exact a step l :
  links_exactly a step ->
  forall h, mutual h ->
  exists h',
    add_loop a step l h = (Ok tt, h') /\
    mutual h' /\
    forall x y, h' x !! y =
      if decide (between a l x y /\ h x !! y = None) then Some 0
      else h x !! y.
Proof.
  intros Hstep. unfold add_loop.
  induction l as [|b l IH]; intros h Hm; simpl.
  - exists h. split_and!; [done|done|]. intros x y.
    rewrite decide_False; [done|]. unfold between. set_solver.
  - unfold bind at 1, bind at 1, dict_has_key.
    destruct (decide (is_Some (h a !! b))) as [Hin|Hin].
    + rewrite bool_decide_true by done. simpl.
      destruct (IH h Hm) as (h' & Hrun & Hm' & Hh').
      exists h'. split_and!; [done|done|].
      intros x y. rewrite Hh'.
      assert (is_Some (h b !! a)) as Hin' by (by apply Hm).
      apply decide_ext. unfold between.
      split; intros [Hb Hn]; (split; [|done]).
      * set_solver.
      * destruct Hb as [[-> Hy]|[Hx ->]].
        -- apply elem_of_cons in Hy as [->|Hy]; [|by left].
           rewrite Hn in Hin. by destruct Hin.
        -- apply elem_of_cons in Hx as [->|Hx]; [|by right].
           rewrite Hn in Hin'. by destruct Hin'.
    + rewrite bool_decide_false by done. simpl.
      destruct (Hstep b h) as (h1 & Hs & Hh1). rewrite Hs.
      assert (h a !! b = None) as Hab by (by apply eq_None_not_Some).
      assert (h b !! a = None) as Hba.
      { apply eq_None_not_Some. intros Hs'. apply Hin. by apply Hm. }
      assert (mutual h1) as Hm1.
      { intros x y. rewrite !Hh1. specialize (Hm x y).
        repeat case_decide; naive_solver. }
      destruct (IH h1 Hm1) as (h' & Hrun & Hm' & Hh').
      exists h'. split_and!; [done|done|].
      intros x y. rewrite Hh', Hh1. unfold between.
      destruct (decide ((x = a /\ y = b) \/ (x = b /\ y = a))) as [Hp|Hp].
      * rewrite decide_False by (intros [_ ?]; done).
        rewrite decide_True; [done|].
        destruct Hp as [[-> ->]|[-> ->]]; set_solver.
      * repeat case_decide; try done; exfalso; set_solver.
Qed.

(** [add] with a single group is the loop over the one group. *)
Lemma Sprite_add_single_loop s g h :
  Sprite_add s (VObj (Grp g)) h =
  add_loop (Spr s)
    (fun g => add_internal g (Spr s) ;;; dict_setitem (Spr s) g 0) [Grp g] h.
Proof.
  unfold Sprite_add, add_loop; simpl. unfold bind, dict_has_key; simpl.
  by destruct (bool_decide _).
Qed.

Lemma Group_add_single_loop g g' h :
  Group_add g (VObj (Grp g')) h =
  add_loop (Grp g)
    (fun s => dict_setitem (Grp g) s 0 ;;; add_internal s (Grp g)) [Grp g'] h.
Proof.
  unfold Group_add, add_loop; simpl. unfold bind, dict_has_key; simpl.
  by destruct (bool_decide _).
Qed.

Lemma run_add_loop c l h :
  targets (argument c) = Some l ->
  run_add c h =
  add_loop (receiver c)
    (match c with
     | CallSpriteAdd s _ => fun g => add_internal g (Spr s) ;;; dict_setitem (Spr s) g 0
     | CallGroupAdd g _ => fun s => dict_setitem (Grp g) s 0 ;;; add_internal s (Grp g)
     end) l h.
Proof.
  destruct c as [s [[i|g]|l']|g [[i|g']|l']]; simpl; intros [= <-]; try done.
  - apply Sprite_add_single_loop.
  - apply Group_add_single_loop.
Qed.

Lemma run_add_not_iterable c h :
  targets (argument c) = None -> run_add c h = (Raise TypeError, h).
Proof. by destruct c as [s [[i|g]|l']|g [[i|g']|l']]. Qed.

Lemma run_add_exact c l h :
  targets (argument c) = Some l ->
  mutual h ->
  exists h',
    run_add c h = (Ok tt, h') /\
    mutual h' /\
    forall x y, h' x !! y =
      if decide (between (receiver c) l x y /\ h x !! y = None) then Some 0
      else h x !! y.
Proof.
  intros Hl Hm. rewrite (run_add_loop c l h Hl).
  apply add_loop_exact; [|done].
  destruct c; [apply links_exactly_Sprite_add|apply links_exactly_Group_add].
Qed.

(** ** The loop of Sprite.remove, exactly *)

Lemma remove_loop_exact a l : forall h,
  mutual h -> a ∉ l ->
  exists h',
    for_each l (fun g =>
      b <~ dict_has_key a g ;;
      if b then remove_internal g a ;;; dict_delitem a g else ret tt) h
    = (Ok tt, h') /\
    mutual h' /\
    forall x y, h' x !! y =
      if decide (between a l x y) then None else h x !! y.
Proof.
  induction l as [|b l IH]; intros h Hm Ha; simpl.
  - exists h. split_and!; [done|done|]. intros x y.
    rewrite decide_False; [done|]. unfold between. set_solver.
  - unfold bind at 1, bind at 1, dict_has_key.
    destruct (decide (is_Some (h a !! b))) as [Hin|Hin].
    + rewrite bool_decide_true by done. simpl.
      assert (b <> a) as Hne by set_solver.
      assert (is_Some (h b !! a)) as Hin' by (by apply Hm).
      rewrite remove_internal_eq.
      destruct (unlink_exact h b a Hne Hin' Hin) as (h1 & Hs & Hh1).
      rewrite Hs.
      assert (mutual h1) as Hm1.
      { pose proof (unlink_mutual b a h Hm) as Hu. unfold after in Hu.
        by rewrite Hs in Hu. }
      destruct (IH h1 Hm1) as (h' & Hrun & Hm' & Hh'); [set_solver|].
      exists h'. split_and!; [done|done|].
      intros x y. rewrite Hh', Hh1. unfold between.
      repeat case_decide; try done; exfalso; set_solver.
    + rewrite bool_decide_false by done. simpl.
      assert (h a !! b = None) as Hab by (by apply eq_None_not_Some).
      assert (h b !! a = None) as Hba.
      { apply eq_None_not_Some. intros Hs'. apply Hin. by apply Hm. }
      destruct (IH h Hm) as (h' & Hrun & Hm' & Hh'); [set_solver|].
      exists h'. split_and!; [done|done|].
      intros x y. rewrite Hh'. unfold between.
      destruct (decide ((x = b /\ y = a) \/ (x = a /\ y = b))) as [Hp|Hp].
      * assert (h x !! y = None) as -> by (by destruct Hp as [[-> ->]|[-> ->]]).
        by repeat case_decide.
      * apply decide_ext. set_solver.
Qed.

(** ** Sprite.kill on a store that is not symmetric *)

Lemma kill_loop_raises s g l : forall h,
  g ∈ l -> h g !! s = None ->
  exists h',
    for_each l (fun c => remove_internal c s) h = (Raise KeyError, h') /\
    forall x y, y <> s -> h' x !! y = h x !! y.
Proof.
  induction l as [|c l IH]; intros h Hg Hn; simpl; [set_solver|].
  unfold bind. rewrite remove_internal_eq. unfold dict_delitem at 1.
  destruct (h c !! s) as [v|] eqn:Hc.
  - assert (c <> g) as Hne by (intros ->; congruence).
    destruct (IH (upd h c (delete s (h c)))) as (h' & Hrun & Hh').
    { set_solver. }
    { by rewrite upd_ne. }
    exists h'. split; [done|]. intros x y Hy. rewrite Hh' by done.
    unfold upd. case_decide; [subst; by apply lookup_delete_ne|done].
  - exists h. by split.
Qed.

(** ** Group.empty, exactly *)

Lemma for_each_ext {A : Type} (l : list A) (f g : A -> M heap unit) :
  (forall x h, f x h = g x h) -> forall h, for_each l f h = for_each l g h.
Proof.
  intros Hfg. induction l as [|x l IH]; intros h; simpl; [done|].
  unfold bind. rewrite Hfg. destruct (g x h) as [[[]|e] h1]; [apply IH|done].
Qed.

Lemma unlink_loop_exact a l : forall h,
  mutual h -> NoDup l -> a ∉ l ->
  (forall b, b ∈ l -> is_Some (h a !! b)) ->
  exists h',
    for_each l (fun b => dict_delitem a b ;;; dict_delitem b a) h
    = (Ok tt, h') /\
    mutual h' /\
    forall x y, h' x !! y =
      if decide (between a l x y) then None else h x !! y.
Proof.
  induction l as [|b l IH]; intros h Hm Hnd Ha Hin; simpl.
  - exists h. split_and!; [done|done|]. intros x y.
    rewrite decide_False; [done|]. unfold between. set_solver.
  - apply NoDup_cons in Hnd as [Hb Hnd].
    assert (a <> b) as Hne by set_solver.
    assert (is_Some (h a !! b)) as Hab by (apply Hin; set_solver).
    assert (is_Some (h b !! a)) as Hba by (by apply Hm).
    destruct (unlink_exact h a b Hne Hab Hba) as (h1 & Hs & Hh1).
    unfold bind at 1. rewrite Hs.
    assert (mutual h1) as Hm1.
    { pose proof (unlink_mutual a b h Hm) as Hu. unfold after in Hu.
      by rewrite Hs in Hu. }
    destruct (IH h1 Hm1 Hnd) as (h' & Hrun & Hm' & Hh'); [set_solver| |].
    { intros b' Hb'. rewrite Hh1. rewrite decide_False by set_solver.
      apply Hin. set_solver. }
    exists h'. split_and!; [done|done|].
    intros x y. rewrite Hh', Hh1. unfold between.
    repeat case_decide; try done; exfalso; set_solver.
Qed.

Lemma unlink_loop_raises a b l : forall h,
  b ∈ l -> b = a \/ h b !! a = None ->
  exists h',
    for_each l (fun b => dict_delitem a b ;;; dict_delitem b a) h
    = (Raise KeyError, h').
Proof.
  induction l as [|c l IH]; intros h Hb Hbad; simpl; [set_solver|].
  unfold bind at 1, bind at 1, dict_delitem at 1.
  destruct (h a !! c) as [v|] eqn:Hac; [|by eexists].
  unfold dict_delitem at 1.
  destruct (decide (c = a)) as [->|Hca].
  { rewrite upd_eq, lookup_delete_eq. by eexists. }
  rewrite upd_ne by done.
  destruct (h c !! a) as [v'|] eqn:Hca'; [|by eexists].
  apply IH.
  - destruct Hbad as [->|Hn]; [set_solver|].
    apply elem_of_cons in Hb as [->|Hb]; [congruence|done].
  - destruct Hbad as [->|Hn]; [by left|]. right.
    assert (b <> c) as Hbc by congruence.
    unfold upd. repeat case_decide; subst; try done.
    by rewrite lookup_delete_ne.
Qed.

Lemma Group_empty_loop g l h :
  for_each l (fun s => Group_remove_internal g s ;;;
                       remove_internal s (Grp g)) h =
  for_each l (fun b => dict_delitem (Grp g) b ;;; dict_delitem b (Grp g)) h.
Proof.
  apply for_each_ext. intros x h0. by rewrite remove_internal_eq.
Qed.

(** ** Sizes *)

Lemma length_keys (d : gmap obj Z) : length (keys d) = size d.
Proof. unfold keys. by rewrite length_fmap, length_map_to_list. Qed.


(** ** The constructors *)

(** An object that no dictionary knows has, on a symmetric store, an
    empty dictionary: emptying it changes no lookup. *)
Lemma clear_unknown h o :
  mutual h -> unknown h o ->
  mutual (upd h o ∅) /\ forall x y, upd h o ∅ x !! y = h x !! y.
Proof.
  intros Hm Hu.
  assert (forall x y, upd h o ∅ x !! y = h x !! y) as Heq.
  { intros x y. unfold upd. case_decide; [subst|done].
    rewrite lookup_empty. symmetry. apply eq_None_not_Some.
    intros Hs. apply Hm in Hs. rewrite Hu in Hs. by destruct Hs. }
  split; [|done]. intros x y. rewrite !Heq. apply Hm.
Qed.

Lemma between_unknown h a l x y :
  mutual h -> unknown h a -> between a l x y -> h x !! y = None.
Proof.
  intros Hm Hu [[-> _]|[_ ->]]; [|apply Hu].
  apply eq_None_not_Some. intros Hs. apply Hm in Hs.
  rewrite Hu in Hs. by destruct Hs.
Qed.

(** [add] right after the dictionary of a new object was emptied. *)
Lemma init_add_exact c l h :
  targets (argument c) = Some l ->
  mutual h -> unknown h (receiver c) ->
  exists h',
    (dict_clear (receiver c) ;;; run_add c) h = (Ok tt, h') /\
    mutual h' /\
    forall x y, h' x !! y =
      if decide (between (receiver c) l x y) then Some 0 else h x !! y.
Proof.
  intros Hl Hm Hu.
  destruct (clear_unknown h (receiver c) Hm Hu) as [Hm0 Heq].
  destruct (run_add_exact c l _ Hl Hm0) as (h' & Hrun & Hm' & Hh').
  exists h'. split_and!; [done|done|].
  intros x y. rewrite Hh', Heq. apply decide_ext.
  split; [by intros [? _]|]. intros Hb. split; [done|].
  by apply (between_unknown h (receiver c) l).
Qed.

(** [Group(l)] with a sequence, for a new group. *)
Lemma Group_init_sequence g l h :
  mutual h -> unknown h (Grp g) ->
  exists h',
    Group___init__ g (VSeq l) h = (Ok tt, h') /\
    mutual h' /\
    forall x y, h' x !! y =
      if decide (between (Grp g) l x y) then Some 0 else h x !! y.
Proof.
  intros Hm Hu.
  destruct (clear_unknown h (Grp g) Hm Hu) as [Hm0 Heq].
  destruct l as [|s l].
  - exists (upd h (Grp g) ∅). split_and!; [done|done|].
    intros x y. rewrite Heq. rewrite decide_False; [done|].
    unfold between. set_solver.
  - apply (init_add_exact (CallGroupAdd g (VSeq (s :: l))) (s :: l) h);
      done.
Qed.

Lemma between_singleton a b x y :
  between a [b] x y <-> (x = a /\ y = b) \/ (x = b /\ y = a).
Proof. unfold between. set_solver. Qed.

(** ** groupcollide *)

Section GroupCollideFacts.

Context {Rect : Type}.
Variable rect_of : obj -> option Rect.
Variable colliderect : Rect -> Rect -> bool.

Abbreviation sprite_with_rect := (sprite_with_rect rect_of).
Abbreviation collisions := (collisions rect_of colliderect).
Abbreviation groupcollide_loop := (groupcollide_loop rect_of colliderect).

(** The collisions depend on the store through the dictionary of the
    second group only. *)
Lemma collisions_ext h h' b s :
  h' (Grp b) = h (Grp b) -> collisions h' b s = collisions h b s.
Proof. intros He. unfold SpriteMore.collisions. by rewrite He. Qed.

Lemma spritecollide_reads h s b :
  sprite_with_rect s ->
  Forall sprite_with_rect (keys (h (Grp b))) ->
  spritecollide rect_of colliderect s (Grp b) false h
  = (Ok (collisions h b s), h).
Proof.
  intros [_ [r Hr]] Hall.
  unfold spritecollide, bind at 1, getattr_rect. rewrite Hr. simpl.
  unfold bind at 1. simpl. unfold dict_keys. simpl.
  rewrite (collide_loop_false rect_of colliderect r _ [] h Hall).
  unfold SpriteMore.collisions. by rewrite Hr.
Qed.

(** Without any [kill] the loop only reads. *)
Lemma groupcollide_loop_reads b ss : forall crashed h,
  Forall sprite_with_rect ss ->
  Forall sprite_with_rect (keys (h (Grp b))) ->
  exists m,
    groupcollide_loop (Grp b) false false ss crashed h = (Ok m, h) /\
    forall s, m !! s =
      if decide (s ∈ ss /\ collisions h b s <> [])
      then Some (collisions h b s) else crashed !! s.
Proof.
  induction ss as [|s0 ss IH]; intros crashed h Hss Hb;
    cbn [SpriteMore.groupcollide_loop].
  - exists crashed. split; [done|]. intros s.
    rewrite decide_False; [done|]. set_solver.
  - apply Forall_cons in Hss as [Hs0 Hss].
    unfold bind at 1. rewrite (spritecollide_reads h s0 b Hs0 Hb).
    destruct (decide (collisions h b s0 = [])) as [He|He].
    + rewrite bool_decide_true by done. simpl.
      destruct (IH crashed h Hss Hb) as (m & Hrun & Hm).
      exists m. split; [done|]. intros s. rewrite Hm.
      apply decide_ext. split; [set_solver|].
      intros [[->|Hin]%elem_of_cons Hne]; [done|by split].
    + rewrite bool_decide_false by done. simpl.
      unfold bind at 1. simpl.
      destruct (IH (<[s0 := collisions h b s0]> crashed) h Hss Hb)
        as (m & Hrun & Hm).
      exists m. split; [done|]. intros s. rewrite Hm.
      destruct (decide (s = s0)) as [->|Hne].
      * rewrite lookup_insert_eq.
        rewrite (decide_True (P := (s0 ∈ s0 :: ss /\ _))) by (split; [apply list_elem_of_here|done]).
        by case_decide.
      * rewrite lookup_insert_ne by done.
        apply decide_ext. set_solver.
Qed.

(** With [dokilla], for groups without a common member: killing a
    member of the first group does not touch the dictionary of the
    second. *)
Lemma groupcollide_loop_kills b ss : forall crashed h,
  Forall sprite_with_rect ss ->
  Forall sprite_with_rect (keys (h (Grp b))) ->
  mutual h ->
  (forall s, s ∈ ss -> s ∉ keys (h (Grp b))) ->
  exists m h',
    groupcollide_loop (Grp b) true false ss crashed h = (Ok m, h') /\
    (forall s, m !! s =
       if decide (s ∈ ss /\ collisions h b s <> [])
       then Some (collisions h b s) else crashed !! s) /\
    mutual h' /\
    h' (Grp b) = h (Grp b) /\
    killed h h' (filter (fun s => collisions h b s <> []) ss).
Proof.
  induction ss as [|s0 ss IH]; intros crashed h Hss Hb Hm Hdis;
    cbn [SpriteMore.groupcollide_loop].
  - exists crashed, h. split_and!; [done| |done|done|].
    + intros s. rewrite decide_False; [done|]. set_solver.
    + split_and!; intros; set_solver.
  - apply Forall_cons in Hss as [Hs0 Hss].
    unfold bind at 1. rewrite (spritecollide_reads h s0 b Hs0 Hb).
    destruct (decide (collisions h b s0 = [])) as [He|He].
    + rewrite bool_decide_true by done. cbn [negb].
      destruct (IH crashed h Hss Hb Hm) as (m & h' & Hrun & Hmap & Hm' & Hgb & Hk).
      { intros s Hs. apply Hdis. set_solver. }
      exists m, h'. split_and!; [done| |done|done|].
      * intros s. rewrite Hmap.
        apply decide_ext. split; [set_solver|].
        intros [[->|Hin]%elem_of_cons Hne]; [done|by split].
      * by rewrite filter_cons_False by (by intros ?).
    + rewrite bool_decide_false by done. cbn [negb].
      destruct Hs0 as [[i ->] Hr0]. unfold kill.
      destruct (Sprite_kill_spec i h Hm) as (h1 & Hkill & Hh1).
      pose proof (Sprite_kill_mutual i h Hm) as Hm1.
      unfold after in Hm1. rewrite Hkill in Hm1. simpl in Hm1.
      unfold bind at 1. rewrite Hkill.
      assert (h1 (Grp b) = h (Grp b)) as Hgb1.
      { rewrite Hh1, decide_False by done. apply delete_id.
        apply eq_None_not_Some. rewrite <- elem_of_keys.
        apply Hdis. apply list_elem_of_here. }
      destruct (IH (<[Spr i := collisions h b (Spr i)]> crashed) h1 Hss)
        as (m & h' & Hrun & Hmap & Hm' & Hgb & Hk).
      { by rewrite Hgb1. }
      { done. }
      { intros s Hs. rewrite Hgb1. apply Hdis. set_solver. }
      exists m, h'. split_and!; [done| |done|by rewrite Hgb|].
      * intros s. rewrite Hmap, (collisions_ext h h1 b s Hgb1).
        destruct (decide (s = Spr i)) as [->|Hne].
        -- rewrite lookup_insert_eq.
           rewrite (decide_True (P := (Spr i ∈ Spr i :: ss /\ _)))
             by (split; [apply list_elem_of_here|done]).
           by case_decide.
        -- rewrite lookup_insert_ne by done.
           apply decide_ext. set_solver.
      * rewrite filter_cons_True by done.
        apply (killed_step rect_of h h1); [exact Hh1|].
        rewrite (list_filter_iff _ (fun s => collisions h1 b s <> [])); [done|].
        intros s. by rewrite (collisions_ext h h1 b s Hgb1).
Qed.

End GroupCollideFacts.

(** ** Further statements about sprite.py *)

(** X1.  [s.add(v)] and [g.add(v)] on a store whose membership is
    symmetric.  When [v] is a group or a sequence the call returns; it
    links the receiver with exactly those items of [v] it was not linked
    with yet, in both directions, changes no other entry of any
    dictionary, and membership is symmetric afterwards.  When [v] is a
    single Sprite the call raises TypeError and changes nothing. *)
Theorem add_links_the_missing_items (c : add_call) (h : heap) :
  mutual h ->
  match targets (argument c) with
  | Some l =>
      exists h',
        run_add c h = (Ok tt, h') /\
        mutual h' /\
        forall x y, h' x !! y =
          if decide (between (receiver c) l x y /\ h x !! y = None)
          then Some 0 else h x !! y
  | None => run_add c h = (Raise TypeError, h)
  end.
Proof.
  intros Hm. destruct (targets (argument c)) as [l|] eqn:Hl.
  - by apply run_add_exact.
  - by apply run_add_not_iterable.
Qed.

Lemma add_links_the_missing_items_witness :
  exists h',
    Group_add 0 (VSeq [Spr 0; Spr 1]) scene0 = (Ok tt, h') /\
    h' (Grp 0) !! Spr 1 = Some 0 /\ h' (Spr 1) !! Grp 0 = Some 0 /\
    h' (Spr 1) !! Grp 1 = None.
Proof.
  destruct (add_links_the_missing_items
              (CallGroupAdd 0 (VSeq [Spr 0; Spr 1])) scene0)
    as (h' & Hrun & _ & Hh').
  - apply mutual_scene0.
  - exists h'. split; [exact Hrun|].
    rewrite !Hh'. vm_compute. repeat split.
Defined.

(** X2.  [s.remove(gs)] with a sequence [gs] that does not hold [s]
    itself, on a store whose membership is symmetric: the call returns,
    afterwards [s] is linked with no item of [gs] in either direction,
    every other entry of every dictionary is as before, and membership
    is symmetric. *)
Theorem Sprite_remove_sequence_unlinks (s : nat) (gs : list obj) (h : heap) :
  mutual h ->
  Spr s ∉ gs ->
  exists h',
    Sprite_remove s (VSeq gs) h = (Ok tt, h') /\
    mutual h' /\
    (forall g, g ∈ gs -> h' (Spr s) !! g = None /\ h' g !! Spr s = None) /\
    (forall x y, ~ between (Spr s) gs x y -> h' x !! y = h x !! y).
Proof.
  intros Hm Hs.
  destruct (remove_loop_exact (Spr s) gs h Hm Hs) as (h' & Hrun & Hm' & Hh').
  exists h'. split_and!; [exact Hrun|done| |].
  - intros g Hg. rewrite !Hh'.
    rewrite !decide_True; [done|by right|by left].
  - intros x y Hb. rewrite Hh'. by rewrite decide_False.
Qed.

Lemma Sprite_remove_sequence_unlinks_witness :
  exists h',
    Sprite_remove 0 (VSeq [Grp 0; Grp 1]) scene1 = (Ok tt, h') /\
    h' (Spr 0) !! Grp 0 = None /\ h' (Grp 0) !! Spr 0 = None /\
    h' (Grp 1) !! Spr 1 = Some 0.
Proof.
  destruct (Sprite_remove_sequence_unlinks 0 [Grp 0; Grp 1] scene1)
    as (h' & Hrun & _ & Hgone & Hsame).
  - apply mutual_scene1.
  - apply (bool_decide_unpack _). vm_compute. exact I.
  - exists h'. split; [exact Hrun|].
    destruct (Hgone (Grp 0)) as [H1 H2]; [apply list_elem_of_here|].
    split; [exact H1|]. split; [exact H2|].
    rewrite Hsame; [vm_compute; reflexivity|].
    apply (bool_decide_unpack _). vm_compute. exact I.
Defined.

(** X3.  Adding and removing the same sequence is a round trip.  On a
    store whose membership is symmetric, when [s] is linked with no
    item of [gs] and [gs] does not hold [s] itself, [s.add(gs)]
    followed by [s.remove(gs)] returns twice and every dictionary is
    the one it was before; in between, [s] is a member of every item of
    [gs]. *)
Theorem Sprite_add_then_remove_restores (s : nat) (gs : list obj) (h : heap) :
  mutual h ->
  Spr s ∉ gs ->
  (forall g, g ∈ gs -> h (Spr s) !! g = None) ->
  exists h1 h2,
    Sprite_add s (VSeq gs) h = (Ok tt, h1) /\
    (forall g, g ∈ gs ->
       h1 (Spr s) !! g = Some 0 /\ h1 g !! Spr s = Some 0) /\
    Sprite_remove s (VSeq gs) h1 = (Ok tt, h2) /\
    same_dicts h h2.
Proof.
  intros Hm Hs Hnew.
  assert (forall x y, between (Spr s) gs x y -> h x !! y = None) as Hnone.
  { intros x y [[-> Hy]|[Hx ->]]; [by apply Hnew|].
    apply eq_None_not_Some. intros Hsome. apply Hm in Hsome.
    rewrite (Hnew x Hx) in Hsome. by destruct Hsome. }
  destruct (run_add_exact (CallSpriteAdd s (VSeq gs)) gs h eq_refl Hm)
    as (h1 & Hadd & Hm1 & Hh1).
  destruct (remove_loop_exact (Spr s) gs h1 Hm1 Hs) as (h2 & Hrem & _ & Hh2).
  exists h1, h2. split_and!; [exact Hadd| |exact Hrem|].
  - intros g Hg. rewrite !Hh1. simpl.
    rewrite !decide_True; [done| |].
    + split; [by right|]. apply Hnone. by right.
    + split; [by left|]. by apply Hnew.
  - intros x. apply map_eq. intros y. rewrite Hh2, Hh1. simpl.
    destruct (decide (between (Spr s) gs x y)) as [Hb|Hb].
    + by rewrite Hnone.
    + rewrite decide_False; [done|]. by intros [? _].
Qed.

Lemma Sprite_add_then_remove_restores_witness :
  exists h1 h2,
    Sprite_add 0 (VSeq [Grp 1; Grp 2]) scene1 = (Ok tt, h1) /\
    h1 (Grp 2) !! Spr 0 = Some 0 /\
    Sprite_remove 0 (VSeq [Grp 1; Grp 2]) h1 = (Ok tt, h2) /\
    same_dicts scene1 h2.
Proof.
  destruct (Sprite_add_then_remove_restores 0 [Grp 1; Grp 2] scene1)
    as (h1 & h2 & Hadd & Hin & Hrem & Hsame).
  - apply mutual_scene1.
  - apply (bool_decide_unpack _). vm_compute. exact I.
  - intros g Hg.
    apply elem_of_cons in Hg as [->|Hg]; [vm_compute; reflexivity|].
    apply list_elem_of_singleton in Hg as ->. vm_compute. reflexivity.
  - exists h1, h2. split; [exact Hadd|].
    split; [apply Hin; apply list_elem_of_further, list_elem_of_here|].
    split; [exact Hrem|exact Hsame].
Defined.

(** X4.  [s.kill()] on a store whose membership is symmetric: the call
    returns, [s.alive()] is 0 and [s.groups()] is empty afterwards, no
    dictionary has [s] as a key, the entries between other objects are
    as before, and membership is symmetric. *)
Theorem Sprite_kill_leaves_every_group (s : nat) (h : heap) :
  mutual h ->
  exists h',
    Sprite_kill s h = (Ok tt, h') /\
    Sprite_alive s h' = (Ok 0%nat, h') /\
    Sprite_groups s h' = (Ok [], h') /\
    (forall o, h' o !! Spr s = None) /\
    (forall x y, x <> Spr s -> y <> Spr s -> h' x !! y = h x !! y) /\
    mutual h'.
Proof.
  intros Hm. destruct (Sprite_kill_spec s h Hm) as (h' & Hrun & Hh').
  exists h'. split_and!; [exact Hrun| | | | |].
  - unfold Sprite_alive, dict_len. rewrite Hh', decide_True by done.
    by rewrite map_size_empty.
  - unfold Sprite_groups, dict_keys. rewrite Hh', decide_True by done.
    by rewrite keys_empty.
  - intros o. rewrite Hh'. case_decide; [apply lookup_empty|].
    apply lookup_delete_eq.
  - intros x y Hx Hy. rewrite Hh', decide_False by done.
    by apply lookup_delete_ne.
  - pose proof (Sprite_kill_mutual s h Hm) as Hk. unfold after in Hk.
    by rewrite Hrun in Hk.
Qed.

Lemma Sprite_kill_leaves_every_group_witness :
  exists h',
    Sprite_kill 1 scene1 = (Ok tt, h') /\
    Sprite_alive 1 h' = (Ok 0%nat, h') /\
    h' (Grp 1) !! Spr 1 = None /\
    h' (Grp 1) !! Spr 2 = Some 0.
Proof.
  destruct (Sprite_kill_leaves_every_group 1 scene1)
    as (h' & Hrun & Halive & _ & Hgone & Hsame & _).
  - apply mutual_scene1.
  - exists h'. split; [exact Hrun|]. split; [exact Halive|].
    split; [apply Hgone|].
    rewrite Hsame; [vm_compute; reflexivity|discriminate|discriminate].
Defined.

(** X5.  [s.kill()] needs the symmetry.  When [s] lists [g] but [g] does
    not list [s], which is the store that [s.remove(g)] with a single
    group leaves behind, [s.kill()] raises KeyError; [s] still lists
    [g] afterwards and [s.alive()] is not 0, so every later [kill]
    raises again. *)
Theorem Sprite_kill_raises_on_one_sided_link (s : nat) (g : obj) (h : heap) :
  is_Some (h (Spr s) !! g) ->
  h g !! Spr s = None ->
  exists h',
    Sprite_kill s h = (Raise KeyError, h') /\
    is_Some (h' (Spr s) !! g) /\
    h' g !! Spr s = None /\
    exists n, Sprite_alive s h' = (Ok (S n), h').
Proof.
  intros Hs Hg.
  assert (g <> Spr s) as Hne.
  { intros ->. rewrite Hg in Hs. by destruct Hs. }
  destruct (kill_loop_raises (Spr s) g (keys (h (Spr s))) h)
    as (h' & Hrun & Hh'); [by apply elem_of_keys|done|].
  assert (is_Some (h' (Spr s) !! g)) as Hs' by (by rewrite Hh').
  exists h'. split_and!.
  - unfold Sprite_kill, bind, dict_keys. by rewrite Hrun.
  - done.
  - apply eq_None_not_Some. intros Hsome.
    assert (forall l h0, h0 g !! Spr s = None ->
              (for_each l (fun c => remove_internal c (Spr s)) h0).2 g !! Spr s
              = None) as Hkeep.
    { clear. induction l as [|c l IH]; intros h0 Hn; simpl; [done|].
      unfold bind. rewrite remove_internal_eq. unfold dict_delitem at 1.
      destruct (h0 c !! Spr s) eqn:Hc; [|done].
      apply IH. unfold upd. case_decide; [subst; apply lookup_delete_eq|done]. }
    specialize (Hkeep (keys (h (Spr s))) h Hg). rewrite Hrun in Hkeep.
    simpl in Hkeep. rewrite Hkeep in Hsome. by destruct Hsome.
  - unfold Sprite_alive, dict_len.
    destruct (size (h' (Spr s))) as [|n] eqn:Hsz; [|by exists n].
    apply map_size_empty_inv in Hsz. rewrite Hsz, lookup_empty in Hs'.
    by destruct Hs'.
Qed.

Lemma Sprite_kill_raises_on_one_sided_link_witness :
  let h := after (Sprite_remove 0 (VObj (Grp 0))) scene0 in
  exists h',
    Sprite_kill 0 h = (Raise KeyError, h') /\
    is_Some (h' (Spr 0) !! Grp 0).
Proof.
  intros h.
  destruct (Sprite_kill_raises_on_one_sided_link 0 (Grp 0) h)
    as (h' & Hrun & Hs & _).
  - exists 0. vm_compute. reflexivity.
  - vm_compute. reflexivity.
  - exists h'. split; [exact Hrun|exact Hs].
Defined.

(** X6.  [g.empty()] on a store whose membership is symmetric, for a
    group that is not a member of itself: the call returns, the group
    has no sprite left ([len] is 0, [loop()] is empty), no dictionary
    has [g] as a key, the entries between other objects are as before,
    and membership is symmetric. *)
Theorem Group_empty_unlinks_every_member (g : nat) (h : heap) :
  mutual h ->
  h (Grp g) !! Grp g = None ->
  exists h',
    Group_empty g h = (Ok tt, h') /\
    Group___len__ g h' = (Ok 0%nat, h') /\
    Group_loop g h' = (Ok [], h') /\
    (forall o, h' o !! Grp g = None) /\
    (forall x y, x <> Grp g -> y <> Grp g -> h' x !! y = h x !! y) /\
    mutual h'.
Proof.
  intros Hm Hself.
  destruct (unlink_loop_exact (Grp g) (keys (h (Grp g))) h Hm)
    as (h1 & Hrun & Hm1 & Hh1).
  { apply NoDup_keys. }
  { rewrite elem_of_keys, Hself. by intros [? ?]. }
  { intros b. by rewrite elem_of_keys. }
  exists (upd h1 (Grp g) ∅).
  assert (Group_empty g h = (Ok tt, upd h1 (Grp g) ∅)) as Hempty.
  { unfold Group_empty, bind at 1, dict_keys. unfold bind at 1.
    by rewrite Group_empty_loop, Hrun. }
  split_and!.
  - exact Hempty.
  - unfold Group___len__, dict_len. by rewrite upd_eq, map_size_empty.
  - unfold Group_loop, dict_keys. by rewrite upd_eq, keys_empty.
  - intros o. unfold upd. case_decide; [apply lookup_empty|].
    rewrite Hh1. case_decide as Hb; [done|].
    apply eq_None_not_Some. intros Hsome. apply Hb. right.
    split; [|done]. apply elem_of_keys. by apply Hm.
  - intros x y Hx Hy. rewrite upd_ne by done. rewrite Hh1.
    rewrite decide_False; [done|]. intros [[-> _]|[_ ->]]; done.
  - pose proof (Group_empty_mutual g h Hm) as He. unfold after in He.
    by rewrite Hempty in He.
Qed.

Lemma Group_empty_unlinks_every_member_witness :
  exists h',
    Group_empty 1 scene1 = (Ok tt, h') /\
    Group___len__ 1 h' = (Ok 0%nat, h') /\
    h' (Spr 2) !! Grp 1 = None /\
    h' (Spr 0) !! Grp 0 = Some 0.
Proof.
  destruct (Group_empty_unlinks_every_member 1 scene1)
    as (h' & Hrun & Hlen & _ & Hgone & Hsame & _).
  - apply mutual_scene1.
  - vm_compute. reflexivity.
  - exists h'. split; [exact Hrun|]. split; [exact Hlen|].
    split; [apply Hgone|].
    rewrite Hsame; [vm_compute; reflexivity|discriminate|discriminate].
Defined.

(** X7.  [g.empty()] raises KeyError when the group holds an object that
    does not list the group, or holds itself (which [g.add(g)] brings
    about): line 276 deletes the entry and line 277 then finds nothing
    to delete. *)
Theorem Group_empty_raises_KeyError (g : nat) (b : obj) (h : heap) :
  is_Some (h (Grp g) !! b) ->
  b = Grp g \/ h b !! Grp g = None ->
  exists h', Group_empty g h = (Raise KeyError, h').
Proof.
  intros Hb Hbad.
  destruct (unlink_loop_raises (Grp g) b (keys (h (Grp g))) h)
    as (h' & Hrun); [by apply elem_of_keys|done|].
  exists h'. unfold Group_empty, bind at 1, dict_keys. unfold bind at 1.
  by rewrite Group_empty_loop, Hrun.
Qed.

Lemma Group_empty_raises_KeyError_witness :
  let h := after (Group_add 0 (VObj (Grp 0))) empty_heap in
  Group_add 0 (VObj (Grp 0)) empty_heap = (Ok tt, h) /\
  exists h', Group_empty 0 h = (Raise KeyError, h').
Proof.
  intros h. split; [reflexivity|].
  apply (Group_empty_raises_KeyError 0 (Grp 0) h).
  - exists 0. vm_compute. reflexivity.
  - left. reflexivity.
Defined.

(** X8.  On a store whose membership is symmetric, [s.alive()] is the
    number of objects whose dictionary has [s] as a key, which
    [s.groups()] lists once each; the result is not 0 exactly when some
    group holds [s].  In the same way [len(g)] is the number of objects
    that list [g], which [g.loop()] lists once each. *)
Theorem alive_counts_the_groups (i : nat) (h : heap) :
  mutual h ->
  (exists n l,
     Sprite_alive i h = (Ok n, h) /\ Sprite_groups i h = (Ok l, h) /\
     n = length l /\ NoDup l /\
     (forall g, g ∈ l <-> is_Some (h g !! Spr i)) /\
     (n <> 0%nat <-> exists g, is_Some (h g !! Spr i))) /\
  (exists n l,
     Group___len__ i h = (Ok n, h) /\ Group_loop i h = (Ok l, h) /\
     n = length l /\ NoDup l /\
     (forall s, s ∈ l <-> is_Some (h s !! Grp i))).
Proof.
  intros Hm. split.
  - exists (size (h (Spr i))), (keys (h (Spr i))).
    split_and!; [done|done| | | |].
    + by rewrite length_keys.
    + apply NoDup_keys.
    + intros g. rewrite elem_of_keys. apply Hm.
    + rewrite <- length_keys. split.
      * destruct (keys (h (Spr i))) as [|g l] eqn:Hk; [done|]. intros _.
        exists g. apply Hm, elem_of_keys. rewrite Hk. apply list_elem_of_here.
      * intros [g Hg]. apply Hm, elem_of_keys in Hg.
        destruct (keys (h (Spr i))); [by apply elem_of_nil in Hg|done].
  - exists (size (h (Grp i))), (keys (h (Grp i))).
    split_and!; [done|done| | |].
    + by rewrite length_keys.
    + apply NoDup_keys.
    + intros s. rewrite elem_of_keys. apply Hm.
Qed.

Lemma alive_counts_the_groups_witness :
  Sprite_alive 0 scene1 = (Ok 1%nat, scene1) /\
  exists l, Group_loop 1 scene1 = (Ok l, scene1) /\ length l = 2%nat.
Proof.
  destruct (alive_counts_the_groups 1 scene1) as [_ (n & l & Hn & Hl & Hlen & _)].
  - apply mutual_scene1.
  - split; [vm_compute; reflexivity|].
    exists l. split; [exact Hl|]. rewrite <- Hlen.
    assert (Group___len__ 1 scene1 = (Ok 2%nat, scene1)) as H2
      by (vm_compute; reflexivity).
    rewrite H2 in Hn. by injection Hn as <-.
Defined.

(** X9.  [Sprite(v)] for a new sprite, one that no dictionary has as a
    key, on a store whose membership is symmetric.  With a group or a
    sequence the constructor returns, the sprite is linked with exactly
    the items of [v], in both directions, and nothing else changes;
    with a single Sprite it raises TypeError and no dictionary
    changes. *)
Theorem Sprite_init_links_the_groups (s : nat) (v : value) (h : heap) :
  mutual h ->
  unknown h (Spr s) ->
  match targets v with
  | Some l =>
      exists h',
        Sprite___init__ s v h = (Ok tt, h') /\
        mutual h' /\
        forall x y, h' x !! y =
          if decide (between (Spr s) l x y) then Some 0 else h x !! y
  | None =>
      exists h',
        Sprite___init__ s v h = (Raise TypeError, h') /\ same_dicts h h'
  end.
Proof.
  intros Hm Hu. destruct (targets v) as [l|] eqn:Hl.
  - by apply (init_add_exact (CallSpriteAdd s v) l h).
  - exists (upd h (Spr s) ∅). split.
    + pose proof (run_add_not_iterable (CallSpriteAdd s v)
                    (upd h (Spr s) ∅) Hl) as Hr. simpl in Hr.
      unfold Sprite___init__, bind, dict_clear. by rewrite Hr.
    + intros x. apply map_eq. intros y.
      by apply (clear_unknown h (Spr s)).
Qed.

Lemma Sprite_init_links_the_groups_witness :
  exists h',
    Sprite___init__ 3 (VSeq [Grp 0; Grp 1]) scene1 = (Ok tt, h') /\
    h' (Grp 1) !! Spr 3 = Some 0 /\ h' (Spr 3) !! Grp 0 = Some 0 /\
    h' (Grp 1) !! Spr 2 = Some 0.
Proof.
  destruct (Sprite_init_links_the_groups 3 (VSeq [Grp 0; Grp 1]) scene1)
    as (h' & Hrun & _ & Hh').
  - apply mutual_scene1.
  - intros x. destruct x as [[|[|[|?]]]|[|[|?]]]; vm_compute; reflexivity.
  - exists h'. split; [exact Hrun|].
    rewrite !Hh'. vm_compute. repeat split.
Defined.

(** X10.  [Group(v)] for a new group on a store whose membership is
    symmetric.  With a sequence the group is linked with exactly its
    items.  With a single Sprite the constructor raises TypeError.  With
    a single group [g2] the test [if sprite:] asks [g2] for its length:
    an empty [g2] is not added, any other [g2] becomes a member. *)
Theorem Group_init_links_the_sprites (g : nat) (v : value) (h : heap) :
  mutual h ->
  unknown h (Grp g) ->
  match v with
  | VSeq l =>
      exists h',
        Group___init__ g v h = (Ok tt, h') /\
        mutual h' /\
        forall x y, h' x !! y =
          if decide (between (Grp g) l x y) then Some 0 else h x !! y
  | VObj (Spr _) =>
      exists h',
        Group___init__ g v h = (Raise TypeError, h') /\ same_dicts h h'
  | VObj (Grp g2) =>
      exists h',
        Group___init__ g v h = (Ok tt, h') /\
        mutual h' /\
        forall x y, h' x !! y =
          if decide (between (Grp g) [Grp g2] x y /\ h (Grp g2) <> ∅)
          then Some 0 else h x !! y
  end.
Proof.
  intros Hm Hu.
  destruct (clear_unknown h (Grp g) Hm Hu) as [Hm0 Heq].
  destruct v as [[i|g2]|l].
  - exists (upd h (Grp g) ∅). split; [done|].
    intros x. apply map_eq. intros y. apply Heq.
  - assert (size (upd h (Grp g) ∅ (Grp g2)) = 0%nat <-> h (Grp g2) = ∅)
      as Hsize.
    { rewrite map_size_empty_iff. split; intros He; apply map_eq; intros y.
      - by rewrite <- Heq, He.
      - by rewrite Heq, He. }
    unfold Group___init__, bind at 1, dict_clear. unfold bind at 1.
    unfold truth_value, bind at 1, dict_len, ret.
    destruct (Nat.eqb_spec (size (upd h (Grp g) ∅ (Grp g2))) 0) as [Hz|Hz];
      simpl.
    + exists (upd h (Grp g) ∅). split_and!; [done|done|].
      intros x y. rewrite Heq. rewrite decide_False; [done|].
      intros [_ Hne]. by apply Hne, Hsize.
    + destruct (run_add_exact (CallGroupAdd g (VObj (Grp g2))) [Grp g2]
                  (upd h (Grp g) ∅) eq_refl Hm0) as (h' & Hrun & Hm' & Hh').
      exists h'. split_and!; [done|done|].
      intros x y. rewrite Hh', Heq. apply decide_ext. simpl.
      split.
      * intros [Hb _]. split; [done|]. intros He. by apply Hz, Hsize.
      * intros [Hb _]. split; [done|].
        by apply (between_unknown h (Grp g) [Grp g2]).
  - by apply Group_init_sequence.
Qed.

Lemma Group_init_links_the_sprites_witness :
  exists h',
    Group___init__ 2 (VSeq [Spr 0; Spr 2]) scene1 = (Ok tt, h') /\
    h' (Grp 2) !! Spr 0 = Some 0 /\ h' (Spr 2) !! Grp 2 = Some 0 /\
    h' (Grp 2) !! Spr 1 = None.
Proof.
  destruct (Group_init_links_the_sprites 2 (VSeq [Spr 0; Spr 2]) scene1)
    as (h' & Hrun & _ & Hh').
  - apply mutual_scene1.
  - intros x. destruct x as [[|[|[|?]]]|[|[|?]]]; vm_compute; reflexivity.
  - exists h'. split; [exact Hrun|].
    rewrite !Hh'. vm_compute. repeat split.
Defined.

(** X11.  [g.copy()], the new group being an object that no dictionary
    knows, on a store whose membership is symmetric: the call returns;
    the copy holds exactly the objects that [g] holds, [loop()] of the
    copy is a permutation of [g.loop()], every one of these objects
    lists the copy, and the entries that do not involve the copy are as
    before. *)
Theorem Group_copy_has_the_same_sprites (self new : nat) (h : heap) :
  mutual h ->
  unknown h (Grp new) ->
  exists h',
    Group_copy self new h = (Ok tt, h') /\
    mutual h' /\
    (forall k, is_Some (h' (Grp new) !! k) <-> is_Some (h (Grp self) !! k)) /\
    (forall k, is_Some (h (Grp self) !! k) -> h' k !! Grp new = Some 0) /\
    (forall x y, x <> Grp new -> y <> Grp new -> h' x !! y = h x !! y) /\
    keys (h' (Grp new)) ≡ₚ keys (h (Grp self)).
Proof.
  intros Hm Hu.
  destruct (Group_init_sequence new (keys (h (Grp self))) h Hm Hu)
    as (h' & Hrun & Hm' & Hh').
  assert (forall k, is_Some (h' (Grp new) !! k) <-> is_Some (h (Grp self) !! k))
    as Hsame.
  { intros k. rewrite Hh'. rewrite <- elem_of_keys.
    assert (h (Grp new) !! k = None) as Hn.
    { apply eq_None_not_Some. intros Hs. apply Hm in Hs.
      rewrite Hu in Hs. by destruct Hs. }
    case_decide as Hb.
    - split; [|by eauto]. intros _.
      destruct Hb as [[_ Hk]|[Hk ->]]; [done|].
      apply elem_of_keys in Hk. rewrite Hu in Hk. by destruct Hk.
    - rewrite Hn. split; [by intros [? ?]|].
      intros Hk. exfalso. apply Hb. by left. }
  exists h'. split_and!; [exact Hrun|done|exact Hsame| | |].
  - intros k Hk. rewrite Hh'. rewrite decide_True; [done|].
    right. split; [|done]. by apply elem_of_keys.
  - intros x y Hx Hy. rewrite Hh'. rewrite decide_False; [done|].
    intros [[-> _]|[_ ->]]; done.
  - apply NoDup_Permutation; [apply NoDup_keys|apply NoDup_keys|].
    intros k. rewrite !elem_of_keys. apply Hsame.
Qed.

Lemma Group_copy_has_the_same_sprites_witness :
  exists h',
    Group_copy 1 2 scene1 = (Ok tt, h') /\
    h' (Spr 1) !! Grp 2 = Some 0 /\ h' (Spr 2) !! Grp 2 = Some 0 /\
    h' (Grp 2) !! Spr 0 = None /\ h' (Grp 1) !! Spr 1 = Some 0.
Proof.
  destruct (Group_copy_has_the_same_sprites 1 2 scene1)
    as (h' & Hrun & _ & Hsame & Hin & Hother & _).
  - apply mutual_scene1.
  - intros x. destruct x as [[|[|[|?]]]|[|[|?]]]; vm_compute; reflexivity.
  - exists h'. split; [exact Hrun|].
    split; [apply Hin; exists 0; vm_compute; reflexivity|].
    split; [apply Hin; exists 0; vm_compute; reflexivity|].
    split.
    + apply eq_None_not_Some. intros Hs. apply Hsame in Hs.
      destruct Hs as [z Hz]. vm_compute in Hz. discriminate.
    + rewrite Hother; [vm_compute; reflexivity|discriminate|discriminate].
Defined.



End SpriteMoreFacts.

Module SurfarrayMoreFacts.
Import Surfarray SurfarrayFacts SurfarrayMore.

(** ** The choice of the array module *)

Lemma try_modules_spec importable names : forall _array,
  try_modules importable names _array =
  (Ok tt, from_option Some _array (last_importable importable names)).
Proof.
  unfold try_modules, last_importable.
  induction names as [|name names IH]; intros _array; simpl; [done|].
  unfold bind at 1, except_ImportError_pass, __import__, bind.
  destruct (importable name) eqn:Hi; simpl.
  - rewrite IH. rewrite filter_cons_True by done.
    destruct (filter _ names) as [|n l] eqn:Hf; [done|].
    change (last (name :: n :: l)) with (last (n :: l)).
    destruct (proj2 (last_is_Some (n :: l))) as [x ->]; done.
  - rewrite IH. by rewrite filter_cons_False by (by rewrite Hi).
Qed.

(** ** Elements and pixels *)

Local Open Scope nat_scope.

Lemma length_pixel (n : nat) (s : bytes) (k i : nat) :
  length s = k * n -> i < k -> length (pixel n s i) = n.
Proof.
  intros Hlen Hi. unfold pixel. rewrite length_take, length_drop, Hlen.
  apply Nat.min_l. nia.
Qed.

Lemma length_fit lil_endian (isz bpp : nat) (px : bytes) :
  length px = isz -> length (fit lil_endian isz bpp px) = bpp.
Proof.
  intros Hpx. unfold fit.
  destruct (Nat.ltb_spec bpp isz), lil_endian;
    rewrite ?length_take, ?length_drop, ?length_app, ?length_replicate; lia.
Qed.

(** Chunk [i] of a string glued from [k] pieces of [n] bytes. *)
Lemma pixel_concat (n : nat) (f : nat -> bytes) (k i : nat) :
  (forall j, j < k -> length (f j) = n) ->
  i < k ->
  pixel n (concat (f <$> seq 0 k)) i = f i.
Proof.
  intros Hlen Hi. unfold pixel.
  destruct (pixel_concat_const n f k i Hlen Hi) as [rest ->].
  rewrite take_app_length'; [done|]. symmetry. by apply Hlen.
Qed.

Lemma findall_group_general (pre keep post : nat) (s : bytes) :
  0 < pre + keep + post ->
  findall_group pre keep post s =
  (fun i => take keep (drop pre (pixel (pre + keep + post) s i)))
    <$> seq 0 (length s / (pre + keep + post)).
Proof.
  intros Hn. unfold findall_group. rewrite findall_spec by done.
  by rewrite <- list_fmap_compose.
Qed.

(** Lines 371-388 fit every element to the size of a pixel, provided
    there is at least one element. *)
Lemma resize_pixels_spec lil_endian (isz bpp n : nat) (s : bytes) :
  0 < isz -> 0 < bpp -> 0 < n ->
  length s = n * isz ->
  resize_pixels lil_endian (Z.of_nat isz) (Z.of_nat bpp) s =
  concat ((fun i => fit lil_endian isz bpp (pixel isz s i)) <$> seq 0 n).
Proof.
  intros Hisz Hbpp Hn Hlen. unfold resize_pixels, fit, dots.
  assert (length s / isz = n) as Hdiv by (rewrite Hlen, Nat.div_mul; lia).
  assert (pixel isz s <$> seq 0 n <> []) as Hne by (destruct n; [lia|done]).
  destruct (Z.gtb_spec (Z.of_nat isz) (Z.of_nat bpp)) as [Hgt|Hle].
  - rewrite (proj2 (Nat.ltb_lt bpp isz)) by lia.
    replace (Z.to_nat (Z.of_nat isz - Z.of_nat bpp)) with (isz - bpp) by lia.
    rewrite Nat2Z.id.
    destruct lil_endian; f_equal.
    + rewrite findall_group_general by lia. simpl.
      replace (bpp + (isz - bpp)) with isz by lia. rewrite Hdiv.
      apply list_fmap_ext. intros i x _. by rewrite drop_0.
    + rewrite findall_group_general by lia.
      replace (isz - bpp + bpp + 0) with isz by lia. rewrite Hdiv.
      apply list_fmap_ext. intros i x Hx. apply lookup_seq in Hx as [-> Hx].
      simpl. apply take_ge.
      rewrite length_drop, (length_pixel isz s n) by done. lia.
  - destruct (Z.ltb_spec (Z.of_nat isz) (Z.of_nat bpp)) as [Hlt|Hge].
    + rewrite (proj2 (Nat.ltb_ge bpp isz)) by lia.
      replace (Z.to_nat (Z.of_nat bpp - Z.of_nat isz)) with (bpp - isz) by lia.
      rewrite Nat2Z.id, findall_spec, Hdiv by done.
      destruct lil_endian.
      * rewrite join_then_sep by done. by rewrite <- list_fmap_compose.
      * rewrite sep_then_join by done. by rewrite <- list_fmap_compose.
    + assert (bpp = isz) as -> by lia.
      rewrite Nat.ltb_irrefl, Nat.sub_diag. simpl.
      rewrite <- (concat_pixels isz n s Hlen) at 1. f_equal.
      apply list_fmap_ext. intros i x _.
      destruct lil_endian; [by rewrite app_nil_r|done].
Qed.

Local Close Scope nat_scope.

(** ** Rows and padding *)

Section LaidOut.

Variable surf : SDL_Surface.
Hypothesis Hwf : wf_surface surf.
Hypothesis Hbpp : 0 < BytesPerPixel surf.
Hypothesis Hw : 0 < w surf.
Hypothesis Hh : 0 < h surf.

Variable data : bytes.
Hypothesis Hdata :
  length data =
  (Z.to_nat (h surf) * Z.to_nat (w surf * BytesPerPixel surf))%nat.

Let W := Z.to_nat (w surf * BytesPerPixel surf).
Let P := Z.to_nat (pitch surf).
Let R := Z.to_nat (h surf).
Let padded (y : nat) : bytes :=
  pixel W data y ++
  replicate (Z.to_nat (pitch surf - w surf * BytesPerPixel surf)) NUL.

Lemma length_padded y : (y < R)%nat -> length (padded y) = P.
Proof.
  intros Hy. unfold padded.
  rewrite length_app, length_replicate, (length_pixel W data R) by done.
  destruct Hwf as (_ & _ & Hp & _). unfold P, W. nia.
Qed.

Lemma length_laid_out : length (laid_out surf data) = length (pixels surf).
Proof.
  unfold laid_out. fold W R padded.
  rewrite (length_concat_const P).
  - by rewrite length_fmap, length_seq, length_pixels_nat.
  - apply Forall_fmap, Forall_forall. intros y Hy%elem_of_seq. simpl.
    apply length_padded. lia.
Qed.

(** The rows of the buffer are the rows of [data]. *)
Lemma pixel_bytes_laid_out :
  pixel_bytes (with_pixels surf (laid_out surf data)) = data.
Proof.
  unfold pixel_bytes; simpl. fold R.
  rewrite <- (concat_pixels W R data Hdata) at 2.
  f_equal. apply list_fmap_ext. intros i y Hy.
  apply lookup_seq in Hy as [-> Hy]. simpl.
  unfold row; simpl. fold W P. unfold laid_out. fold W R padded.
  destruct (pixel_concat_const P padded R i length_padded Hy) as [rest ->].
  unfold padded. rewrite <- app_assoc.
  rewrite take_app_length'; [done|]. symmetry. by apply (length_pixel W data R).
Qed.

(** Lines 390-396 lay the packed rows out with zero padding. *)
Lemma add_pitch_spec :
  add_pitch surf (BytesPerPixel surf) data = laid_out surf data.
Proof.
  pose proof Hwf as (_ & _ & Hp & _).
  assert (dots (w surf) * dots (BytesPerPixel surf) = W)%nat as HW
    by (unfold dots, W; rewrite Z2Nat.inj_mul; lia).
  assert (0 < W)%nat as HWpos by (unfold W; nia).
  assert (0 < R)%nat as HRpos by (unfold R; lia).
  unfold add_pitch, laid_out. rewrite HW. fold W R.
  destruct (Z.gtb_spec (pitch surf - w surf * BytesPerPixel surf) 0)
    as [Hd|Hd].
  - rewrite findall_spec by done. fold W R in Hdata.
    rewrite Hdata, Nat.div_mul by lia.
    rewrite join_then_sep by (destruct R; [lia|done]).
    by rewrite <- list_fmap_compose.
  - replace (pitch surf - w surf * BytesPerPixel surf) with 0 by lia. simpl.
    rewrite <- (concat_pixels W R data Hdata) at 1. f_equal.
    apply list_fmap_ext. intros i y _. simpl. by rewrite app_nil_r.
Qed.

End LaidOut.

(** Laying out the pixel bytes of a surface gives its buffer with the
    padding zeroed. *)
Lemma laid_out_pixel_bytes surf :
  wf_surface surf -> 0 < BytesPerPixel surf ->
  laid_out surf (pixel_bytes surf) = repadded surf.
Proof.
  intros Hwf Hbpp. unfold laid_out, repadded. f_equal.
  apply list_fmap_ext. intros i y Hy. apply lookup_seq in Hy as [-> Hy].
  simpl. f_equal. unfold pixel_bytes.
  apply pixel_concat; [|done].
  intros j Hj. apply length_row; [done|lia|done].
Qed.

(** [blit_array] with an array of the shape of the surface: what is
    written is the string of the array's elements, each fitted to the
    size of a pixel, laid out in rows. *)
Lemma blit_array_spec
    (m : array_module) (lil_endian : bool) (tostring : ndarray -> bytes)
    (surf : SDL_Surface) (a : ndarray) :
  wf_surface surf ->
  1 <= BytesPerPixel surf <= 4 ->
  0 < w surf -> 0 < h surf ->
  ar_shape a = [w surf; h surf] ->
  0 < itemsize (ar_type a) ->
  Z.of_nat (length (tostring a)) = w surf * h surf * itemsize (ar_type a) ->
  let isz := Z.to_nat (itemsize (ar_type a)) in
  let bpp := Z.to_nat (BytesPerPixel surf) in
  let n := Z.to_nat (w surf * h surf) in
  let data :=
    concat ((fun i => fit lil_endian isz bpp (pixel isz (tostring a) i))
              <$> seq 0 n) in
  blit_array (Some m) lil_endian tostring surf a
  = (Ok tt, laid_out surf data) /\
  length data =
  (Z.to_nat (h surf) * Z.to_nat (w surf * BytesPerPixel surf))%nat.
Proof.
  intros Hwf Hbpp Hw Hh Hshape Hisz Hlen isz bpp n data.
  assert (length (tostring a) = (n * isz)%nat) as Hlen'.
  { apply Nat2Z.inj. rewrite Hlen. unfold n, isz.
    rewrite Nat2Z.inj_mul, !Z2Nat.id by nia. done. }
  assert (0 < n)%nat as Hn by (unfold n; nia).
  assert (length data =
          (Z.to_nat (h surf) * Z.to_nat (w surf * BytesPerPixel surf))%nat)
    as Hdata.
  { unfold data. rewrite (length_concat_const bpp).
    - rewrite length_fmap, length_seq. unfold n, bpp.
      rewrite !Z2Nat.inj_mul by lia. lia.
    - apply Forall_fmap, Forall_forall. intros i Hi%elem_of_seq. simpl.
      apply length_fit. apply (length_pixel isz _ n); [done|lia]. }
  split; [|exact Hdata].
  unfold blit_array. simpl. rewrite Hshape. simpl.
  rewrite !Z.eqb_refl. simpl.
  destruct (Z.leb_spec (BytesPerPixel surf) 0) as [?|Hb0]; [lia|].
  destruct (Z.gtb_spec (BytesPerPixel surf) 4) as [?|Hb4']; [lia|]. simpl.
  pose proof (resize_pixels_spec lil_endian isz bpp n (tostring a)) as Hr.
  assert (Z.of_nat isz = itemsize (ar_type a)) as Hi by (unfold isz; lia).
  assert (Z.of_nat bpp = BytesPerPixel surf) as Hb by (unfold bpp; lia).
  rewrite Hi, Hb in Hr. rewrite Hr by (done || unfold isz, bpp; lia).
  fold data.
  rewrite add_pitch_spec by (done || lia).
  unfold memmove.
  rewrite firstn_all.
  rewrite length_laid_out by (done || lia).
  by rewrite drop_all, app_nil_r.
Qed.


(** ** A [tostring] that follows the strides *)

Local Open Scope nat_scope.

(** A string glued column by column is a string glued index by index. *)
Lemma concat_by_column (f : nat -> nat -> bytes) (H : nat) : forall W,
  0 < H ->
  concat ((fun x => concat ((fun y => f x y) <$> seq 0 H)) <$> seq 0 W) =
  concat ((fun i => f (i / H) (i mod H)) <$> seq 0 (W * H)).
Proof.
  intros W HH. induction W as [|W IH]; [done|].
  replace (S W * H) with (W * H + H) by lia.
  rewrite seq_S, fmap_app, concat_app, IH.
  rewrite seq_app, fmap_app, concat_app. f_equal.
  rewrite fmap_cons, fmap_nil, concat_cons, concat_nil, app_nil_r.
  f_equal. rewrite Nat.add_0_l, Nat.add_0_l.
  rewrite <- (Nat.add_0_r (W * H)) at 1.
  rewrite <- (fmap_add_seq (W * H)), <- list_fmap_compose.
  apply list_fmap_ext. intros i y Hy. apply lookup_seq in Hy as [-> Hy].
  simpl.
  replace (W * H + i) with (i + W * H) by lia.
  rewrite Nat.div_add, Nat.Div0.mod_add by lia.
  rewrite Nat.div_small, Nat.mod_small by lia. done.
Qed.

Local Close Scope nat_scope.

(** numpy's [tostring] on the array that [array2d] builds lists the
    pixels column by column: element (x, y) is read at the offset
    x * bpp + y * bpp * w, and the last index runs fastest. *)
Lemma tostring_strided_by_column (surf : SDL_Surface) (t : typecode) :
  0 < BytesPerPixel surf -> 0 <= w surf ->
  itemsize t = BytesPerPixel surf ->
  tostring_strided
    {| ar_data := pixel_bytes surf; ar_type := t;
       ar_shape := [w surf; h surf];
       ar_strides := [BytesPerPixel surf; BytesPerPixel surf * w surf] |}
  = pixels_by_column surf.
Proof.
  intros Hb Hw Ht. unfold tostring_strided, pixels_by_column. simpl.
  f_equal. apply list_fmap_ext. intros i x Hx. apply lookup_seq in Hx as [-> _].
  simpl. f_equal. apply list_fmap_ext. intros k y Hy.
  apply lookup_seq in Hy as [-> _]. simpl.
  unfold pixel. rewrite Ht. do 2 f_equal.
  rewrite Z2Nat.inj_add, !Z2Nat.inj_mul, !Nat2Z.id by nia. simpl. lia.
Qed.

Lemma length_pixels_by_column surf :
  wf_surface surf -> 0 < BytesPerPixel surf ->
  length (pixels_by_column surf) =
  (Z.to_nat (w surf * h surf) * Z.to_nat (BytesPerPixel surf))%nat.
Proof.
  intros Hwf Hb. pose proof (length_pixel_bytes surf Hwf ltac:(lia)) as Hlen.
  destruct Hwf as (Hw & Hh & _).
  set (W := Z.to_nat (w surf)). set (H := Z.to_nat (h surf)).
  set (bpp := Z.to_nat (BytesPerPixel surf)).
  assert (length (pixel_bytes surf) = (W * H * bpp)%nat) as Hlen'.
  { rewrite Hlen. unfold W, H, bpp. rewrite Z2Nat.inj_mul by lia. lia. }
  unfold pixels_by_column. fold W H bpp.
  rewrite (length_concat_const (H * bpp)).
  - rewrite length_fmap, length_seq. unfold W, H, bpp.
    rewrite Z2Nat.inj_mul by lia. lia.
  - apply Forall_fmap, Forall_forall. intros x Hx%elem_of_seq. simpl.
    rewrite (length_concat_const bpp).
    + by rewrite length_fmap, length_seq.
    + apply Forall_fmap, Forall_forall. intros y Hy%elem_of_seq. simpl.
      apply (length_pixel bpp _ (W * H)); [done|]. nia.
Qed.

(** ** Further statements about surfarray.py *)

(** X13.  [set_array_module()] without argument never raises, and the
    loop of lines 77-81 goes on after a successful import: the module
    left in [_array] is the last importable one of numpy, numarray,
    Numeric, that is Numeric when it can be imported, else numarray,
    else numpy; when none can be imported [_array] is unchanged.  With a
    module as argument, that module is set.  Afterwards [_check_array]
    passes exactly when a module was set before or one of the three can
    be imported. *)
Theorem set_array_module_keeps_the_last_importable
    (importable : string -> bool) (_array : option array_module) :
  let chosen :=
    if importable "Numeric" then Some Numeric
    else if importable "numarray" then Some numarray
    else if importable "numpy" then Some numpy
    else _array in
  set_array_module importable None _array = (Ok tt, chosen) /\
  (forall names,
     try_modules importable names _array =
     (Ok tt, from_option Some _array (last_importable importable names))) /\
  (forall module,
     set_array_module importable (Some module) _array = (Ok tt, Some module)) /\
  get_array_module chosen = (Ok chosen, chosen) /\
  (_check_array chosen = Ok tt <->
   is_Some _array \/ importable "numpy" = true \/
   importable "numarray" = true \/ importable "Numeric" = true).
Proof.
  intros chosen. split_and!.
  - unfold set_array_module. rewrite try_modules_spec.
    unfold chosen, last_importable.
    destruct (importable "numpy") eqn:H1, (importable "numarray") eqn:H2,
             (importable "Numeric") eqn:H3;
      repeat first
        [ rewrite filter_cons_True by (simpl; congruence)
        | rewrite filter_cons_False by (simpl; congruence) ];
      reflexivity.
  - intros names. apply try_modules_spec.
  - done.
  - done.
  - unfold chosen.
    destruct (importable "numpy"), (importable "numarray"),
             (importable "Numeric"), _array as [m|]; simpl;
      split; try done; try (intros _; eauto; fail).
    intros [[? ?]|[?|[?|?]]]; done.
Qed.

(** X14.  What [blit_array] writes when an array module is set,
    whichever it is, for a 2D array of the shape of the surface whose
    [tostring()] has one element of [itemsize] bytes per pixel: the
    call returns; pixel [i] of the surface is element [i] of
    the string, cut down to its [BytesPerPixel] least significant bytes
    or widened by zero bytes at the most significant end; the padding of
    every row is zero bytes and the buffer keeps its length. *)
Theorem blit_array_writes_the_elements
    (m : array_module) (lil_endian : bool) (tostring : ndarray -> bytes)
    (surf : SDL_Surface) (a : ndarray) :
  wf_surface surf ->
  1 <= BytesPerPixel surf <= 4 ->
  0 < w surf -> 0 < h surf ->
  ar_shape a = [w surf; h surf] ->
  0 < itemsize (ar_type a) ->
  Z.of_nat (length (tostring a)) = w surf * h surf * itemsize (ar_type a) ->
  let isz := Z.to_nat (itemsize (ar_type a)) in
  let bpp := Z.to_nat (BytesPerPixel surf) in
  let n := Z.to_nat (w surf * h surf) in
  let data :=
    concat ((fun i => fit lil_endian isz bpp (pixel isz (tostring a) i))
              <$> seq 0 n) in
  blit_array (Some m) lil_endian tostring surf a
  = (Ok tt, laid_out surf data) /\
  pixel_bytes (with_pixels surf (laid_out surf data)) = data /\
  length (laid_out surf data) = length (pixels surf) /\
  forall i, (i < n)%nat ->
    pixel bpp data i = fit lil_endian isz bpp (pixel isz (tostring a) i).
Proof.
  intros Hwf Hbpp Hw Hh Hshape Hisz Hlen isz bpp n data.
  destruct (blit_array_spec m lil_endian tostring surf a
              Hwf Hbpp Hw Hh Hshape Hisz Hlen) as [Hrun Hdata].
  split; [exact Hrun|].
  split; [apply pixel_bytes_laid_out; (done || lia)|].
  split; [apply length_laid_out; (done || lia)|].
  intros i Hi. apply pixel_concat; [|done].
  intros j Hj. apply length_fit.
  apply (length_pixel _ _ (Z.to_nat (w surf * h surf))); [|done].
  apply Nat2Z.inj. rewrite Hlen. unfold isz.
  rewrite Nat2Z.inj_mul, !Z2Nat.id by nia. done.
Qed.

Lemma blit_array_writes_the_elements_witness :
  blit_array (Some numpy) true tostring_stored hicolor_surface wide_array
  = (Ok tt, [Byte.x01; Byte.x02; Byte.x05; Byte.x06; NUL; NUL; NUL; NUL]) /\
  blit_array (Some numpy) false tostring_stored hicolor_surface wide_array
  = (Ok tt, [Byte.x03; Byte.x04; Byte.x07; Byte.x08; NUL; NUL; NUL; NUL]).
Proof.
  split.
  - destruct (blit_array_writes_the_elements numpy true tostring_stored
                hicolor_surface wide_array) as (Hrun & _);
      [unfold wf_surface; simpl; lia|simpl; lia|simpl; lia|simpl; lia
      |reflexivity|simpl; lia|reflexivity|].
    rewrite Hrun. reflexivity.
  - reflexivity.
Defined.

(** X15.  The conversion of a 24-bit surface is a round trip as well.
    With numpy, numarray or Numeric set and a [tostring()] that returns
    the string the array was made from, for every 3-bytes-per-pixel
    surface that has pixels, [blit_array(surface, array2d(surface))]
    writes every pixel byte back where it was, on both byte orders: the
    zero byte that [array2d] adds to a pixel is the byte that
    [blit_array] trims.  The padding of the rows is written as zero
    bytes. *)
Theorem round_trip_of_a_24_bit_surface
    (m : array_module) (lil_endian : bool) (tostring : ndarray -> bytes)
    (surf : SDL_Surface) :
  wf_surface surf ->
  m ∈ [numpy; numarray; Numeric] ->
  BytesPerPixel surf = 3 ->
  0 < w surf -> 0 < h surf ->
  (forall a, array2d (Some m) lil_endian surf = Ok a -> tostring a = ar_data a) ->
  exists a,
    array2d (Some m) lil_endian surf = Ok a /\
    itemsize (ar_type a) = 4 /\
    blit_array (Some m) lil_endian tostring surf a = (Ok tt, repadded surf) /\
    pixel_bytes (with_pixels surf (repadded surf)) = pixel_bytes surf /\
    length (repadded surf) = length (pixels surf).
Proof.
  intros Hwf Hm Hb Hw Hh Hts.
  destruct (array2d_spec m lil_endian surf Hwf Hm ltac:(lia) ltac:(nia))
    as (t & Ha & Ht & Hlen).
  assert (array_bpp surf = 4) as Hbpp4 by (unfold array_bpp; by rewrite Hb).
  rewrite Hbpp4 in *.
  set (a := {| ar_data := array_bytes lil_endian surf; ar_type := t;
               ar_shape := [w surf; h surf];
               ar_strides := [4; 4 * w surf] |}) in *.
  pose proof (Hts a Ha) as Hdata. simpl in Hdata.
  pose proof (length_pixel_bytes surf Hwf ltac:(lia)) as Hpb.
  set (n := Z.to_nat (w surf * h surf)).
  assert (length (pixel_bytes surf) = (n * 3)%nat) as Hpb3.
  { rewrite Hpb, Hb. unfold n. rewrite !Z2Nat.inj_mul by lia. simpl. lia. }
  destruct (blit_array_spec m lil_endian tostring surf a) as [Hrun _];
    [done|lia|done|done|done|simpl; lia|simpl; rewrite Hdata, Ht; lia|].
  assert (concat ((fun i => fit lil_endian (Z.to_nat (itemsize (ar_type a)))
                              (Z.to_nat (BytesPerPixel surf))
                              (pixel (Z.to_nat (itemsize (ar_type a)))
                                     (tostring a) i))
                    <$> seq 0 (Z.to_nat (w surf * h surf)))
          = pixel_bytes surf) as Hround.
  { fold n.
    transitivity (concat (pixel 3 (pixel_bytes surf) <$> seq 0 n));
      [|by apply concat_pixels].
    f_equal.
    apply list_fmap_ext. intros i x Hx. apply lookup_seq in Hx as [-> Hx].
    simpl. rewrite Hdata, Ht, Hb. unfold array_bytes. rewrite Hb. simpl.
    change (Z.to_nat 4) with 4%nat. change (Z.to_nat 3) with 3%nat. fold n.
    assert (length (pixel 3 (pixel_bytes surf) i) = 3%nat) as Hpx
      by (by apply (length_pixel 3 _ n)).
    rewrite (pixel_concat 4
               (fun i => widen lil_endian (pixel 3 (pixel_bytes surf) i)) n i);
      [|intros j Hj|done].
    - unfold fit, widen. simpl. destruct lil_endian.
      + rewrite take_app_length'; done.
      + done.
    - unfold widen.
      destruct lil_endian; simpl; rewrite ?length_app;
        rewrite (length_pixel 3 _ n) by done; simpl; lia. }
  rewrite Hround in Hrun.
  rewrite laid_out_pixel_bytes in Hrun by (done || lia).
  exists a. split_and!; [done|by simpl|done| |].
  - apply pixel_bytes_repadded; (done || lia).
  - apply length_repadded; (done || lia).
Qed.

Lemma round_trip_of_a_24_bit_surface_witness :
  exists a,
    array2d (Some numarray) false rgb_surface = Ok a /\
    blit_array (Some numarray) false tostring_stored rgb_surface a
    = (Ok tt, [Byte.x01; Byte.x02; Byte.x03; NUL;
               Byte.x04; Byte.x05; Byte.x06; NUL]).
Proof.
  destruct (round_trip_of_a_24_bit_surface numarray false tostring_stored
              rgb_surface) as (a & Ha & _ & Hrun & _).
  - unfold wf_surface; simpl; lia.
  - apply list_elem_of_further, list_elem_of_here.
  - reflexivity.
  - simpl; lia.
  - simpl; lia.
  - intros a. reflexivity.
  - exists a. split; [exact Ha|]. rewrite Hrun. reflexivity.
Defined.

(** X16.  With a [tostring()] that follows the strides of the array, as
    numpy's does, [blit_array(surface, array2d(surface))] does not
    write the pixels back where they were.  For every surface with 1, 2
    or 4 bytes per pixel that has pixels, the array that [array2d]
    builds has the strides (bpp, bpp * w); its [tostring()] lists the
    pixels column by column, and [blit_array], which reads the strides
    only to print them, lays that string out row by row: pixel [i] of
    the surface afterwards is the pixel that was in column [i / h] and
    row [i mod h]. *)
Theorem strided_tostring_goes_by_column
    (m : array_module) (lil_endian : bool) (surf : SDL_Surface) :
  wf_surface surf ->
  m ∈ [numpy; numarray; Numeric] ->
  BytesPerPixel surf ∈ [1; 2; 4] ->
  0 < w surf -> 0 < h surf ->
  let bpp := Z.to_nat (BytesPerPixel surf) in
  let W := Z.to_nat (w surf) in
  let H := Z.to_nat (h surf) in
  exists a,
    array2d (Some m) lil_endian surf = Ok a /\
    ar_strides a = [BytesPerPixel surf; BytesPerPixel surf * w surf] /\
    tostring_strided a = pixels_by_column surf /\
    blit_array (Some m) lil_endian tostring_strided surf a
    = (Ok tt, laid_out surf (pixels_by_column surf)) /\
    pixel_bytes (with_pixels surf (laid_out surf (pixels_by_column surf)))
    = pixels_by_column surf /\
    forall i, (i < W * H)%nat ->
      pixel bpp (pixels_by_column surf) i =
      pixel bpp (pixel_bytes surf) ((i mod H) * W + i / H).
Proof.
  intros Hwf Hm Hb Hw Hh bpp W H.
  assert (1 <= BytesPerPixel surf <= 4 /\ BytesPerPixel surf <> 3) as [Hb14 Hb3].
  { repeat (apply elem_of_cons in Hb as [->|Hb]; [lia|]).
    by apply elem_of_nil in Hb. }
  destruct (array2d_spec m lil_endian surf Hwf Hm Hb14 ltac:(lia))
    as (t & Ha & Ht & _).
  assert (array_bpp surf = BytesPerPixel surf) as Hbpp.
  { unfold array_bpp. by rewrite (proj2 (Z.eqb_neq _ _) Hb3). }
  assert (array_bytes lil_endian surf = pixel_bytes surf) as Hbytes.
  { unfold array_bytes. by rewrite (proj2 (Z.eqb_neq _ _) Hb3). }
  rewrite Hbpp, Hbytes in *.
  set (a := {| ar_data := pixel_bytes surf; ar_type := t;
               ar_shape := [w surf; h surf];
               ar_strides := [BytesPerPixel surf;
                              BytesPerPixel surf * w surf] |}) in *.
  assert (tostring_strided a = pixels_by_column surf) as Hts
    by (apply tostring_strided_by_column; (done || lia)).
  pose proof (length_pixels_by_column surf Hwf ltac:(lia)) as Hlen.
  assert (length (pixel_bytes surf) = (W * H * bpp)%nat) as Hpb.
  { rewrite (length_pixel_bytes surf Hwf) by lia. unfold W, H, bpp.
    rewrite Z2Nat.inj_mul by lia. lia. }
  assert (forall i, (i < W * H)%nat -> ((i mod H) * W + i / H < W * H)%nat)
    as Hrange.
  { intros i Hi.
    assert (i mod H < H)%nat by (apply Nat.mod_upper_bound; unfold H; lia).
    assert (i / H < W)%nat by (apply Nat.Div0.div_lt_upper_bound; lia).
    nia. }
  assert (pixels_by_column surf =
          concat ((fun i => pixel bpp (pixel_bytes surf) ((i mod H) * W + i / H))
                    <$> seq 0 (W * H))) as Hflat.
  { unfold pixels_by_column. fold bpp W H.
    apply (concat_by_column
             (fun x y => pixel bpp (pixel_bytes surf) (y * W + x))).
    unfold H. lia. }
  destruct (blit_array_spec m lil_endian tostring_strided surf a)
    as [Hrun Hdata];
    [done|done|done|done|done|simpl; lia| |].
  { rewrite Hts, Hlen. simpl. rewrite Ht.
    rewrite Nat2Z.inj_mul, !Z2Nat.id by nia. done. }
  assert (concat ((fun i => fit lil_endian (Z.to_nat (itemsize (ar_type a)))
                              (Z.to_nat (BytesPerPixel surf))
                              (pixel (Z.to_nat (itemsize (ar_type a)))
                                     (tostring_strided a) i))
                    <$> seq 0 (Z.to_nat (w surf * h surf)))
          = pixels_by_column surf) as Hsame.
  { simpl. rewrite Ht, Hts. fold bpp.
    transitivity (concat (pixel bpp (pixels_by_column surf)
                            <$> seq 0 (Z.to_nat (w surf * h surf))));
      [|by apply concat_pixels].
    f_equal. apply list_fmap_ext. intros i x _. simpl.
    unfold fit. rewrite Nat.ltb_irrefl, Nat.sub_diag. simpl.
    destruct lil_endian; [by rewrite app_nil_r|done]. }
  rewrite Hsame in Hrun, Hdata.
  exists a. split_and!; [done|done|done|done| |].
  - apply pixel_bytes_laid_out; (done || lia).
  - intros i Hi. rewrite Hflat at 1.
    apply (pixel_concat bpp
             (fun i => pixel bpp (pixel_bytes surf) ((i mod H) * W + i / H)));
      [|done].
    intros k Hk. apply (length_pixel bpp _ (W * H)); [done|by apply Hrange].
Qed.

Lemma strided_tostring_goes_by_column_witness :
  exists a,
    array2d (Some numpy) true gray_surface = Ok a /\
    blit_array (Some numpy) true tostring_strided gray_surface a
    = (Ok tt, [Byte.x01; Byte.x03; Byte.x02; Byte.x04]).
Proof.
  destruct (strided_tostring_goes_by_column numpy true gray_surface)
    as (a & Ha & _ & _ & Hrun & _).
  - unfold wf_surface; simpl; lia.
  - apply list_elem_of_here.
  - apply list_elem_of_here.
  - simpl; lia.
  - simpl; lia.
  - exists a. split; [exact Ha|]. rewrite Hrun. reflexivity.
Defined.

End SurfarrayMoreFacts.

Module SingleFacts.
Import Single.

(** ** Taking and leaving the place in a GroupSingle *)

Lemma seated_paired s j st st' : paired st -> seated s j st st' -> paired st'.
Proof.
  intros [Hp1 Hp2] (Hj & Hother & Hkey & Hrest). split.
  - intros j' o Ho. destruct (decide (j' = j)) as [->|Hne].
    + rewrite Hj in Ho. injection Ho as <-. exists s. split; [done|].
      by apply Hkey.
    + rewrite Hother in Ho by done.
      destruct (Hp1 j' o Ho) as (s1 & -> & Hs1). exists s1. split; [done|].
      rewrite Hrest; [done|]. congruence.
  - intros s' k Hk. destruct (decide (k = Sgl j)) as [->|Hne].
    + exists j. split; [done|]. apply Hkey in Hk. by subst.
    + rewrite Hrest in Hk by done.
      destruct (Hp2 s' k Hk) as (j' & -> & Hj'). exists j'. split; [done|].
      rewrite Hother; [done|]. congruence.
Qed.

Lemma vacated_paired j st st' : paired st -> vacated j st st' -> paired st'.
Proof.
  intros [Hp1 Hp2] (Hj & Hother & Hkey & Hrest). split.
  - intros j' o Ho. destruct (decide (j' = j)) as [->|Hne]; [congruence|].
    rewrite Hother in Ho by done.
    destruct (Hp1 j' o Ho) as (s1 & -> & Hs1). exists s1. split; [done|].
    rewrite Hrest; [done|]. congruence.
  - intros s' k Hk. destruct (decide (k = Sgl j)) as [->|Hne].
    + rewrite Hkey in Hk. by destruct Hk.
    + rewrite Hrest in Hk by done.
      destruct (Hp2 s' k Hk) as (j' & -> & Hj'). exists j'. split; [done|].
      rewrite Hother; [done|]. congruence.
Qed.

(** On a paired store at most one sprite lists a GroupSingle. *)
Lemma paired_key st s j :
  paired st -> is_Some (g st s !! Sgl j) -> sprite st j = Some (Spr s).
Proof.
  intros [_ Hp2] Hk. destruct (Hp2 s (Sgl j) Hk) as (j' & Hj & Hs).
  by injection Hj as <-.
Qed.

Lemma paired_sprite st s j :
  paired st -> sprite st j = Some (Spr s) -> is_Some (g st s !! Sgl j).
Proof.
  intros [Hp1 _] Hs. destruct (Hp1 j (Spr s) Hs) as (s' & Hs' & Hk).
  by injection Hs' as <-.
Qed.

Ltac store_cases :=
  simpl; repeat case_decide; subst;
  rewrite ?lookup_insert_eq, ?lookup_delete_eq;
  rewrite ?lookup_insert_ne, ?lookup_delete_ne by congruence;
  try done; try congruence.

(** Who lists the GroupSingle [j], after the cases on the sprite. *)
Ltac seat_cases st j Hp :=
  first
    [ split; [done|by eauto]
    | split; [by intros [? ?]|done]
    | split; [|done];
      let Hs := fresh "Hs" in
      intros Hs; apply (paired_key st _ j Hp) in Hs; congruence ].

(** One round of the loop of [Sprite.add] with a GroupSingle. *)
Lemma Sprite_add_step s j st :
  paired st ->
  exists st',
    (b <~ dict_has_key s (Sgl j) ;;
     if negb b then
       add_internal (Sgl j) (Spr s) ;;; dict_setitem s (Sgl j) 0
     else ret tt) st = (Ok tt, st') /\
    seated s j st st'.
Proof.
  intros Hp. unfold bind at 1, dict_has_key.
  destruct (decide (is_Some (g st s !! Sgl j))) as [Hin|Hin].
  - rewrite bool_decide_true by done. simpl.
    exists st. split; [done|]. split_and!; [by apply paired_key|done| |done].
    intros s'. split; [|by intros ->].
    intros Hs'. apply (paired_key st s' j Hp) in Hs'.
    apply (paired_key st s j Hp) in Hin. congruence.
  - rewrite bool_decide_false by done. simpl.
    unfold GroupSingle_add_internal, bind, getattr_sprite.
    destruct (sprite st j) as [o|] eqn:Ho.
    + pose proof Hp as [Hp1 Hp2].
      destruct (Hp1 j o Ho) as (s0 & -> & [v Hv]).
      rewrite bool_decide_true by done. simpl.
      unfold Sprite_remove_internal, dict_delitem. rewrite Hv. simpl.
      assert (s0 <> s) as Hne by (intros ->; apply Hin; eauto).
      eexists. split; [reflexivity|]. split_and!.
      * store_cases.
      * intros j' Hj'. store_cases.
      * intros s'. store_cases; seat_cases st j Hp.
      * intros s' k Hk. store_cases.
    + rewrite bool_decide_false by (by intros ?). simpl.
      eexists. split; [reflexivity|]. split_and!.
      * store_cases.
      * intros j' Hj'. store_cases.
      * intros s'. store_cases; seat_cases st j Hp.
      * intros s' k Hk. store_cases.
Qed.

(** The loop of [Sprite.add] over GroupSingles. *)
Lemma Sprite_add_loop s l : forall st,
  Forall is_single l -> paired st ->
  exists st',
    for_each l (fun group =>
      b <~ dict_has_key s group ;;
      if negb b then
        add_internal group (Spr s) ;;; dict_setitem s group 0
      else ret tt) st = (Ok tt, st') /\
    paired st' /\
    (forall j, Sgl j ∈ l -> sprite st' j = Some (Spr s)) /\
    (forall j, Sgl j ∉ l -> sprite st' j = sprite st j) /\
    (forall s' k, k ∉ l -> g st' s' !! k = g st s' !! k).
Proof.
  induction l as [|o l IH]; intros st Hl Hp; simpl.
  - exists st. split_and!; [done|done| |done|done].
    intros j Hj. by apply elem_of_nil in Hj.
  - apply Forall_cons in Hl as [[j0 ->] Hl].
    destruct (Sprite_add_step s j0 st Hp) as (st1 & Hstep & Hseat).
    unfold bind at 1. rewrite Hstep.
    pose proof (seated_paired s j0 st st1 Hp Hseat) as Hp1.
    destruct Hseat as (Hj0 & Hother & _ & Hrest).
    destruct (IH st1 Hl Hp1) as (st' & Hrun & Hp' & Hin & Hout & Hkeys).
    exists st'. split_and!; [done|done| | |].
    + intros j Hj. destruct (decide (Sgl j ∈ l)) as [Hjl|Hjl]; [by apply Hin|].
      apply elem_of_cons in Hj as [[= ->]|Hj]; [|done].
      by rewrite Hout.
    + intros j Hj. apply not_elem_of_cons in Hj as [Hne Hj].
      rewrite Hout by done. apply Hother. congruence.
    + intros s' k Hk. apply not_elem_of_cons in Hk as [Hne Hk].
      rewrite Hkeys by done. by apply Hrest.
Qed.

(** ** GroupSingle.add *)

(** Lines 322-323: on a paired store the sprite that the GroupSingle
    holds is made to forget it. *)
Lemma forget_sprite_spec j st :
  paired st ->
  exists st',
    forget_sprite j st = (Ok tt, st') /\
    sprite st' = sprite st /\
    (forall s', g st' s' !! Sgl j = None) /\
    (forall s' k, k <> Sgl j -> g st' s' !! k = g st s' !! k).
Proof.
  intros Hp. unfold forget_sprite, bind, getattr_sprite.
  destruct (sprite st j) as [o|] eqn:Ho.
  - pose proof Hp as [Hp1 Hp2].
    destruct (Hp1 j o Ho) as (s0 & -> & [v Hv]). simpl.
    unfold Sprite_remove_internal, dict_delitem. rewrite Hv.
    eexists. split; [reflexivity|]. split_and!; [done| |].
    + intros s'. store_cases. apply eq_None_not_Some. intros Hs.
      apply (paired_key st s' j Hp) in Hs. congruence.
    + intros s' k Hk. store_cases.
  - simpl. exists st. split_and!; [done|done| |done].
    intros s'. apply eq_None_not_Some. intros Hs.
    apply (paired_key st s' j Hp) in Hs. congruence.
Qed.

Lemma last_is_sprite x l :
  Forall is_sprite (x :: l) -> is_sprite (default x (last l)).
Proof.
  intros Hall. destruct (last l) as [y|] eqn:Hy; simpl.
  - apply last_Some_elem_of in Hy.
    rewrite Forall_forall in Hall. apply Hall. by right.
  - by apply Forall_cons in Hall as [Hx _].
Qed.

Lemma GroupSingle_add_sequence j x l st s :
  paired st ->
  default x (last l) = Spr s ->
  exists st',
    GroupSingle_add j (VSeq (x :: l)) st = (Ok tt, st') /\
    seated s j st st'.
Proof.
  intros Hp Hs.
  destruct (forget_sprite_spec j st Hp) as (st1 & Hf & Hspr & Hgone & Hrest).
  unfold GroupSingle_add. simpl. unfold bind at 1. rewrite Hf.
  unfold bind, setattr_sprite, getattr_sprite. simpl.
  rewrite decide_True by done. rewrite Hs. simpl.
  eexists. split; [reflexivity|]. split_and!.
  - store_cases.
  - intros j' Hj'. simpl. rewrite decide_False by done. by rewrite Hspr.
  - intros s'. simpl. case_decide; subst.
    + rewrite lookup_insert_eq. split; [done|by eauto].
    + rewrite Hgone. split; [by intros [? ?]|done].
  - intros s' k Hk. simpl. case_decide; subst.
    + rewrite lookup_insert_ne by done. by apply Hrest.
    + by apply Hrest.
Qed.

(** With a single Sprite the call stops at [sprites[-1]], after the
    sprite that was held has been made to forget the group. *)
Lemma GroupSingle_add_one_sprite j s st :
  paired st ->
  exists st',
    GroupSingle_add j (VObj (Spr s)) st = (Raise AttributeError, st') /\
    sprite st' = sprite st /\
    (forall s', g st' s' !! Sgl j = None) /\
    (forall s' k, k <> Sgl j -> g st' s' !! k = g st s' !! k).
Proof.
  intros Hp.
  destruct (forget_sprite_spec j st Hp) as (st1 & Hf & Hspr & Hgone & Hrest).
  exists st1. split; [|done].
  unfold GroupSingle_add. simpl. unfold bind. by rewrite Hf.
Qed.

(** ** GroupSingle.remove and GroupSingle.empty *)

(** The two statements of lines 336-337, 342-343 and 359-360. *)
Lemma vacate j s st :
  paired st -> sprite st j = Some (Spr s) ->
  exists st',
    (setattr_sprite j None ;;; remove_internal (Spr s) (Sgl j)) st
    = (Ok tt, st') /\
    (remove_internal (Spr s) (Sgl j) ;;; setattr_sprite j None) st
    = (Ok tt, st') /\
    vacated j st st'.
Proof.
  intros Hp Hs. destruct (paired_sprite st s j Hp Hs) as [v Hv].
  unfold bind, setattr_sprite, remove_internal, Sprite_remove_internal,
    dict_delitem. simpl. rewrite Hv. simpl.
  eexists. split; [reflexivity|]. split.
  { unfold set_g, set_sprite. simpl. reflexivity. }
  split_and!.
  - store_cases.
  - intros j' Hj'. store_cases.
  - intros s'. store_cases. apply eq_None_not_Some. intros Hs'.
    apply (paired_key st s' j Hp) in Hs'. congruence.
  - intros s' k Hk. store_cases.
Qed.

Lemma remove_loop_spec j l : forall st,
  paired st ->
  exists st',
    remove_loop j l st = (Ok tt, st') /\
    match sprite st j with
    | Some o => if decide (o ∈ l) then vacated j st st' else st' = st
    | None => st' = st
    end.
Proof.
  induction l as [|x l IH]; intros st Hp; cbn [remove_loop].
  - exists st. split; [done|]. destruct (sprite st j); [|done].
    rewrite decide_False; [done|]. apply not_elem_of_nil.
  - unfold bind at 1, getattr_sprite.
    destruct (decide (sprite st j = Some x)) as [Hx|Hx].
    + rewrite bool_decide_true by done.
      pose proof Hp as [Hp1 _]. destruct (Hp1 j x Hx) as (s & -> & _).
      destruct (vacate j s st Hp Hx) as (st' & Hrun & _ & Hv).
      exists st'. split; [exact Hrun|]. rewrite Hx.
      rewrite decide_True; [done|]. by left.
    + rewrite bool_decide_false by done.
      destruct (IH st Hp) as (st' & Hrun & Hpost).
      exists st'. split; [done|].
      destruct (sprite st j) as [o|]; [|done].
      destruct (decide (o ∈ l)) as [Hin|Hin].
      * rewrite decide_True; [done|]. by right.
      * rewrite decide_False; [done|].
        apply not_elem_of_cons. split; [congruence|done].
Qed.

(** ** Sprite.kill *)

Lemma kill_loop_spec s l : forall st,
  Forall is_single l ->
  exists st',
    for_each l (fun c => remove_internal c (Spr s)) st = (Ok tt, st') /\
    g st' = g st /\
    forall j, sprite st' j = if decide (Sgl j ∈ l) then None else sprite st j.
Proof.
  induction l as [|c l IH]; intros st Hl; cbn [for_each].
  - exists st. split_and!; [done|done|]. intros j.
    rewrite decide_False; [done|]. apply not_elem_of_nil.
  - apply Forall_cons in Hl as [[j0 ->] Hl].
    unfold bind at 1. simpl.
    destruct (IH (set_sprite st j0 None) Hl) as (st' & Hrun & Hg & Hspr).
    exists st'. split_and!; [done|done|].
    intros j. rewrite Hspr. simpl.
    destruct (decide (j = j0)) as [->|Hne].
    + rewrite (decide_True (P := Sgl j0 ∈ Sgl j0 :: l)) by (by left).
      by case_decide.
    + apply decide_ext. rewrite elem_of_cons. split; [by right|].
      intros [[= ?]|?]; done.
Qed.

Lemma elem_of_keys_single (d : gmap obj Z) k : k ∈ keys d <-> is_Some (d !! k).
Proof.
  unfold keys. rewrite list_elem_of_fmap. split.
  - intros [[k' v] [-> Hin]]. apply elem_of_map_to_list in Hin. by exists v.
  - intros [v Hv]. exists (k, v). split; [done|]. by apply elem_of_map_to_list.
Qed.

(** ** The stage *)

Lemma paired_empty_store : paired empty_store.
Proof.
  split.
  - intros j o Ho. discriminate.
  - intros s k Hk. simpl in Hk. rewrite lookup_empty in Hk. by destruct Hk.
Qed.

Lemma paired_new_GroupSingle j st :
  paired st -> sprite st j = None ->
  paired (after (GroupSingle___init__ j (VSeq [])) st).
Proof.
  intros [Hp1 Hp2] Hj. split.
  - intros j' o. simpl. case_decide; [done|]. apply Hp1.
  - intros s k Hk. simpl in Hk.
    destruct (Hp2 s k Hk) as (j' & -> & Hj'). exists j'. split; [done|].
    simpl. case_decide; [congruence|done].
Qed.

Lemma Sprite_add_one_GroupSingle s j :
  Sprite_add s (VObj (Sgl j)) =
  (b <~ dict_has_key s (Sgl j) ;;
   if negb b then
     add_internal (Sgl j) (Spr s) ;;; dict_setitem s (Sgl j) 0
   else ret tt).
Proof. reflexivity. Qed.

Lemma paired_after_Sprite_add s j st :
  paired st -> paired (after (Sprite_add s (VObj (Sgl j))) st).
Proof.
  intros Hp. destruct (Sprite_add_step s j st Hp) as (st' & Hrun & Hseat).
  unfold after. rewrite Sprite_add_one_GroupSingle, Hrun. simpl.
  by apply (seated_paired s j st).
Qed.

Lemma paired_stage0 : paired stage0.
Proof.
  apply paired_after_Sprite_add, paired_new_GroupSingle;
    [apply paired_empty_store|done].
Qed.

Lemma paired_stage1 : paired stage1.
Proof.
  apply paired_after_Sprite_add, paired_new_GroupSingle;
    [apply paired_stage0|]. vm_compute. reflexivity.
Qed.

(** ** Sprite.kill, as a whole *)

Lemma Sprite_kill_paired s st :
  paired st ->
  exists st',
    Sprite_kill s st = (Ok tt, st') /\
    paired st' /\
    g st' s = ∅ /\
    (forall j, sprite st' j =
       if decide (sprite st j = Some (Spr s)) then None else sprite st j) /\
    (forall s', s' <> s -> g st' s' = g st s').
Proof.
  intros Hp.
  destruct (kill_loop_spec s (keys (g st s)) st) as (st1 & Hrun & Hg & Hspr).
  { apply Forall_forall. intros k Hk. apply elem_of_keys_single in Hk.
    pose proof Hp as [_ Hp2]. destruct (Hp2 s k Hk) as (j & -> & _).
    by exists j. }
  assert (forall j, sprite st1 j =
            if decide (sprite st j = Some (Spr s)) then None else sprite st j)
    as Hspr'.
  { intros j. rewrite Hspr. apply decide_ext. rewrite elem_of_keys_single.
    split; [by apply paired_key|by apply paired_sprite]. }
  exists (set_g st1 s ∅).
  split.
  { unfold Sprite_kill, bind at 1, dict_keys. unfold bind at 1.
    by rewrite Hrun. }
  split_and!.
  - pose proof Hp as [Hp1 Hp2]. split.
    + intros j o. simpl. rewrite Hspr'. case_decide as Hd; [done|].
      intros Ho. destruct (Hp1 j o Ho) as (s1 & -> & Hs1).
      exists s1. split; [done|]. rewrite Hg.
      rewrite decide_False; [done|]. intros ->. by apply Hd.
    + intros s' k. simpl. rewrite Hg. case_decide as Hd.
      * rewrite lookup_empty. by intros [? ?].
      * intros Hk. destruct (Hp2 s' k Hk) as (j & -> & Hj).
        exists j. split; [done|]. rewrite Hspr'.
        rewrite decide_False; [done|]. rewrite Hj. congruence.
  - simpl. by rewrite decide_True.
  - exact Hspr'.
  - intros s' Hs'. simpl. rewrite Hg. by rewrite decide_False.
Qed.

(** ** Statements about GroupSingle *)

(** X17.  [s.add(v)] where [v] is a GroupSingle or a sequence of
    GroupSingles, on a paired store: the call returns; every one of
    these GroupSingles holds [s] afterwards and [s] is the only sprite
    that lists it, so the sprite it held before has been put out; the
    other GroupSingles and the other dictionary entries are as before,
    and the store is paired. *)
Theorem Sprite_add_takes_the_place
    (s : nat) (v : value) (l : list obj) (st : store) :
  paired st ->
  targets v = Some l ->
  Forall is_single l ->
  exists st',
    Sprite_add s v st = (Ok tt, st') /\
    paired st' /\
    (forall j, Sgl j ∈ l ->
       sprite st' j = Some (Spr s) /\
       forall s', is_Some (g st' s' !! Sgl j) <-> s' = s) /\
    (forall j, Sgl j ∉ l -> sprite st' j = sprite st j) /\
    (forall s' k, k ∉ l -> g st' s' !! k = g st s' !! k).
Proof.
  intros Hp Hv Hl.
  assert (exists st',
    Sprite_add s v st = (Ok tt, st') /\
    paired st' /\
    (forall j, Sgl j ∈ l -> sprite st' j = Some (Spr s)) /\
    (forall j, Sgl j ∉ l -> sprite st' j = sprite st j) /\
    (forall s' k, k ∉ l -> g st' s' !! k = g st s' !! k))
    as (st' & Hrun & Hp' & Hin & Hout & Hkeys).
  { destruct v as [[i|j]|l0]; simpl in Hv; [done| |].
    - injection Hv as <-.
      destruct (Sprite_add_step s j st Hp) as (st' & Hrun & Hseat).
      exists st'. split; [by rewrite Sprite_add_one_GroupSingle|].
      split; [by apply (seated_paired s j st)|].
      destruct Hseat as (Hj & Hother & _ & Hrest). split_and!.
      + intros j' Hj'. apply list_elem_of_singleton in Hj'. by injection Hj' as ->.
      + intros j' Hj'. apply Hother. intros ->. apply Hj'. by left.
      + intros s' k Hk. apply Hrest. intros ->. apply Hk. by left.
    - injection Hv as <-. by apply Sprite_add_loop. }
  exists st'. split_and!; [done|done| |done|done].
  intros j Hj. split; [by apply Hin|].
  intros s'. split.
  - intros Hs'. apply (paired_key st' s' j Hp') in Hs'.
    rewrite (Hin j Hj) in Hs'. by injection Hs' as ->.
  - intros ->. apply paired_sprite; [done|]. by apply Hin.
Qed.

Lemma Sprite_add_takes_the_place_witness :
  exists st',
    Sprite_add 1 (VSeq [Sgl 0; Sgl 2]) stage1 = (Ok tt, st') /\
    sprite st' 0 = Some (Spr 1) /\ sprite st' 2 = Some (Spr 1) /\
    sprite st' 1 = Some (Spr 1) /\
    ~ is_Some (g st' 0 !! Sgl 0).
Proof.
  destruct (Sprite_add_takes_the_place 1 (VSeq [Sgl 0; Sgl 2])
              [Sgl 0; Sgl 2] stage1)
    as (st' & Hrun & _ & Hin & Hout & _).
  - apply paired_stage1.
  - reflexivity.
  - repeat constructor; eexists; reflexivity.
  - exists st'. split; [exact Hrun|].
    destruct (Hin 0%nat) as [H0 Honly]; [by left|].
    destruct (Hin 2%nat) as [H2 _]; [by right; left|].
    split; [exact H0|]. split; [exact H2|]. split.
    + rewrite Hout; [vm_compute; reflexivity|].
      intros H. repeat (apply elem_of_cons in H as [H|H]; [discriminate H|]).
      by apply elem_of_nil in H.
    + intros H. apply Honly in H. discriminate H.
Defined.

(** X18.  [a.add(sprites)] with a sequence of sprites, on a paired
    store: with an empty sequence nothing changes; otherwise the call
    returns and the GroupSingle holds the last sprite of the sequence,
    which is the only sprite that lists it; the sprite held before has
    been put out, the other items of the sequence are ignored, and the
    store is paired. *)
Theorem GroupSingle_add_keeps_the_last (j : nat) (l : list obj) (st : store) :
  paired st ->
  Forall is_sprite l ->
  exists st',
    GroupSingle_add j (VSeq l) st = (Ok tt, st') /\
    paired st' /\
    (l = [] -> st' = st) /\
    (forall s, last l = Some (Spr s) -> seated s j st st').
Proof.
  intros Hp Hl. destruct l as [|x l].
  - exists st. by split_and!.
  - destruct (last_is_sprite x l Hl) as [s Hs].
    destruct (GroupSingle_add_sequence j x l st s Hp Hs) as (st' & Hrun & Hseat).
    exists st'. split; [exact Hrun|].
    split; [by apply (seated_paired s j st)|]. split; [done|].
    assert (last (x :: l) = Some (Spr s)) as ->.
    { rewrite <- Hs. destruct l as [|y l]; [done|].
      change (last (x :: y :: l)) with (last (y :: l)).
      destruct (proj2 (last_is_Some (y :: l))) as [z Hz]; [done|].
      by rewrite Hz. }
    by intros s' [= <-].
Qed.

Lemma GroupSingle_add_keeps_the_last_witness :
  exists st',
    GroupSingle_add 0 (VSeq [Spr 5; Spr 1]) stage1 = (Ok tt, st') /\
    sprite st' 0 = Some (Spr 1) /\
    g st' 0 !! Sgl 0 = None /\
    g st' 5 !! Sgl 0 = None.
Proof.
  destruct (GroupSingle_add_keeps_the_last 0 [Spr 5; Spr 1] stage1)
    as (st' & Hrun & _ & Hseat).
  - apply paired_stage1.
  - repeat constructor; eexists; reflexivity.
  - destruct Hseat as [_ Hseat].
    destruct (Hseat 1%nat eq_refl) as (Hj & _ & Honly & _).
    exists st'. split; [exact Hrun|]. split; [exact Hj|].
    split; apply eq_None_not_Some; intros H; apply Honly in H; discriminate H.
Defined.

(** X19.  [a.add(s)] with a single Sprite, on a paired store, raises
    AttributeError: a Sprite has no [_spritegroup], is true, and cannot
    be indexed at line 331.  The GroupSingle still holds what it held,
    but line 330 has already made that sprite forget the group: the
    store is not paired any more, and [a.empty()] then raises
    KeyError. *)
Theorem GroupSingle_add_one_sprite_raises (j s : nat) (st : store) :
  paired st ->
  exists st',
    GroupSingle_add j (VObj (Spr s)) st = (Raise AttributeError, st') /\
    sprite st' j = sprite st j /\
    forall s0, sprite st j = Some (Spr s0) ->
      g st' s0 !! Sgl j = None /\
      ~ paired st' /\
      exists st'', GroupSingle_empty j st' = (Raise KeyError, st'').
Proof.
  intros Hp.
  destruct (GroupSingle_add_one_sprite j s st Hp)
    as (st' & Hrun & Hspr & Hgone & _).
  exists st'. split; [exact Hrun|]. split; [by rewrite Hspr|].
  intros s0 Hs0. split; [apply Hgone|]. split.
  - intros Hp'. rewrite <- Hspr in Hs0.
    apply (paired_sprite st' s0 j Hp') in Hs0.
    rewrite Hgone in Hs0. by destruct Hs0.
  - rewrite <- Hspr in Hs0.
    unfold GroupSingle_empty, bind, getattr_sprite. rewrite Hs0. simpl.
    unfold Sprite_remove_internal, dict_delitem. rewrite Hgone. by eexists.
Qed.

Lemma GroupSingle_add_one_sprite_raises_witness :
  exists st',
    GroupSingle_add 0 (VObj (Spr 1)) stage1 = (Raise AttributeError, st') /\
    sprite st' 0 = Some (Spr 0) /\
    g st' 0 !! Sgl 0 = None.
Proof.
  destruct (GroupSingle_add_one_sprite_raises 0 1 stage1)
    as (st' & Hrun & Hspr & Hbad).
  - apply paired_stage1.
  - exists st'. split; [exact Hrun|].
    split; [rewrite Hspr; vm_compute; reflexivity|].
    apply (Hbad 0%nat). vm_compute. reflexivity.
Defined.

(** X20.  [a.remove(v)] on a paired store.  With a sequence the call
    returns: when the sprite that [a] holds is in the sequence, [a]
    holds nothing afterwards and that sprite no longer lists [a];
    otherwise nothing changes; the store is paired.  With a single
    Sprite the call raises TypeError and nothing changes. *)
Theorem GroupSingle_remove_puts_the_sprite_out (j : nat) (st : store) :
  paired st ->
  (forall l, exists st',
     GroupSingle_remove j (VSeq l) st = (Ok tt, st') /\
     paired st' /\
     match sprite st j with
     | Some o => if decide (o ∈ l) then vacated j st st' else st' = st
     | None => st' = st
     end) /\
  (forall s, GroupSingle_remove j (VObj (Spr s)) st = (Raise TypeError, st)).
Proof.
  intros Hp. split; [|done].
  intros l. destruct (remove_loop_spec j l st Hp) as (st' & Hrun & Hpost).
  exists st'. split; [exact Hrun|]. split; [|exact Hpost].
  destruct (sprite st j) as [o|]; [|by subst].
  destruct (decide (o ∈ l)); [|by subst].
  by apply (vacated_paired j st).
Qed.

Lemma GroupSingle_remove_puts_the_sprite_out_witness :
  exists st',
    GroupSingle_remove 0 (VSeq [Spr 1; Spr 0]) stage1 = (Ok tt, st') /\
    sprite st' 0 = None /\ g st' 0 !! Sgl 0 = None /\
    sprite st' 1 = Some (Spr 1).
Proof.
  destruct (GroupSingle_remove_puts_the_sprite_out 0 stage1) as [Hseq _].
  - apply paired_stage1.
  - destruct (Hseq [Spr 1; Spr 0]) as (st' & Hrun & _ & Hpost).
    assert (sprite stage1 0 = Some (Spr 0)) as H0 by (vm_compute; reflexivity).
    rewrite H0 in Hpost.
    rewrite decide_True in Hpost by (right; left).
    destruct Hpost as (Hj & Hother & Hgone & _).
    exists st'. split; [exact Hrun|]. split; [exact Hj|].
    split; [apply Hgone|].
    rewrite Hother by discriminate. vm_compute. reflexivity.
Defined.

(** X21.  [a.empty()] on a paired store returns; afterwards [a] holds
    nothing ([has] is false for every object, [len] and the truth value
    are false, and [loop()] is the list [[0]]), the sprite it held no
    longer lists it, nothing else has changed, and the store is
    paired. *)
Theorem GroupSingle_empty_puts_the_sprite_out (j : nat) (st : store) :
  paired st ->
  exists st',
    GroupSingle_empty j st = (Ok tt, st') /\
    paired st' /\
    match sprite st j with
    | Some _ => vacated j st st'
    | None => st' = st
    end /\
    (forall o, GroupSingle_has j o st' = (Ok false, st')) /\
    GroupSingle___len__ j st' = (Ok false, st') /\
    GroupSingle___nonzero__ j st' = (Ok false, st') /\
    GroupSingle_loop j st' = (Ok [None], st').
Proof.
  intros Hp.
  assert (exists st',
    GroupSingle_empty j st = (Ok tt, st') /\
    match sprite st j with
    | Some _ => vacated j st st'
    | None => st' = st
    end) as (st' & Hrun & Hpost).
  { unfold GroupSingle_empty, bind at 1, getattr_sprite.
    destruct (sprite st j) as [o|] eqn:Ho.
    - pose proof Hp as [Hp1 _]. destruct (Hp1 j o Ho) as (s & -> & _).
      destruct (vacate j s st Hp Ho) as (st' & _ & Hrun & Hv).
      exists st'. by split.
    - exists st. by split. }
  assert (sprite st' j = None) as Hnone.
  { destruct (sprite st j) eqn:Ho; [by destruct Hpost|by subst]. }
  exists st'. split; [exact Hrun|]. split_and!.
  - destruct (sprite st j); [by apply (vacated_paired j st)|by subst].
  - exact Hpost.
  - intros o. unfold GroupSingle_has, bind, getattr_sprite. by rewrite Hnone.
  - unfold GroupSingle___len__, bind, getattr_sprite. by rewrite Hnone.
  - unfold GroupSingle___nonzero__, bind, getattr_sprite. by rewrite Hnone.
  - unfold GroupSingle_loop, bind, getattr_sprite. by rewrite Hnone.
Qed.

Lemma GroupSingle_empty_puts_the_sprite_out_witness :
  exists st',
    GroupSingle_empty 1 stage1 = (Ok tt, st') /\
    GroupSingle_loop 1 st' = (Ok [None], st') /\
    g st' 1 !! Sgl 1 = None.
Proof.
  destruct (GroupSingle_empty_puts_the_sprite_out 1 stage1)
    as (st' & Hrun & _ & Hpost & _ & _ & _ & Hloop).
  - apply paired_stage1.
  - assert (sprite stage1 1 = Some (Spr 1)) as H1 by (vm_compute; reflexivity).
    rewrite H1 in Hpost. destruct Hpost as (_ & _ & Hgone & _).
    exists st'. split; [exact Hrun|]. split; [exact Hloop|apply Hgone].
Defined.

(** X22.  [a.copy()] works for an empty GroupSingle only.  When [a]
    holds a sprite, line 314 passes that single Sprite to the
    constructor, whose [add] raises AttributeError; the new object is
    left holding nothing and no sprite lists it.  When [a] is empty the
    copy is a new empty GroupSingle.  In both cases nothing else
    changes. *)
Theorem GroupSingle_copy_raises_unless_empty (self new : nat) (st : store) :
  (forall s, sprite st self = Some (Spr s) ->
     GroupSingle_copy self new st
     = (Raise AttributeError, set_sprite st new None)) /\
  (sprite st self = None ->
     GroupSingle_copy self new st = (Ok tt, set_sprite st new None)) /\
  sprite (set_sprite st new None) new = None /\
  g (set_sprite st new None) = g st /\
  (forall j, j <> new -> sprite (set_sprite st new None) j = sprite st j).
Proof.
  split_and!.
  - intros s Hs. unfold GroupSingle_copy, bind, getattr_sprite. rewrite Hs.
    unfold GroupSingle___init__, bind, setattr_sprite, GroupSingle_add. simpl.
    unfold forget_sprite, bind, getattr_sprite. simpl.
    by rewrite decide_True.
  - intros Hs. unfold GroupSingle_copy, bind, getattr_sprite. by rewrite Hs.
  - simpl. by rewrite decide_True.
  - done.
  - intros j Hj. simpl. by rewrite decide_False.
Qed.

Lemma GroupSingle_copy_raises_unless_empty_witness :
  GroupSingle_copy 0 2 stage1 = (Raise AttributeError, set_sprite stage1 2 None).
Proof.
  destruct (GroupSingle_copy_raises_unless_empty 0 2 stage1) as [Hheld _].
  apply (Hheld 0%nat). vm_compute. reflexivity.
Defined.

(** X23.  [s.kill()] on a paired store returns; afterwards [s.alive()]
    is 0, every GroupSingle that held [s] holds nothing, the other
    GroupSingles and the dictionaries of the other sprites are as
    before, and the store is paired. *)
Theorem Sprite_kill_vacates_every_GroupSingle (s : nat) (st : store) :
  paired st ->
  exists st',
    Sprite_kill s st = (Ok tt, st') /\
    paired st' /\
    Sprite_alive s st' = (Ok 0%nat, st') /\
    (forall j, sprite st' j =
       if decide (sprite st j = Some (Spr s)) then None else sprite st j) /\
    (forall s', s' <> s -> g st' s' = g st s').
Proof.
  intros Hp.
  destruct (Sprite_kill_paired s st Hp)
    as (st' & Hrun & Hp' & Hempty & Hspr & Hother).
  exists st'. split_and!; [done|done| |done|done].
  unfold Sprite_alive, dict_len. by rewrite Hempty, map_size_empty.
Qed.

Lemma Sprite_kill_vacates_every_GroupSingle_witness :
  exists st',
    Sprite_kill 0 stage1 = (Ok tt, st') /\
    sprite st' 0 = None /\ sprite st' 1 = Some (Spr 1).
Proof.
  destruct (Sprite_kill_vacates_every_GroupSingle 0 stage1)
    as (st' & Hrun & _ & _ & Hspr & _).
  - apply paired_stage1.
  - exists st'. split; [exact Hrun|].
    rewrite !Hspr. vm_compute. split; reflexivity.
Defined.



End SingleFacts.

Module UserRectMoreFacts.
Import UserRect UserRectFacts.

Local Open Scope string_scope.

(** ** Further statements about UserRect.py *)

(** X25.  What [UserRect.__init__] leaves in the instance dictionary,
    for a Rect whose [dir] does not list the name [rect]: the Rect under
    [rect], under every name of [dir] the attribute of that name of the
    Rect, and nothing else.  The truth test of the instance therefore
    returns the truth value of the wrapped Rect when [dir] lists
    [__nonzero__], and raises NameError otherwise. *)
Theorem UserRect_init_copies_the_attributes (rect : Rect) (self : instance) :
  UserRect___init__ (Ok rect) = Ok self ->
  "rect" ∉ rect_dir rect ->
  inst_dict self !! "rect" = Some (VRect rect) /\
  (forall a, a ∈ rect_dir rect ->
     inst_dict self !! a = Some (VAttr (VRect rect) a)) /\
  (forall a, a ∉ rect_dir rect -> a <> "rect" -> inst_dict self !! a = None) /\
  truth self =
    if bool_decide ("__nonzero__" ∈ rect_dir rect)
    then Ok (rect_truth rect) else Raise NameError.
Proof.
  intros Hinit Hdir. injection Hinit as <-. simpl.
  assert (forall k,
    foldl (fun (d : gmap string pyval) a =>
             match d !! "rect" with
             | Some self_rect => <[a := VAttr self_rect a]> d
             | None => d
             end) (<["rect" := VRect rect]> ∅) (rect_dir rect) !! k =
    if decide (k ∈ rect_dir rect) then Some (VAttr (VRect rect) k)
    else (<["rect" := VRect rect]> ∅ : gmap string pyval) !! k) as Hlookup.
  { intros k. apply init_loop_spec; [done|]. apply lookup_insert_eq. }
  split_and!.
  - rewrite Hlookup, decide_False by done. apply lookup_insert_eq.
  - intros a Ha. by rewrite Hlookup, decide_True.
  - intros a Ha Hne. rewrite Hlookup, decide_False by done.
    rewrite lookup_insert_ne by done. apply lookup_empty.
  - unfold truth. simpl. rewrite Hlookup.
    destruct (decide ("__nonzero__" ∈ rect_dir rect)) as [Hin|Hin].
    + by rewrite bool_decide_true.
    + rewrite bool_decide_false by done.
      rewrite lookup_insert_ne by done. rewrite lookup_empty.
      unfold UserRect___nonzero__. by rewrite load_global_nonzero.
Qed.

Lemma UserRect_init_copies_the_attributes_witness :
  exists self,
    UserRect___init__ (Ok rect_with_nonzero) = Ok self /\
    inst_dict self !! "w" = Some (VAttr (VRect rect_with_nonzero) "w") /\
    truth self = Ok true.
Proof.
  eexists. split; [reflexivity|].
  destruct (UserRect_init_copies_the_attributes rect_with_nonzero _ eq_refl)
    as (_ & Hattr & _ & Htruth).
  - apply (bool_decide_unpack _). vm_compute. exact I.
  - split; [|exact Htruth].
    apply Hattr. apply (bool_decide_unpack _). vm_compute. exact I.
Defined.

End UserRectMoreFacts.

Module RenderFacts.
Import Render.

(** ** Keys, values and drawn areas *)

Lemma elem_of_keys_render {V : Type} (d : gmap obj V) k :
  k ∈ keys d <-> is_Some (d !! k).
Proof.
  unfold keys. rewrite list_elem_of_fmap. split.
  - intros [[k' v] [-> Hin]]. apply elem_of_map_to_list in Hin. by exists v.
  - intros [v Hv]. exists (k, v). split; [done|]. by apply elem_of_map_to_list.
Qed.

Lemma NoDup_keys_render {V : Type} (d : gmap obj V) : NoDup (keys d).
Proof. apply NoDup_fst_map_to_list. Qed.

(** Taking a sprite out of the dictionary takes its area, if it was
    drawn, out of the drawn areas. *)
Lemma drawn_delete (d : gmap obj (option rect)) s r :
  d !! s = Some r ->
  drawn d ≡ₚ match r with Some r => [r] | None => [] end ++ drawn (delete s d).
Proof.
  intros Hs. unfold drawn, values.
  rewrite <- (map_to_list_delete d s r Hs). simpl. by destruct r.
Qed.

(** ** Blitting *)

Lemma add_blits_nil st : add_blits st [] = st.
Proof. destruct st. unfold add_blits. simpl. by rewrite app_nil_r. Qed.

Lemma add_blits_cons st c cs :
  add_blits (add_blit st c) cs = add_blits st (c :: cs).
Proof. unfold add_blits, add_blit. simpl. by rewrite <- app_assoc. Qed.

Lemma background_loop l : forall st,
  for_each l blit_background st = (Ok tt, add_blits st (BlitBackground <$> l)).
Proof.
  induction l as [|r l IH]; intros st; simpl.
  - by rewrite add_blits_nil.
  - unfold bind, blit_background. by rewrite IH, add_blits_cons.
Qed.

Lemma drawn_background_loop rs : forall st,
  for_each rs (fun r => match r with
                        | Some r => blit_background r
                        | None => ret tt
                        end) st
  = (Ok tt, add_blits st (BlitBackground <$> omap id rs)).
Proof.
  induction rs as [|[r|] rs IH]; intros st; simpl.
  - by rewrite add_blits_nil.
  - unfold bind at 1, blit_background at 1. by rewrite IH, add_blits_cons.
  - unfold bind at 1. simpl. apply IH.
Qed.

(** ** The loops of the two [draw] methods *)

Lemma draw_loop area j ss : forall st,
  Forall (fun s => is_Some (area s)) ss ->
  exists st',
    for_each ss (fun s =>
      r <~ blit_sprite area s ;; spritedict_setitem j s (Some r)) st
    = (Ok tt, st') /\
    g st' = g st /\
    lostsprites st' = lostsprites st /\
    blits st' = blits st ++ (BlitSprite <$> ss) /\
    (forall j', j' <> j -> spritedict st' j' = spritedict st j') /\
    (forall k, spritedict st' j !! k =
       if decide (k ∈ ss) then Some (area k) else spritedict st j !! k).
Proof.
  induction ss as [|s ss IH]; intros st Hall; cbn [for_each].
  - exists st. split_and!; try done; by rewrite app_nil_r.
  - apply Forall_cons in Hall as [[r Hr] Hall].
    unfold bind at 1, bind at 1, blit_sprite at 1. rewrite Hr.
    unfold spritedict_setitem at 1.
    destruct (IH (set_spritedict (add_blit st (BlitSprite s)) j
                    (<[s := Some r]> (spritedict st j))) Hall)
      as (st' & Hrun & Hg & Hlost & Hblits & Hother & Hdict).
    exists st'. split; [exact Hrun|]. split_and!.
    + by rewrite Hg.
    + by rewrite Hlost.
    + rewrite Hblits. simpl. by rewrite <- app_assoc.
    + intros j' Hj'. rewrite Hother by done. simpl. by rewrite decide_False.
    + intros k. rewrite Hdict. cbn [spritedict set_spritedict add_blit].
      rewrite (decide_True (P := j = j)) by done.
      destruct (decide (k ∈ ss)) as [Hin|Hin].
      * rewrite decide_True; [done|]. by right.
      * destruct (decide (k = s)) as [->|Hne].
        -- rewrite lookup_insert_eq, Hr. rewrite decide_True; [done|]. by left.
        -- rewrite lookup_insert_ne by done.
           rewrite decide_False; [done|].
           apply not_elem_of_cons. by split.
Qed.

Lemma updates_loop_spec area union j items : forall dirty st,
  Forall (fun item => is_Some (area item.1)) items ->
  exists st',
    updates_loop area union j items dirty st
    = (Ok (dirty ++ omap (reported area union) items), st') /\
    g st' = g st /\
    lostsprites st' = lostsprites st /\
    blits st' = blits st ++ (BlitSprite <$> items.*1) /\
    (forall j', j' <> j -> spritedict st' j' = spritedict st j') /\
    (forall k, spritedict st' j !! k =
       if decide (k ∈ items.*1) then Some (area k) else spritedict st j !! k).
Proof.
  induction items as [|[s r0] items IH]; intros dirty st Hall;
    cbn [updates_loop].
  - exists st. split_and!; try done;
      by cbn [omap list_omap fmap list_fmap]; rewrite ?app_nil_r.
  - apply Forall_cons in Hall as [[r Hr] Hall]. simpl in Hr.
    unfold bind at 1, blit_sprite at 1. rewrite Hr.
    unfold bind at 1, spritedict_setitem at 1.
    destruct (IH (dirty ++ [match r0 with
                            | Some r1 => union r r1
                            | None => r
                            end])
                 (set_spritedict (add_blit st (BlitSprite s)) j
                    (<[s := Some r]> (spritedict st j))) Hall)
      as (st' & Hrun & Hg & Hlost & Hblits & Hother & Hdict).
    exists st'. split_and!.
    + etransitivity; [exact Hrun|].
      cbn [omap list_omap]. unfold reported at 2. cbn [fst snd].
      rewrite Hr. by rewrite <- app_assoc.
    + by rewrite Hg.
    + by rewrite Hlost.
    + rewrite Hblits. simpl. by rewrite <- app_assoc.
    + intros j' Hj'. rewrite Hother by done. simpl. by rewrite decide_False.
    + intros k. rewrite Hdict. cbn [spritedict set_spritedict add_blit].
      rewrite (decide_True (P := j = j)) by done.
      destruct (decide (k ∈ items.*1)) as [Hin|Hin].
      * rewrite decide_True; [done|]. by right.
      * destruct (decide (k = s)) as [->|Hne].
        -- rewrite lookup_insert_eq, Hr. rewrite decide_True; [done|]. by left.
        -- rewrite lookup_insert_ne by done.
           rewrite decide_False; [done|].
           apply not_elem_of_cons. by split.
Qed.

(** ** Sprite.kill *)

(** A sprite that leaves a drawing group leaves its area behind. *)
Lemma remove_step j s st :
  is_Some (spritedict st j !! Spr s) ->
  exists st',
    RenderClear_remove_internal j (Spr s) st = (Ok tt, st') /\
    g st' = g st /\
    blits st' = blits st /\
    pending st' j ≡ₚ pending st j /\
    spritedict st' j = delete (Spr s) (spritedict st j) /\
    (forall j', j' <> j ->
       spritedict st' j' = spritedict st j' /\
       lostsprites st' j' = lostsprites st j').
Proof.
  intros [r Hr].
  unfold RenderClear_remove_internal, bind, spritedict_getitem. rewrite Hr.
  destruct r as [r|]; simpl.
  - unfold spritedict_delitem. simpl. rewrite Hr.
    eexists. split; [reflexivity|]. split_and!; try done.
    + unfold pending. simpl. rewrite !decide_True by done.
      rewrite (drawn_delete _ _ _ Hr). by rewrite <- app_assoc.
    + simpl. by rewrite decide_True.
    + intros j' Hj'. simpl. by rewrite !decide_False.
  - unfold spritedict_delitem. rewrite Hr.
    eexists. split; [reflexivity|]. split_and!; try done.
    + unfold pending. simpl. rewrite !decide_True by done.
      by rewrite (drawn_delete _ _ _ Hr).
    + simpl. by rewrite decide_True.
    + intros j' Hj'. simpl. by rewrite !decide_False.
Qed.

Lemma kill_loop_render s l : forall st,
  NoDup l ->
  (forall c, c ∈ l -> exists j, c = Rnd j /\ is_Some (spritedict st j !! Spr s)) ->
  exists st',
    for_each l (fun c => remove_internal c (Spr s)) st = (Ok tt, st') /\
    g st' = g st /\
    blits st' = blits st /\
    (forall j, pending st' j ≡ₚ pending st j) /\
    (forall j, spritedict st' j =
       if decide (Rnd j ∈ l) then delete (Spr s) (spritedict st j)
       else spritedict st j).
Proof.
  induction l as [|c l IH]; intros st Hnd Hl; cbn [for_each].
  - exists st. by split_and!.
  - apply NoDup_cons in Hnd as [Hc Hnd].
    destruct (Hl c) as (j0 & -> & Hs); [by left|].
    destruct (remove_step j0 s st Hs)
      as (st1 & Hstep & Hg1 & Hb1 & Hp1 & Hd1 & Ho1).
    unfold bind at 1. cbn [remove_internal]. rewrite Hstep.
    destruct (IH st1 Hnd) as (st' & Hrun & Hg & Hb & Hp & Hd).
    { intros c Hcl. destruct (Hl c) as (j & -> & Hj); [by right|].
      exists j. split; [done|].
      destruct (decide (j = j0)) as [->|Hne]; [done|].
      by rewrite (proj1 (Ho1 j Hne)). }
    exists st'. split; [exact Hrun|]. split_and!.
    + by rewrite Hg.
    + by rewrite Hb.
    + intros j. rewrite Hp.
      destruct (decide (j = j0)) as [->|Hne]; [done|].
      unfold pending. destruct (Ho1 j Hne) as [-> ->]. done.
    + intros j. rewrite Hd.
      destruct (decide (j = j0)) as [->|Hne].
      * rewrite decide_False by done. rewrite Hd1.
        rewrite decide_True; [done|]. by left.
      * rewrite (proj1 (Ho1 j Hne)). apply decide_ext.
        rewrite elem_of_cons. split; [by right|].
        intros [[= ?]|?]; done.
Qed.

(** ** The canvas *)

Lemma paired_empty_canvas : paired empty_store.
Proof.
  split.
  - intros j o Ho. simpl in Ho. rewrite lookup_empty in Ho. by destruct Ho.
  - intros s k Hk. simpl in Hk. rewrite lookup_empty in Hk. by destruct Hk.
Qed.

Lemma paired_Sprite_add s j st :
  paired st -> paired (after (Sprite_add s (VObj (Rnd j))) st).
Proof.
  intros [Hp1 Hp2]. unfold after, Sprite_add. simpl.
  unfold bind at 1, g_has_key.
  destruct (decide (is_Some (g st s !! Rnd j))) as [Hin|Hin].
  - rewrite bool_decide_true by done. simpl. by split.
  - rewrite bool_decide_false by done. simpl. split.
    + intros j' o. simpl.
      destruct (decide (j' = j)) as [->|Hne].
      * rewrite lookup_insert_is_Some'. intros [<-|Ho].
        -- exists s. split; [done|]. rewrite decide_True by done.
           rewrite lookup_insert_eq. by eexists.
        -- destruct (Hp1 j o Ho) as (s1 & -> & Hs1). exists s1.
           split; [done|]. case_decide; [subst|done].
           rewrite lookup_insert_is_Some'. by right.
      * intros Ho. destruct (Hp1 j' o Ho) as (s1 & -> & Hs1). exists s1.
        split; [done|]. case_decide; [subst|done].
        rewrite lookup_insert_is_Some'. by right.
    + intros s' k. simpl.
      destruct (decide (s' = s)) as [->|Hne].
      * rewrite lookup_insert_is_Some'. intros [<-|Hk].
        -- exists j. split; [done|]. rewrite decide_True by done.
           rewrite lookup_insert_eq. by eexists.
        -- destruct (Hp2 s k Hk) as (j1 & -> & Hj1). exists j1.
           split; [done|]. case_decide; [subst|done].
           rewrite lookup_insert_is_Some'. by right.
      * intros Hk. destruct (Hp2 s' k Hk) as (j1 & -> & Hj1). exists j1.
        split; [done|]. case_decide; [subst|done].
        rewrite lookup_insert_is_Some'. by right.
Qed.

Lemma paired_canvas0 : paired canvas0.
Proof.
  unfold canvas0. do 2 apply paired_Sprite_add. apply paired_empty_canvas.
Qed.

Lemma paired_listed st s j :
  paired st -> is_Some (g st s !! Rnd j) <-> is_Some (spritedict st j !! Spr s).
Proof.
  intros [Hp1 Hp2]. split.
  - intros Hk. destruct (Hp2 s (Rnd j) Hk) as (j' & [= <-] & Hj). done.
  - intros Hs. destruct (Hp1 j (Spr s) Hs) as (s' & [= <-] & Hk). done.
Qed.

Lemma elem_of_drawn (d : gmap obj (option rect)) s r :
  d !! s = Some (Some r) -> r ∈ drawn d.
Proof.
  intros Hs. unfold drawn, values. apply list_elem_of_omap.
  exists (Some r). split; [|done].
  apply list_elem_of_fmap. exists (s, Some r). split; [done|].
  by apply elem_of_map_to_list.
Qed.

(** [clear], as a whole. *)
Lemma RenderClear_clear_spec j st :
  RenderClear_clear j st =
  (Ok tt, add_blits (set_lostsprites st j []) (BlitBackground <$> pending st j)).
Proof.
  unfold RenderClear_clear, bind at 1, getattr_lostsprites.
  unfold bind at 1. rewrite background_loop.
  unfold bind at 1, setattr_lostsprites.
  unfold bind at 1, spritedict_values.
  rewrite drawn_background_loop.
  unfold pending, drawn. rewrite fmap_app.
  unfold add_blits, set_lostsprites. simpl. by rewrite <- app_assoc.
Qed.

(** [kill], as a whole. *)
Lemma Sprite_kill_render s st :
  paired st ->
  exists st',
    Sprite_kill s st = (Ok tt, st') /\
    paired st' /\
    g st' s = ∅ /\
    (forall s', s' <> s -> g st' s' = g st s') /\
    (forall j, spritedict st' j !! Spr s = None) /\
    (forall j k, k <> Spr s -> spritedict st' j !! k = spritedict st j !! k) /\
    (forall j, pending st' j ≡ₚ pending st j) /\
    blits st' = blits st.
Proof.
  intros Hp.
  destruct (kill_loop_render s (keys (g st s)) st)
    as (st1 & Hrun & Hg & Hb & Hpend & Hd).
  { apply NoDup_keys_render. }
  { intros c Hc. apply elem_of_keys_render in Hc.
    pose proof Hp as [_ Hp2]. destruct (Hp2 s c Hc) as (j & -> & Hj).
    by exists j. }
  assert (forall j, spritedict st1 j !! Spr s = None) as Hgone.
  { intros j. rewrite Hd. case_decide as Hin.
    - apply lookup_delete_eq.
    - apply eq_None_not_Some. intros Hs. apply Hin.
      apply elem_of_keys_render. by apply paired_listed. }
  assert (forall j k, k <> Spr s -> spritedict st1 j !! k = spritedict st j !! k)
    as Hsame.
  { intros j k Hk. rewrite Hd. case_decide; [|done].
    by rewrite lookup_delete_ne. }
  exists (set_g st1 s ∅). split.
  { unfold Sprite_kill, bind at 1, g_keys. unfold bind at 1.
    by rewrite Hrun. }
  split_and!.
  - pose proof Hp as [Hp1 Hp2]. split.
    + intros j o Ho. simpl in Ho.
      destruct (decide (o = Spr s)) as [->|Hne].
      { rewrite Hgone in Ho. by destruct Ho. }
      rewrite Hsame in Ho by done.
      destruct (Hp1 j o Ho) as (s1 & -> & Hs1). exists s1. split; [done|].
      simpl. rewrite Hg. rewrite decide_False; [done|]. congruence.
    + intros s' k. simpl. rewrite Hg. case_decide as Hs'.
      * rewrite lookup_empty. by intros [? ?].
      * intros Hk. destruct (Hp2 s' k Hk) as (j & -> & Hj).
        exists j. split; [done|]. rewrite Hsame; [done|]. congruence.
  - simpl. by rewrite decide_True.
  - intros s' Hs'. simpl. rewrite Hg. by rewrite decide_False.
  - exact Hgone.
  - exact Hsame.
  - exact Hpend.
  - exact Hb.
Qed.


Lemma paired_RenderClear_draw area j st :
  paired st ->
  (forall s, is_Some (spritedict st j !! s) -> is_Some (area s)) ->
  paired (after (RenderClear_draw area j) st).
Proof.
  intros [Hp1 Hp2] Harea.
  destruct (draw_loop area j (keys (spritedict st j)) st)
    as (st1 & Hdraw & Hg & _ & _ & Hother & Hdict).
  { apply Forall_forall. intros s Hs. apply Harea.
    by apply elem_of_keys_render. }
  assert (RenderClear_draw area j st = (Ok tt, st1)) as Hrun by exact Hdraw.
  unfold after. rewrite Hrun. simpl. split.
  - intros j' o Ho. rewrite Hg. apply Hp1.
    destruct (decide (j' = j)) as [->|Hne].
    + rewrite Hdict in Ho.
      case_decide as Hin; [by apply elem_of_keys_render|done].
    + by rewrite Hother in Ho.
  - intros s k Hk. rewrite Hg in Hk.
    destruct (Hp2 s k Hk) as (j' & -> & Hj). exists j'. split; [done|].
    destruct (decide (j' = j)) as [->|Hne].
    + rewrite Hdict. rewrite decide_True by (by apply elem_of_keys_render).
      by eexists.
    + by rewrite Hother.
Qed.

(** ** A sprite that cannot be blitted *)

Lemma plain_loop area ss : forall st,
  Forall (fun s => is_Some (area s)) ss ->
  for_each ss (fun s => _ <~ blit_sprite area s ;; ret tt) st
  = (Ok tt, add_blits st (BlitSprite <$> ss)).
Proof.
  induction ss as [|s ss IH]; intros st Hall; cbn [for_each].
  - by rewrite add_blits_nil.
  - apply Forall_cons in Hall as [[r Hr] Hall].
    unfold bind at 1, bind at 1, blit_sprite at 1. rewrite Hr. simpl.
    rewrite IH by done. by rewrite add_blits_cons.
Qed.

Lemma plain_loop_raises area l1 s l2 : forall st,
  Forall (fun s => is_Some (area s)) l1 ->
  area s = None ->
  for_each (l1 ++ s :: l2) (fun s => _ <~ blit_sprite area s ;; ret tt) st
  = (Raise AttributeError, add_blits st (BlitSprite <$> l1)).
Proof.
  induction l1 as [|x l1 IH]; intros st Hall Hs; cbn [for_each app].
  - unfold bind at 1, bind at 1, blit_sprite at 1. rewrite Hs. simpl.
    by rewrite add_blits_nil.
  - apply Forall_cons in Hall as [[r Hr] Hall].
    unfold bind at 1, bind at 1, blit_sprite at 1. rewrite Hr. simpl.
    rewrite IH by done. by rewrite add_blits_cons.
Qed.

Lemma draw_loop_raises area j l1 s l2 : forall st,
  Forall (fun s => is_Some (area s)) l1 ->
  area s = None ->
  exists st',
    for_each (l1 ++ s :: l2) (fun s =>
      r <~ blit_sprite area s ;; spritedict_setitem j s (Some r)) st
    = (Raise AttributeError, st') /\
    for_each l1 (fun s =>
      r <~ blit_sprite area s ;; spritedict_setitem j s (Some r)) st
    = (Ok tt, st').
Proof.
  induction l1 as [|x l1 IH]; intros st Hall Hs; cbn [for_each app].
  - exists st. split; [|done].
    unfold bind at 1, bind at 1, blit_sprite at 1. by rewrite Hs.
  - apply Forall_cons in Hall as [[r Hr] Hall].
    unfold bind at 1, bind at 1, blit_sprite at 1. rewrite Hr.
    cbn [spritedict_setitem].
    destruct (IH (set_spritedict (add_blit st (BlitSprite x)) j
                   (<[x := Some r]> (spritedict (add_blit st (BlitSprite x)) j)))
                Hall Hs) as (st' & Hraise & Hok).
    exists st'. split.
    + exact Hraise.
    + unfold bind at 1, bind at 1, blit_sprite at 1. rewrite Hr. exact Hok.
Qed.

(** ** Statements about the drawing groups *)

(** X26.  [RenderUpdates.draw], for a group whose sprites can all be
    blitted: the call returns the areas left by the sprites that were
    removed from the group, followed by one area for each sprite of the
    group, the area just drawn joined with the area of its previous
    drawing when there was one.  Afterwards [lostsprites] is empty,
    [spritedict] maps every sprite of the group to the area just drawn,
    the surface has received one [blit] for each sprite, and nothing
    else has changed. *)
Theorem RenderUpdates_draw_reports_every_area
    (area : obj -> option rect) (union : rect -> rect -> rect)
    (j : nat) (st : store) :
  (forall s, is_Some (spritedict st j !! s) -> is_Some (area s)) ->
  exists st',
    RenderUpdates_draw area union j st
    = (Ok (lostsprites st j ++
           omap (reported area union) (map_to_list (spritedict st j))), st') /\
    lostsprites st' j = [] /\
    (forall s, spritedict st' j !! s =
       if decide (is_Some (spritedict st j !! s)) then Some (area s) else None) /\
    blits st' = blits st ++ (BlitSprite <$> keys (spritedict st j)) /\
    g st' = g st /\
    (forall j', j' <> j ->
       spritedict st' j' = spritedict st j' /\
       lostsprites st' j' = lostsprites st j').
Proof.
  intros Harea.
  destruct (updates_loop_spec area union j (map_to_list (spritedict st j))
              (lostsprites st j) (set_lostsprites st j []))
    as (st' & Hrun & Hg & Hlost & Hblits & Hother & Hdict).
  { apply Forall_forall. intros [s r] Hin. simpl.
    apply Harea. apply elem_of_map_to_list in Hin. by eexists. }
  exists st'. split_and!.
  - exact Hrun.
  - rewrite Hlost. simpl. by rewrite decide_True.
  - intros s. rewrite Hdict. simpl.
    destruct (decide (s ∈ (map_to_list (spritedict st j)).*1)) as [Hin|Hin].
    + rewrite decide_True; [done|]. by apply elem_of_keys_render.
    + rewrite decide_False by (by rewrite <- elem_of_keys_render).
      apply eq_None_not_Some. by rewrite <- elem_of_keys_render.
  - exact Hblits.
  - exact Hg.
  - intros j' Hj'. split; [by apply Hother|].
    rewrite Hlost. simpl. by rewrite decide_False.
Qed.

Lemma RenderUpdates_draw_reports_every_area_witness :
  exists dirty st',
    RenderUpdates_draw sprite_area bounding_box 0 canvas1 = (Ok dirty, st') /\
    length dirty = 2%nat /\
    (0, 0, 10, 10) ∈ dirty /\
    lostsprites st' 0 = [].
Proof.
  destruct (RenderUpdates_draw_reports_every_area sprite_area bounding_box
              0 canvas1) as (st' & Hrun & Hlost & _).
  - intros s Hs. apply elem_of_keys_render in Hs. revert s Hs.
    apply Forall_forall. apply (bool_decide_unpack _). vm_compute. exact I.
  - eexists _, st'. split; [exact Hrun|].
    split; [vm_compute; reflexivity|]. split; [|exact Hlost].
    apply (bool_decide_unpack _). vm_compute. exact I.
Defined.

(** X27.  [RenderClear.draw] followed by [RenderClear.clear], for a
    group whose sprites can all be blitted: both calls return; the
    surface receives one [blit] for each sprite and then one [blit] of
    the background over each area that is pending, and these include
    every area left by a removed sprite and the area where each sprite
    was just drawn.  Afterwards [lostsprites] is empty. *)
Theorem RenderClear_clear_erases_what_was_drawn
    (area : obj -> option rect) (j : nat) (st : store) :
  (forall s, is_Some (spritedict st j !! s) -> is_Some (area s)) ->
  exists st1 st2,
    RenderClear_draw area j st = (Ok tt, st1) /\
    RenderClear_clear j st1 = (Ok tt, st2) /\
    blits st2 =
      blits st ++ (BlitSprite <$> keys (spritedict st j)) ++
      (BlitBackground <$> pending st1 j) /\
    (forall r, r ∈ lostsprites st j -> r ∈ pending st1 j) /\
    (forall s r, is_Some (spritedict st j !! s) -> area s = Some r ->
       r ∈ pending st1 j) /\
    lostsprites st2 j = [] /\
    spritedict st2 = spritedict st1.
Proof.
  intros Harea.
  destruct (draw_loop area j (keys (spritedict st j)) st)
    as (st1 & Hrun & Hg & Hlost & Hblits & Hother & Hdict).
  { apply Forall_forall. intros s Hs. apply Harea.
    by apply elem_of_keys_render. }
  exists st1. eexists. split_and!.
  - exact Hrun.
  - apply RenderClear_clear_spec.
  - simpl. rewrite Hblits. by rewrite <- app_assoc.
  - intros r Hr. unfold pending. rewrite Hlost. apply elem_of_app. by left.
  - intros s r Hs Hr. unfold pending. apply elem_of_app. right.
    apply (elem_of_drawn _ s). rewrite Hdict.
    rewrite decide_True by (by apply elem_of_keys_render). by rewrite Hr.
  - simpl. by rewrite decide_True.
  - done.
Qed.

Lemma RenderClear_clear_erases_what_was_drawn_witness :
  exists st1 st2,
    RenderClear_draw sprite_area 0 canvas0 = (Ok tt, st1) /\
    RenderClear_clear 0 st1 = (Ok tt, st2) /\
    BlitBackground (20, 0, 10, 10) ∈ blits st2.
Proof.
  destruct (RenderClear_clear_erases_what_was_drawn sprite_area 0 canvas0)
    as (st1 & st2 & Hdraw & Hclear & Hblits & _ & Hdrawn & _).
  - intros s Hs. apply elem_of_keys_render in Hs. revert s Hs.
    apply Forall_forall. apply (bool_decide_unpack _). vm_compute. exact I.
  - exists st1, st2. split; [exact Hdraw|]. split; [exact Hclear|].
    rewrite Hblits. apply elem_of_app. right. apply elem_of_app. right.
    apply list_elem_of_fmap. exists (20, 0, 10, 10). split; [done|].
    apply (Hdrawn (Spr 1)); [|reflexivity].
    exists None. vm_compute. reflexivity.
Defined.

(** X28.  A sprite that is killed after it was drawn is still erased.
    On a paired store [s.kill()] returns; no [spritedict] holds [s]
    afterwards, the surface has received nothing, and in every group
    the pending areas are the same as before up to their order.  The next
    [clear()] of any group therefore blits the background over every
    area that was pending before the kill. *)
Theorem killed_sprite_is_still_erased (s : nat) (st : store) :
  paired st ->
  exists st',
    Sprite_kill s st = (Ok tt, st') /\
    paired st' /\
    (forall j, spritedict st' j !! Spr s = None) /\
    (forall j, pending st' j ≡ₚ pending st j) /\
    blits st' = blits st /\
    forall j, exists st'',
      RenderClear_clear j st' = (Ok tt, st'') /\
      (exists l, blits st'' = blits st ++ (BlitBackground <$> l) /\
                 l ≡ₚ pending st j) /\
      forall r, r ∈ pending st j -> BlitBackground r ∈ blits st''.
Proof.
  intros Hp.
  destruct (Sprite_kill_render s st Hp)
    as (st' & Hrun & Hp' & _ & _ & Hgone & _ & Hpend & Hb).
  exists st'. split_and!; [done|done|done|done|done|].
  intros j. eexists. split; [apply RenderClear_clear_spec|]. split.
  - exists (pending st' j). split; [|done]. simpl. by rewrite Hb.
  - intros r Hr. simpl. apply elem_of_app. right.
    apply list_elem_of_fmap. exists r. split; [done|]. by rewrite Hpend.
Qed.

Lemma killed_sprite_is_still_erased_witness :
  exists st' st'',
    Sprite_kill 1 canvas1 = (Ok tt, st') /\
    spritedict st' 0 !! Spr 1 = None /\
    RenderClear_clear 0 st' = (Ok tt, st'') /\
    BlitBackground (20, 0, 10, 10) ∈ blits st''.
Proof.
  destruct (killed_sprite_is_still_erased 1 canvas1)
    as (st' & Hrun & _ & Hgone & _ & _ & Hclear).
  - apply paired_RenderClear_draw; [apply paired_canvas0|].
    intros s Hs. apply elem_of_keys_render in Hs. revert s Hs.
    apply Forall_forall. apply (bool_decide_unpack _). vm_compute. exact I.
  - destruct (Hclear 0%nat) as (st'' & Hc & _ & Herased).
    exists st', st''. split; [exact Hrun|]. split; [apply Hgone|].
    split; [exact Hc|]. apply Herased.
    apply (bool_decide_unpack _). vm_compute. exact I.
Defined.

(** X29.  [RenderPlain.draw], for a group whose sprites can all be
    blitted: the call returns and the surface receives one [blit] for
    each sprite, in the order of [spritedict.keys()].  The groups and
    the sprites are left as they were. *)
Theorem RenderPlain_draw_only_blits
    (area : obj -> option rect) (j : nat) (st : store) :
  (forall s, is_Some (spritedict st j !! s) -> is_Some (area s)) ->
  RenderPlain_draw area j st
  = (Ok tt, add_blits st (BlitSprite <$> keys (spritedict st j))).
Proof.
  intros Harea. unfold RenderPlain_draw, bind at 1, spritedict_keys.
  apply plain_loop. apply Forall_forall. intros s Hs. apply Harea.
  by apply elem_of_keys_render.
Qed.

Lemma RenderPlain_draw_only_blits_witness :
  RenderPlain_draw sprite_area 0 canvas0
  = (Ok tt, add_blits canvas0 [BlitSprite (Spr 1); BlitSprite (Spr 0)]).
Proof.
  apply (RenderPlain_draw_only_blits sprite_area 0 canvas0).
  intros s Hs. apply elem_of_keys_render in Hs. revert s Hs.
  apply Forall_forall. apply (bool_decide_unpack _). vm_compute. exact I.
Defined.

(** X30.  A sprite without [image] or [rect] stops [draw] half way.
    When [spritedict.keys()] is [l1 ++ s :: l2], the sprites of [l1]
    can be blitted and [s] cannot, [RenderPlain.draw] and
    [RenderClear.draw] raise AttributeError after the sprites of [l1]
    have been blitted, and [RenderClear.draw] has recorded the new
    areas of the sprites of [l1] only: the entries of [s] and of the
    sprites of [l2] are those of the previous drawing. *)
Theorem draw_stops_at_a_sprite_without_rect
    (area : obj -> option rect) (j : nat) (st : store)
    (l1 l2 : list obj) (s : obj) :
  keys (spritedict st j) = l1 ++ s :: l2 ->
  Forall (fun x => is_Some (area x)) l1 ->
  area s = None ->
  RenderPlain_draw area j st
  = (Raise AttributeError, add_blits st (BlitSprite <$> l1)) /\
  exists st',
    RenderClear_draw area j st = (Raise AttributeError, st') /\
    blits st' = blits st ++ (BlitSprite <$> l1) /\
    (forall k, spritedict st' j !! k =
       if decide (k ∈ l1) then Some (area k) else spritedict st j !! k) /\
    (forall j', j' <> j -> spritedict st' j' = spritedict st j') /\
    lostsprites st' = lostsprites st /\
    g st' = g st.
Proof.
  intros Hkeys Hall Hs. split.
  - unfold RenderPlain_draw, bind at 1, spritedict_keys. rewrite Hkeys.
    by apply plain_loop_raises.
  - destruct (draw_loop_raises area j l1 s l2 st Hall Hs)
      as (st' & Hraise & Hok).
    destruct (draw_loop area j l1 st Hall)
      as (st1 & Hrun & Hg & Hlost & Hblits & Hother & Hdict).
    assert (st1 = st') as <- by congruence.
    exists st1. split_and!; try done.
    unfold RenderClear_draw, bind at 1, spritedict_keys. rewrite Hkeys.
    exact Hraise.
Qed.

Lemma draw_stops_at_a_sprite_without_rect_witness :
  RenderPlain_draw sprite_1_area 0 canvas0
  = (Raise AttributeError, add_blits canvas0 [BlitSprite (Spr 1)]) /\
  exists st',
    RenderClear_draw sprite_1_area 0 canvas0 = (Raise AttributeError, st') /\
    spritedict st' 0 !! Spr 1 = Some (Some (20, 0, 10, 10)) /\
    spritedict st' 0 !! Spr 0 = Some None.
Proof.
  destruct (draw_stops_at_a_sprite_without_rect sprite_1_area 0 canvas0
              [Spr 1] [] (Spr 0))
    as (Hplain & st' & Hclear & _ & Hdict & _).
  - vm_compute. reflexivity.
  - apply Forall_cons. split; [by eexists|apply Forall_nil_2].
  - reflexivity.
  - split; [exact Hplain|]. exists st'. split; [exact Hclear|].
    rewrite !Hdict. split; vm_compute; reflexivity.
Defined.

End RenderFacts.
